(** * RefCheckWebApp: windowing, merge, deduplication, scoring, rate limiting

    A shallow embedding of the reconciliation and verification core of
    RefCheckWebApp (windowing.js, extraction-state.js,
    extraction-processor.js, validation.js, similarity.js, rate-limiter.js)
    and the properties proved about it.

    Modelling conventions.
    - A JavaScript string is a [string]: a sequence of code units, taken in
      the range 0..255 (ISO Latin-1).  On that range [toLowerCase], [trim]
      and the regular-expression class [\s] are exactly the functions below.
    - A JavaScript number that the code uses as an integer (lengths, offsets,
      indices, window size and overlap, years, clock readings) is a [Z].  A
      score is a rational [Q]: the arithmetic on scores is taken exact.
    - An optional property of an object is an [option]; [None] is the absent
      property ([undefined]).  A property that the extraction service may
      send as a string or as a number is a [scalar].
    - A loop that the code runs until a condition fails is a [Fixpoint] on a
      list where there is one, and else on a fuel that is proved enough.
    - What the code awaits (the extraction call of a window, the lookups of
      a citation, the clock, the callers of the limiter) is an argument of
      the function that awaits it. *)

From Stdlib Require Import ZArith QArith Qminmax List String Ascii Bool Lia Arith.
From Stdlib Require Import DecimalString Qround Lqa.
Import ListNotations.

Local Open Scope string_scope.
Local Open Scope list_scope.
Local Open Scope Z_scope.

(* ================================================================== *)
(** * Definitions *)
(* ================================================================== *)

(** ** JavaScript string primitives *)

Definition code (c : ascii) : Z := Z.of_nat (nat_of_ascii c).

(** [str.length]. *)
Definition len (s : string) : Z := Z.of_nat (String.length s).

(** WhiteSpace and LineTerminator code units below 256: TAB, LF, VT, FF, CR,
    SP and NBSP.  It is the set stripped by [trim] and matched by [\s]. *)
Definition isWhiteSpace (c : ascii) : bool :=
  let n := code c in
  (n =? 9) || (n =? 10) || (n =? 11) || (n =? 12) || (n =? 13) || (n =? 32)
  || (n =? 160).

Fixpoint trimStartL (l : list ascii) : list ascii :=
  match l with
  | [] => []
  | c :: r => if isWhiteSpace c then trimStartL r else l
  end.

(** [str.trim()]. *)
Definition trim (s : string) : string :=
  string_of_list_ascii
    (rev (trimStartL (rev (trimStartL (list_ascii_of_string s))))).

(** An index argument of [slice], made relative to the length. *)
Definition relIndex (n x : Z) : Z :=
  if x <? 0 then Z.max (n + x) 0 else Z.min x n.

(** [str.slice(from, to)]. *)
Definition slice (s : string) (from to : Z) : string :=
  let f := relIndex (len s) from in
  let t := relIndex (len s) to in
  substring (Z.to_nat f) (Z.to_nat (Z.max (t - f) 0)) s.

(** [str.slice(from)]. *)
Definition sliceFrom (s : string) (from : Z) : string :=
  slice s from (len s).

(** JavaScript truthiness of a string: the empty string is falsy. *)
Definition truthyStr (s : string) : bool :=
  negb (String.eqb s "").

(** ** Windower (windowing.js) *)

Record Window := mkWindow {
  w_index : Z;
  w_start : Z;
  w_end : Z;
  w_length : Z;
  w_text : string
}.

Definition emptyWindow : Window := mkWindow 0 0 0 0 "".

(** [windows[windows.length - 1]]. *)
Definition lastWindow (windows : list Window) : Window :=
  last windows emptyWindow.

(** The [while (start < text.length)] loop of [createWindows].  One unit of
    [fuel] is spent per iteration; [None] means that the fuel ran out before
    the loop ended. *)
Fixpoint createWindows_loop (fuel : nat) (text : string) (windowSize step : Z)
    (start windowIndex : Z) (windows : list Window) : option (list Window) :=
  if start <? len text then
    match fuel with
    | O => None
    | S fuel' =>
        let end_ := Z.min (start + windowSize) (len text) in
        let windowText := slice text start end_ in
        let windows :=
          windows ++ [mkWindow windowIndex start end_ (end_ - start) windowText] in
        let windowIndex := windowIndex + 1 in
        let start := start + step in
        (* Avoid tiny final windows *)
        if (start <? len text) && (len text - start <? step) then
          let finalStart := Z.max 0 (len text - windowSize) in
          if finalStart >? w_start (lastWindow windows) then
            Some (windows ++ [mkWindow windowIndex finalStart (len text)
                                (len text - finalStart)
                                (sliceFrom text finalStart)])
          else Some windows
        else
          createWindows_loop fuel' text windowSize step start windowIndex windows
    end
  else Some windows.

(** The normalisation of the two parameters at the head of [createWindows]. *)
Definition normWindowSize (windowSize : Z) : Z :=
  if windowSize <=? 0 then 2000 else windowSize.

Definition normOverlap (windowSize overlap : Z) : Z :=
  let overlap := if overlap <? 0 then 0 else overlap in
  if overlap >=? windowSize then windowSize - 1 else overlap.

(** [createWindows(text, windowSize, overlap)].  The loop gets as much fuel as
    the text has characters. *)
Definition createWindows (text : string) (windowSize overlap : Z)
    : option (list Window) :=
  if negb (truthyStr text) || negb (truthyStr (trim text)) then Some []
  else
    let windowSize := normWindowSize windowSize in
    let overlap := normOverlap windowSize overlap in
    let step := windowSize - overlap in
    createWindows_loop (String.length text) text windowSize step 0 0 [].

(** The half-open character range of a window. *)
Definition range (w : Window) : Z * Z := (w_start w, w_end w).

(** Position [p] lies in the range of one of the windows. *)
Definition covered (windows : list Window) (p : Z) : Prop :=
  exists w, In w windows /\ w_start w <= p < w_end w.

(** What a window of the result looks like. *)
Definition wellFormed (text : string) (windowSize : Z) (w : Window) : Prop :=
  0 <= w_start w /\ w_start w < w_end w /\ w_end w <= len text /\
  w_end w - w_start w <= windowSize /\
  w_length w = w_end w - w_start w.

(** The text has a character that is not white space. *)
Definition hasNonWhiteSpace (text : string) : bool :=
  existsb (fun c => negb (isWhiteSpace c)) (list_ascii_of_string text).

(** A text of [n] copies of one character. *)
Definition textOf (c : ascii) (n : nat) : string :=
  string_of_list_ascii (repeat c n).

(** ** More string primitives *)

(** [toLowerCase] on one code unit: A-Z, and the Latin-1 capitals 192..222
    other than the multiplication sign 215, move up by 32. *)
Definition toLowerChar (c : ascii) : ascii :=
  let n := code c in
  if ((65 <=? n) && (n <=? 90))
     || ((192 <=? n) && (n <=? 222) && negb (n =? 215))
  then ascii_of_nat (Z.to_nat (n + 32)) else c.

(** [str.toLowerCase()]. *)
Fixpoint toLowerCase (s : string) : string :=
  match s with
  | EmptyString => EmptyString
  | String c r => String (toLowerChar c) (toLowerCase r)
  end.

(** [str.includes(sub)]. *)
Fixpoint includes (s sub : string) : bool :=
  prefix sub s ||
  match s with
  | EmptyString => false
  | String _ r => includes r sub
  end.

(** [str.indexOf(c, from)] for a string [c] of one character; [pos] is the
    index of the head of [s] in the whole string.  -1 when there is none. *)
Fixpoint indexOf_from (s : string) (c : ascii) (from pos : Z) : Z :=
  match s with
  | EmptyString => -1
  | String d r =>
      if (from <=? pos) && Ascii.eqb c d then pos
      else indexOf_from r c from (pos + 1)
  end.

Definition indexOf (s : string) (c : ascii) (from : Z) : Z :=
  indexOf_from s c from 0.

(** [str.substring(0, n)] for [0 <= n]. *)
Definition substring0 (s : string) (n : Z) : string :=
  substring 0 (Z.to_nat (Z.min n (len s))) s.

(** [str.replace(/[-\s]/g, '')]. *)
Definition stripHyphensSpaces (s : string) : string :=
  string_of_list_ascii
    (filter (fun c => negb (Ascii.eqb c "-" || isWhiteSpace c))
       (list_ascii_of_string s)).

(** [str.split(/\s+/)]: the pieces between the maximal runs of white space;
    [cur] is the piece being read, reversed, and [inRun] tells that the last
    character read was white space. *)
Fixpoint splitWhiteSpace_from (l cur : list ascii) (inRun : bool) : list string :=
  match l with
  | [] => [string_of_list_ascii (rev cur)]
  | c :: r =>
      if isWhiteSpace c then
        if inRun then splitWhiteSpace_from r cur true
        else string_of_list_ascii (rev cur) :: splitWhiteSpace_from r [] true
      else splitWhiteSpace_from r (c :: cur) false
  end.

Definition splitWhiteSpace (s : string) : list string :=
  splitWhiteSpace_from (list_ascii_of_string s) [] false.

(** ** Scalars: a property that holds a string or an integer number *)

Inductive scalar :=
  | Str (s : string)
  | Num (n : Z).

(** [String(v)]. *)
Definition String_of (v : scalar) : string :=
  match v with
  | Str s => s
  | Num n => NilZero.string_of_int (Z.to_int n)
  end.

(** Truthiness of an optional scalar and of an optional string. *)
Definition truthy (v : option scalar) : bool :=
  match v with
  | Some (Str s) => truthyStr s
  | Some (Num n) => negb (n =? 0)
  | None => false
  end.

Definition truthyS (v : option string) : bool :=
  match v with
  | Some s => truthyStr s
  | None => false
  end.

Definition truthyB (v : option bool) : bool :=
  match v with
  | Some b => b
  | None => false
  end.

(** [v || ''] on an optional string. *)
Definition orEmpty (v : option string) : string :=
  match v with
  | Some s => s
  | None => ""
  end.

(** [a === b] on optional strings that are both defined or both absent. *)
Definition optStr_eqb (a b : option string) : bool :=
  match a, b with
  | Some x, Some y => String.eqb x y
  | None, None => true
  | _, _ => false
  end.

(** Strict comparison [x < y] of two scores. *)
Definition Qltb (x y : Q) : bool := negb (Qle_bool y x).

(** ** similarity.js *)

(** [new Set(words)]: the distinct words, in the order of first insertion. *)
Definition setAdd (x : string) (s : list string) : list string :=
  if existsb (String.eqb x) s then s else s ++ [x].

Definition setOf (words : list string) : list string :=
  fold_left (fun s w => setAdd w s) words [].

Definition setHas (s : list string) (x : string) : bool :=
  existsb (String.eqb x) s.

(** [stringSimilarity(str1, str2)]: Jaccard index of the two sets of words. *)
Definition stringSimilarity (str1 str2 : string) : Q :=
  if negb (truthyStr str1) || negb (truthyStr str2) then 0%Q
  else
    let words1 := setOf (splitWhiteSpace (toLowerCase str1)) in
    let words2 := setOf (splitWhiteSpace (toLowerCase str2)) in
    let intersectionSize := Z.of_nat (List.length (filter (setHas words2) words1)) in
    let unionSize :=
      Z.of_nat (List.length words1) + Z.of_nat (List.length words2)
      - intersectionSize in
    if unionSize >? 0 then (inject_Z intersectionSize / inject_Z unionSize)%Q
    else 0%Q.

(** ** Records *)

Record Author := mkAuthor {
  family : option string;
  given : option string
}.

Inductive Status := valid | suspicious | mismatch | invalid | incomplete.

Inductive Field := Ftitle | Fauthors | Fyear | Fjournal | Fvolume | Fpages.

(** [{overall, fields, fieldsCompared}]; [fields] lists the properties of the
    [fieldScores] object in the order of their insertion. *)
Record MatchScore := mkMatchScore {
  overall : Q;
  fields : list (Field * Q);
  fieldsCompared : Z
}.

(** The part of a CrossRef work that [normalizeCrossRef] reads; the two dates
    are their ['date-parts'] arrays. *)
Record CrossRefWork := mkCrossRefWork {
  cr_title : option (list string);
  cr_author : option (list Author);
  cr_published_print : option (list (list Z));
  cr_issued : option (list (list Z));
  cr_container_title : option (list string);
  cr_volume : option string;
  cr_page : option string;
  cr_DOI : option string
}.

(** The part of an OpenAlex work that [normalizeOpenAlex] reads;
    [oa_authorships] holds [author.display_name] of each authorship. *)
Record OpenAlexWork := mkOpenAlexWork {
  oa_title : option string;
  oa_authorships : option (list (option string));
  oa_publication_year : option Z;
  oa_source_display_name : option string;
  oa_first_page : option string;
  oa_last_page : option string;
  oa_volume : option string;
  oa_doi : option string
}.

(** The [validation] bag of a citation. *)
Record Validation := mkValidation {
  crossref : option CrossRefWork;
  openalex : option OpenAlexWork;
  matchScore : option MatchScore
}.

(** The processed extraction of the data model: the record returned by the
    extraction service (identifier fields, descriptive fields, the [complete]
    flag with [position] and [reason]), the identity given by
    [processExtraction], and what validation attaches.  Every property is
    optional; [authors] is an array of objects with [family] and [given]. *)
Record Extraction := mkExtraction {
  doi : option string;
  pmid : option scalar;
  isbn : option string;
  title : option string;
  year : option scalar;
  authors : option (list Author);
  container_title : option string;
  volume : option scalar;
  issue : option scalar;
  pages : option scalar;
  raw_text : option string;
  query_bibliographic : option string;
  complete : option bool;
  position : option string;
  reason : option string;
  authors_truncated : option bool;
  id : option string;
  index : option Z;
  colorIndex : option Z;
  windowIndex : option Z;
  error : option bool;
  errorMessage : option string;
  validationStatus : option Status;
  validationMessage : option string;
  validation : option Validation
}.

(** The object with no property. *)
Definition emptyExtraction : Extraction :=
  mkExtraction None None None None None None None None None None None None None None None None None None None None None None None None None.

(** Assignments [e.field = v]; [None] is [delete e.field]. *)
Definition set_doi (v : option string) (e : Extraction) : Extraction :=
  mkExtraction v (pmid e) (isbn e) (title e) (year e) (authors e)
    (container_title e) (volume e) (issue e) (pages e) (raw_text e)
    (query_bibliographic e) (complete e) (position e) (reason e)
    (authors_truncated e) (id e) (index e) (colorIndex e) (windowIndex e)
    (error e) (errorMessage e) (validationStatus e) (validationMessage e)
    (validation e).

Definition set_pmid (v : option scalar) (e : Extraction) : Extraction :=
  mkExtraction (doi e) v (isbn e) (title e) (year e) (authors e)
    (container_title e) (volume e) (issue e) (pages e) (raw_text e)
    (query_bibliographic e) (complete e) (position e) (reason e)
    (authors_truncated e) (id e) (index e) (colorIndex e) (windowIndex e)
    (error e) (errorMessage e) (validationStatus e) (validationMessage e)
    (validation e).

Definition set_isbn (v : option string) (e : Extraction) : Extraction :=
  mkExtraction (doi e) (pmid e) v (title e) (year e) (authors e)
    (container_title e) (volume e) (issue e) (pages e) (raw_text e)
    (query_bibliographic e) (complete e) (position e) (reason e)
    (authors_truncated e) (id e) (index e) (colorIndex e) (windowIndex e)
    (error e) (errorMessage e) (validationStatus e) (validationMessage e)
    (validation e).

Definition set_title (v : option string) (e : Extraction) : Extraction :=
  mkExtraction (doi e) (pmid e) (isbn e) v (year e) (authors e)
    (container_title e) (volume e) (issue e) (pages e) (raw_text e)
    (query_bibliographic e) (complete e) (position e) (reason e)
    (authors_truncated e) (id e) (index e) (colorIndex e) (windowIndex e)
    (error e) (errorMessage e) (validationStatus e) (validationMessage e)
    (validation e).

Definition set_year (v : option scalar) (e : Extraction) : Extraction :=
  mkExtraction (doi e) (pmid e) (isbn e) (title e) v (authors e)
    (container_title e) (volume e) (issue e) (pages e) (raw_text e)
    (query_bibliographic e) (complete e) (position e) (reason e)
    (authors_truncated e) (id e) (index e) (colorIndex e) (windowIndex e)
    (error e) (errorMessage e) (validationStatus e) (validationMessage e)
    (validation e).

Definition set_authors (v : option (list Author)) (e : Extraction) : Extraction :=
  mkExtraction (doi e) (pmid e) (isbn e) (title e) (year e) v
    (container_title e) (volume e) (issue e) (pages e) (raw_text e)
    (query_bibliographic e) (complete e) (position e) (reason e)
    (authors_truncated e) (id e) (index e) (colorIndex e) (windowIndex e)
    (error e) (errorMessage e) (validationStatus e) (validationMessage e)
    (validation e).

Definition set_container_title (v : option string) (e : Extraction) : Extraction :=
  mkExtraction (doi e) (pmid e) (isbn e) (title e) (year e) (authors e) v
    (volume e) (issue e) (pages e) (raw_text e) (query_bibliographic e)
    (complete e) (position e) (reason e) (authors_truncated e) (id e) (index
    e) (colorIndex e) (windowIndex e) (error e) (errorMessage e)
    (validationStatus e) (validationMessage e) (validation e).

Definition set_volume (v : option scalar) (e : Extraction) : Extraction :=
  mkExtraction (doi e) (pmid e) (isbn e) (title e) (year e) (authors e)
    (container_title e) v (issue e) (pages e) (raw_text e)
    (query_bibliographic e) (complete e) (position e) (reason e)
    (authors_truncated e) (id e) (index e) (colorIndex e) (windowIndex e)
    (error e) (errorMessage e) (validationStatus e) (validationMessage e)
    (validation e).

Definition set_issue (v : option scalar) (e : Extraction) : Extraction :=
  mkExtraction (doi e) (pmid e) (isbn e) (title e) (year e) (authors e)
    (container_title e) (volume e) v (pages e) (raw_text e)
    (query_bibliographic e) (complete e) (position e) (reason e)
    (authors_truncated e) (id e) (index e) (colorIndex e) (windowIndex e)
    (error e) (errorMessage e) (validationStatus e) (validationMessage e)
    (validation e).

Definition set_pages (v : option scalar) (e : Extraction) : Extraction :=
  mkExtraction (doi e) (pmid e) (isbn e) (title e) (year e) (authors e)
    (container_title e) (volume e) (issue e) v (raw_text e)
    (query_bibliographic e) (complete e) (position e) (reason e)
    (authors_truncated e) (id e) (index e) (colorIndex e) (windowIndex e)
    (error e) (errorMessage e) (validationStatus e) (validationMessage e)
    (validation e).

Definition set_raw_text (v : option string) (e : Extraction) : Extraction :=
  mkExtraction (doi e) (pmid e) (isbn e) (title e) (year e) (authors e)
    (container_title e) (volume e) (issue e) (pages e) v
    (query_bibliographic e) (complete e) (position e) (reason e)
    (authors_truncated e) (id e) (index e) (colorIndex e) (windowIndex e)
    (error e) (errorMessage e) (validationStatus e) (validationMessage e)
    (validation e).

Definition set_query_bibliographic (v : option string) (e : Extraction) : Extraction :=
  mkExtraction (doi e) (pmid e) (isbn e) (title e) (year e) (authors e)
    (container_title e) (volume e) (issue e) (pages e) (raw_text e) v
    (complete e) (position e) (reason e) (authors_truncated e) (id e) (index
    e) (colorIndex e) (windowIndex e) (error e) (errorMessage e)
    (validationStatus e) (validationMessage e) (validation e).

Definition set_complete (v : option bool) (e : Extraction) : Extraction :=
  mkExtraction (doi e) (pmid e) (isbn e) (title e) (year e) (authors e)
    (container_title e) (volume e) (issue e) (pages e) (raw_text e)
    (query_bibliographic e) v (position e) (reason e) (authors_truncated e)
    (id e) (index e) (colorIndex e) (windowIndex e) (error e) (errorMessage
    e) (validationStatus e) (validationMessage e) (validation e).

Definition set_position (v : option string) (e : Extraction) : Extraction :=
  mkExtraction (doi e) (pmid e) (isbn e) (title e) (year e) (authors e)
    (container_title e) (volume e) (issue e) (pages e) (raw_text e)
    (query_bibliographic e) (complete e) v (reason e) (authors_truncated e)
    (id e) (index e) (colorIndex e) (windowIndex e) (error e) (errorMessage
    e) (validationStatus e) (validationMessage e) (validation e).

Definition set_reason (v : option string) (e : Extraction) : Extraction :=
  mkExtraction (doi e) (pmid e) (isbn e) (title e) (year e) (authors e)
    (container_title e) (volume e) (issue e) (pages e) (raw_text e)
    (query_bibliographic e) (complete e) (position e) v (authors_truncated
    e) (id e) (index e) (colorIndex e) (windowIndex e) (error e)
    (errorMessage e) (validationStatus e) (validationMessage e) (validation
    e).

Definition set_authors_truncated (v : option bool) (e : Extraction) : Extraction :=
  mkExtraction (doi e) (pmid e) (isbn e) (title e) (year e) (authors e)
    (container_title e) (volume e) (issue e) (pages e) (raw_text e)
    (query_bibliographic e) (complete e) (position e) (reason e) v (id e)
    (index e) (colorIndex e) (windowIndex e) (error e) (errorMessage e)
    (validationStatus e) (validationMessage e) (validation e).

Definition set_id (v : option string) (e : Extraction) : Extraction :=
  mkExtraction (doi e) (pmid e) (isbn e) (title e) (year e) (authors e)
    (container_title e) (volume e) (issue e) (pages e) (raw_text e)
    (query_bibliographic e) (complete e) (position e) (reason e)
    (authors_truncated e) v (index e) (colorIndex e) (windowIndex e) (error
    e) (errorMessage e) (validationStatus e) (validationMessage e)
    (validation e).

Definition set_index (v : option Z) (e : Extraction) : Extraction :=
  mkExtraction (doi e) (pmid e) (isbn e) (title e) (year e) (authors e)
    (container_title e) (volume e) (issue e) (pages e) (raw_text e)
    (query_bibliographic e) (complete e) (position e) (reason e)
    (authors_truncated e) (id e) v (colorIndex e) (windowIndex e) (error e)
    (errorMessage e) (validationStatus e) (validationMessage e) (validation
    e).

Definition set_colorIndex (v : option Z) (e : Extraction) : Extraction :=
  mkExtraction (doi e) (pmid e) (isbn e) (title e) (year e) (authors e)
    (container_title e) (volume e) (issue e) (pages e) (raw_text e)
    (query_bibliographic e) (complete e) (position e) (reason e)
    (authors_truncated e) (id e) (index e) v (windowIndex e) (error e)
    (errorMessage e) (validationStatus e) (validationMessage e) (validation
    e).

Definition set_windowIndex (v : option Z) (e : Extraction) : Extraction :=
  mkExtraction (doi e) (pmid e) (isbn e) (title e) (year e) (authors e)
    (container_title e) (volume e) (issue e) (pages e) (raw_text e)
    (query_bibliographic e) (complete e) (position e) (reason e)
    (authors_truncated e) (id e) (index e) (colorIndex e) v (error e)
    (errorMessage e) (validationStatus e) (validationMessage e) (validation
    e).

Definition set_error (v : option bool) (e : Extraction) : Extraction :=
  mkExtraction (doi e) (pmid e) (isbn e) (title e) (year e) (authors e)
    (container_title e) (volume e) (issue e) (pages e) (raw_text e)
    (query_bibliographic e) (complete e) (position e) (reason e)
    (authors_truncated e) (id e) (index e) (colorIndex e) (windowIndex e) v
    (errorMessage e) (validationStatus e) (validationMessage e) (validation
    e).

Definition set_errorMessage (v : option string) (e : Extraction) : Extraction :=
  mkExtraction (doi e) (pmid e) (isbn e) (title e) (year e) (authors e)
    (container_title e) (volume e) (issue e) (pages e) (raw_text e)
    (query_bibliographic e) (complete e) (position e) (reason e)
    (authors_truncated e) (id e) (index e) (colorIndex e) (windowIndex e)
    (error e) v (validationStatus e) (validationMessage e) (validation e).

Definition set_validationStatus (v : option Status) (e : Extraction) : Extraction :=
  mkExtraction (doi e) (pmid e) (isbn e) (title e) (year e) (authors e)
    (container_title e) (volume e) (issue e) (pages e) (raw_text e)
    (query_bibliographic e) (complete e) (position e) (reason e)
    (authors_truncated e) (id e) (index e) (colorIndex e) (windowIndex e)
    (error e) (errorMessage e) v (validationMessage e) (validation e).

Definition set_validationMessage (v : option string) (e : Extraction) : Extraction :=
  mkExtraction (doi e) (pmid e) (isbn e) (title e) (year e) (authors e)
    (container_title e) (volume e) (issue e) (pages e) (raw_text e)
    (query_bibliographic e) (complete e) (position e) (reason e)
    (authors_truncated e) (id e) (index e) (colorIndex e) (windowIndex e)
    (error e) (errorMessage e) (validationStatus e) v (validation e).

Definition set_validation (v : option Validation) (e : Extraction) : Extraction :=
  mkExtraction (doi e) (pmid e) (isbn e) (title e) (year e) (authors e)
    (container_title e) (volume e) (issue e) (pages e) (raw_text e)
    (query_bibliographic e) (complete e) (position e) (reason e)
    (authors_truncated e) (id e) (index e) (colorIndex e) (windowIndex e)
    (error e) (errorMessage e) (validationStatus e) (validationMessage e) v.

(** ** extraction-state.js *)

(** The run state: [state.extractions], [state.processingResults] and
    [state.shouldCancel]. *)
Record State := mkState {
  extractions : list Extraction;
  processingResults : list Extraction;
  shouldCancel : bool
}.

(** [createExtractionState()]. *)
Definition createExtractionState : State := mkState [] [] false.

(** [WINDOW_COLORS.length]. *)
Definition WINDOW_COLORS_length : Z := 6.

(** The template string [`extraction-${index}`]. *)
Definition extractionId (index : Z) : string :=
  String.append "extraction-" (String_of (Num index)).

(** [processExtraction(rawExtraction, index, windowIndex)]. *)
Definition processExtraction (rawExtraction : Extraction) (index windowIndex : Z)
    : Extraction :=
  set_windowIndex (Some windowIndex)
    (set_colorIndex (Some (Z.rem index WINDOW_COLORS_length))
       (set_index (Some index)
          (set_id (Some (extractionId index)) rawExtraction))).

(** [ext.complete !== false]. *)
Definition notIncomplete (ext : Extraction) : bool :=
  match complete ext with
  | Some false => false
  | _ => true
  end.

(** [ext.position === p]. *)
Definition positionIs (ext : Extraction) (p : string) : bool :=
  optStr_eqb (position ext) (Some p).

(** [ext.authors?.length > 0]. *)
Definition hasAuthors (ext : Extraction) : bool :=
  match authors ext with
  | Some (_ :: _) => true
  | _ => false
  end.

(** [ext.authors[0].family?.toLowerCase().trim()], read when
    [ext.authors?.length > 0]. *)
Definition firstAuthorFamily (ext : Extraction) : option string :=
  match authors ext with
  | Some (a :: _) => option_map (fun f => trim (toLowerCase f)) (family a)
  | _ => None
  end.

(** The three identifier tests shared by the loose and the strict rule. *)
Definition doiMatch (ext1 ext2 : Extraction) : bool :=
  match doi ext1, doi ext2 with
  | Some d1, Some d2 =>
      truthyStr d1 && truthyStr d2 &&
      String.eqb (toLowerCase d1) (toLowerCase d2)
  | _, _ => false
  end.

Definition pmidMatch (ext1 ext2 : Extraction) : bool :=
  match pmid ext1, pmid ext2 with
  | Some p1, Some p2 =>
      truthy (Some p1) && truthy (Some p2) &&
      String.eqb (String_of p1) (String_of p2)
  | _, _ => false
  end.

Definition isbnMatch (ext1 ext2 : Extraction) : bool :=
  match isbn ext1, isbn ext2 with
  | Some i1, Some i2 =>
      truthyStr i1 && truthyStr i2 &&
      String.eqb (stripHyphensSpaces i1) (stripHyphensSpaces i2)
  | _, _ => false
  end.

(** [author1 && author2 && author1 === author2]. *)
Definition sameFirstAuthor (ext1 ext2 : Extraction) : bool :=
  match firstAuthorFamily ext1, firstAuthorFamily ext2 with
  | Some author1, Some author2 =>
      truthyStr author1 && truthyStr author2 && String.eqb author1 author2
  | _, _ => false
  end.

(** [extractionsMatchByFields(ext1, ext2)]: the loose rule. *)
Definition extractionsMatchByFields (ext1 ext2 : Extraction) : bool :=
  if doiMatch ext1 ext2 then true
  else if pmidMatch ext1 ext2 then true
  else if isbnMatch ext1 ext2 then true
  else if hasAuthors ext1 && hasAuthors ext2 && sameFirstAuthor ext1 ext2 then true
  else if
    match title ext1, title ext2 with
    | Some t1, Some t2 =>
        truthyStr t1 && truthyStr t2 &&
        let title1 := trim (toLowerCase t1) in
        let title2 := trim (toLowerCase t2) in
        let minLen := Z.min (len title1) (len title2) in
        (minLen >=? 10) &&
        (includes title1 title2 || includes title2 title1 ||
         let checkLen := Z.min 15 minLen in
         String.eqb (substring0 title1 checkLen) (substring0 title2 checkLen))
    | _, _ => false
    end
  then true
  else
    match year ext1, year ext2, container_title ext1, container_title ext2 with
    | Some y1, Some y2, Some c1, Some c2 =>
        truthy (Some y1) && truthy (Some y2) && truthyStr c1 && truthyStr c2 &&
        String.eqb (String_of y1) (String_of y2) &&
        String.eqb (toLowerCase c1) (toLowerCase c2)
    | _, _, _, _ => false
    end.

(** [extractionsOverlap(ext1, ext2)]. *)
Definition extractionsOverlap (ext1 ext2 : Extraction) : bool :=
  if truthyB (error ext1) || truthyB (error ext2) then false
  else if notIncomplete ext1 || notIncomplete ext2 then false
  else
    let hasComplementaryPositions :=
      (positionIs ext1 "end" && positionIs ext2 "start") ||
      (positionIs ext1 "start" && positionIs ext2 "end") in
    if negb hasComplementaryPositions then false
    else extractionsMatchByFields ext1 ext2.

(** [completeSupersedes(incompleteEnd, completeExtraction)]. *)
Definition completeSupersedes (incompleteEnd completeExtraction : Extraction)
    : bool :=
  if truthyB (error incompleteEnd) || truthyB (error completeExtraction)
  then false
  else if notIncomplete incompleteEnd || negb (positionIs incompleteEnd "end")
  then false
  else if negb (notIncomplete completeExtraction) then false
  else extractionsMatchByFields incompleteEnd completeExtraction.

(** The loop of [calculateSimilarity] over the characters of [shorter]; the
    state is [(matches, longerIdx)]. *)
Fixpoint countInOrder (shorter longer : string) (matches longerIdx : Z) : Z :=
  match shorter with
  | EmptyString => matches
  | String char r =>
      let foundIdx := indexOf longer char longerIdx in
      if negb (foundIdx =? -1)
      then countInOrder r longer (matches + 1) (foundIdx + 1)
      else countInOrder r longer matches longerIdx
  end.

(** [calculateSimilarity(str1, str2)]: the share of the longer string that
    the shorter one fills when it is contained in it, else the share of
    characters matched in order. *)
Definition calculateSimilarity (str1 str2 : string) : Q :=
  if negb (truthyStr str1) || negb (truthyStr str2) then 0%Q
  else if String.eqb str1 str2 then 1%Q
  else
    let longer := if len str1 >? len str2 then str1 else str2 in
    let shorter := if len str1 >? len str2 then str2 else str1 in
    if len longer =? 0 then 1%Q
    else if includes longer shorter
    then (inject_Z (len shorter) / inject_Z (len longer))%Q
    else
      let matches := countInOrder shorter longer 0 0 in
      (inject_Z (2 * matches) / inject_Z (len str1 + len str2))%Q.

(** The rule of [extractionsAreDuplicates] that applies when no identifier
    matches: similar titles, the same first author, no conflicting years. *)
Definition titleAuthorYearMatch (ext1 ext2 : Extraction) : bool :=
  match title ext1, title ext2 with
  | Some t1, Some t2 =>
      if negb (truthyStr t1) || negb (truthyStr t2) then false
      else
        let title1 := trim (toLowerCase t1) in
        let title2 := trim (toLowerCase t2) in
        let titleSimilarity := calculateSimilarity title1 title2 in
        if Qltb titleSimilarity (8 # 10) then false
        else if hasAuthors ext1 && hasAuthors ext2 then
          if negb (sameFirstAuthor ext1 ext2) then false
          else
            match year ext1, year ext2 with
            | Some y1, Some y2 =>
                if truthy (Some y1) && truthy (Some y2) &&
                   negb (String.eqb (String_of y1) (String_of y2))
                then false else true
            | _, _ => true
            end
        else false
  | _, _ => false
  end.

(** [extractionsAreDuplicates(ext1, ext2)]: the strict rule. *)
Definition extractionsAreDuplicates (ext1 ext2 : Extraction) : bool :=
  if doiMatch ext1 ext2 then true
  else if pmidMatch ext1 ext2 then true
  else if isbnMatch ext1 ext2 then true
  else titleAuthorYearMatch ext1 ext2.

(** [addExtraction(state, extraction)]. *)
Definition addExtraction (state : State) (extraction : Extraction) : State :=
  mkState (extractions state ++ [extraction])
          (processingResults state ++ [extraction])
          (shouldCancel state).

(** [createErrorExtraction(index, windowIndex, errorMessage)]. *)
Definition createErrorExtraction (index windowIndex : Z) (errorMessage : string)
    : Extraction :=
  set_validationStatus (Some invalid)
    (set_errorMessage (Some errorMessage)
       (set_error (Some true)
          (set_windowIndex (Some windowIndex)
             (set_colorIndex (Some (Z.rem index WINDOW_COLORS_length))
                (set_index (Some index)
                   (set_id (Some (extractionId index)) emptyExtraction)))))).

(** [scoreExtraction(ext)]. *)
Definition scoreExtraction (ext : Extraction) : Q :=
  let score := 0%Q in
  let score :=
    match validationStatus ext with
    | Some valid => (score + 100)%Q
    | Some suspicious => (score + 50)%Q
    | Some incomplete => (score + 10)%Q
    | Some invalid => (score + 5)%Q
    | _ => score
    end in
  let score := if notIncomplete ext then (score + 50)%Q else score in
  let score := if truthyS (doi ext) then (score + 30)%Q else score in
  let score := if truthy (pmid ext) then (score + 20)%Q else score in
  let score := if truthyS (isbn ext) then (score + 20)%Q else score in
  let score := if truthyS (title ext) then (score + 10)%Q else score in
  let score := if truthy (year ext) then (score + 5)%Q else score in
  let score := if truthyS (container_title ext) then (score + 5)%Q else score in
  let score := if truthy (volume ext) then (score + 3)%Q else score in
  let score := if truthy (issue ext) then (score + 3)%Q else score in
  let score := if truthy (pages ext) then (score + 3)%Q else score in
  let score :=
    match authors ext with
    | Some (a :: l) =>
        (score + inject_Z (Z.min (Z.of_nat (List.length (a :: l)) * 2) 10))%Q
    | _ => score
    end in
  (score + inject_Z (match windowIndex ext with Some w => w | None => 0 end)
           * (1 # 10))%Q.

(** [idsToRemove]: a set of ids; an extraction without [id] has the id
    [undefined], which a set holds like any other value. *)
Definition idSet := list (option string).

Definition idHas (ids : idSet) (i : option string) : bool :=
  existsb (optStr_eqb i) ids.

Definition idAdd (i : option string) (ids : idSet) : idSet :=
  if idHas ids i then ids else ids ++ [i].

(** The inner loop of [deduplicateExtractions]: [ext1] against the
    extractions after it. *)
Fixpoint dedupInner (ext1 : Extraction) (rest : list Extraction)
    (idsToRemove : idSet) : idSet :=
  match rest with
  | [] => idsToRemove
  | ext2 :: rest' =>
      if truthyB (error ext2) || idHas idsToRemove (id ext2)
      then dedupInner ext1 rest' idsToRemove
      else if extractionsAreDuplicates ext1 ext2 then
        let score1 := scoreExtraction ext1 in
        let score2 := scoreExtraction ext2 in
        if Qle_bool score2 score1
        then dedupInner ext1 rest' (idAdd (id ext2) idsToRemove)
        else idAdd (id ext1) idsToRemove
      else dedupInner ext1 rest' idsToRemove
  end.

(** The outer loop: every extraction in turn, as [ext1]. *)
Fixpoint dedupOuter (exts : list Extraction) (idsToRemove : idSet) : idSet :=
  match exts with
  | [] => idsToRemove
  | ext1 :: rest =>
      if truthyB (error ext1) || idHas idsToRemove (id ext1)
      then dedupOuter rest idsToRemove
      else dedupOuter rest (dedupInner ext1 rest idsToRemove)
  end.

(** [deduplicateExtractions(state)]: the state afterwards and the number of
    duplicates removed. *)
Definition deduplicateExtractions (state : State) : State * Z :=
  if Z.of_nat (List.length (extractions state)) <? 2 then (state, 0)
  else
    let idsToRemove := dedupOuter (extractions state) [] in
    if Z.of_nat (List.length idsToRemove) =? 0 then (state, 0)
    else
      let keep := fun e => negb (idHas idsToRemove (id e)) in
      (mkState (filter keep (extractions state))
               (filter keep (processingResults state))
               (shouldCancel state),
       Z.of_nat (List.length idsToRemove)).


(** ** extraction-processor.js *)

(** [if (!end[f] && start[f]) end[f] = start[f]], the new [end[f]]. *)
Definition fillMissingS (endV startV : option string) : option string :=
  if negb (truthyS endV) && truthyS startV then startV else endV.

Definition fillMissing (endV startV : option scalar) : option scalar :=
  if negb (truthy endV) && truthy startV then startV else endV.

(** [str.length] of a property that holds a string. *)
Definition lenS (v : option string) : Z :=
  match v with
  | Some s => len s
  | None => 0
  end.

(** One round of the loop over [textFields]. *)
Definition preferLonger (endV startV : option string) : option string :=
  if negb (truthyS endV) && truthyS startV then startV
  else if truthyS endV && truthyS startV && (lenS startV >? lenS endV)
  then startV
  else endV.

(** The steps of [mergeExtractions], each as the update that it makes to
    [endExtraction]. *)

(** Mark as complete after merge. *)
Definition markComplete (endExtraction : Extraction) : Extraction :=
  set_position None (set_reason None (set_complete (Some true) endExtraction)).

(** Merge text fields: combine the raw texts. *)
Definition mergeRawText (startExtraction endExtraction : Extraction)
    : Extraction :=
  if truthyS (raw_text endExtraction) && truthyS (raw_text startExtraction)
  then
    set_raw_text
      (Some (String.append (orEmpty (raw_text endExtraction))
               (String "010" (orEmpty (raw_text startExtraction)))))
      endExtraction
  else if negb (truthyS (raw_text endExtraction))
          && truthyS (raw_text startExtraction)
  then set_raw_text (raw_text startExtraction) endExtraction
  else endExtraction.

(** For title, prefer longer. *)
Definition mergeTitle (startExtraction endExtraction : Extraction)
    : Extraction :=
  if truthyS (title endExtraction) && truthyS (title startExtraction) then
    if lenS (title startExtraction) >? lenS (title endExtraction)
    then set_title (title startExtraction) endExtraction
    else endExtraction
  else if negb (truthyS (title endExtraction))
          && truthyS (title startExtraction)
  then set_title (title startExtraction) endExtraction
  else endExtraction.

(** Other text fields - prefer longer: the loop over [textFields]. *)
Definition mergeTextFields (startExtraction endExtraction : Extraction)
    : Extraction :=
  let endExtraction :=
    set_container_title
      (preferLonger (container_title endExtraction)
         (container_title startExtraction)) endExtraction in
  set_query_bibliographic
    (preferLonger (query_bibliographic endExtraction)
       (query_bibliographic startExtraction)) endExtraction.

(** Simple fields - fill in missing: the loop over [simpleFields]. *)
Definition mergeSimpleFields (startExtraction endExtraction : Extraction)
    : Extraction :=
  let endExtraction :=
    set_doi (fillMissingS (doi endExtraction) (doi startExtraction))
      endExtraction in
  let endExtraction :=
    set_pmid (fillMissing (pmid endExtraction) (pmid startExtraction))
      endExtraction in
  let endExtraction :=
    set_isbn (fillMissingS (isbn endExtraction) (isbn startExtraction))
      endExtraction in
  let endExtraction :=
    set_year (fillMissing (year endExtraction) (year startExtraction))
      endExtraction in
  let endExtraction :=
    set_volume (fillMissing (volume endExtraction) (volume startExtraction))
      endExtraction in
  let endExtraction :=
    set_issue (fillMissing (issue endExtraction) (issue startExtraction))
      endExtraction in
  set_pages (fillMissing (pages endExtraction) (pages startExtraction))
    endExtraction.

(** Authors - prefer longer list. *)
Definition mergeAuthors (startExtraction endExtraction : Extraction)
    : Extraction :=
  match authors startExtraction with
  | Some sa =>
      let endLength :=
        match authors endExtraction with
        | Some ea => Z.of_nat (List.length ea)
        | None => 0
        end in
      if Z.of_nat (List.length sa) >? endLength
      then set_authors (Some sa) endExtraction
      else endExtraction
  | None => endExtraction
  end.

(** Preserve truncation flag. *)
Definition mergeTruncated (startExtraction endExtraction : Extraction)
    : Extraction :=
  if truthyB (authors_truncated endExtraction)
     || truthyB (authors_truncated startExtraction)
  then set_authors_truncated (Some true) endExtraction
  else endExtraction.

(** [mergeExtractions(master, slave)].  The code updates the [end] extraction
    in place and returns it; here the updated record is the result. *)
Definition mergeExtractions (master slave : Extraction) : Extraction :=
  let endExtraction := if positionIs master "end" then master else slave in
  let startExtraction := if positionIs master "end" then slave else master in
  mergeTruncated startExtraction
    (mergeAuthors startExtraction
       (mergeSimpleFields startExtraction
          (mergeTextFields startExtraction
             (mergeTitle startExtraction
                (mergeRawText startExtraction
                   (markComplete endExtraction)))))).

(** What the extraction service answers for one window. *)
Inductive Outcome :=
  | Extracted (citations : list Extraction)
  | Failed (message : string).

(** One window of a run, as the loop of [processAllWindows] meets it:
    [state.shouldCancel] at the top of the iteration, the outcome of the
    awaited extraction call, and [state.shouldCancel] after the call. *)
Record WindowEvent := mkWindowEvent {
  cancelAtTop : bool;
  outcome : Outcome;
  cancelAfterCall : bool
}.

(** The variables of [processAllWindows].  [dispatched] lists the citations
    handed to [startValidation], in order.  The task that [startValidation]
    schedules under the validation limiter validates the citation and then
    adds it to [state.extractions], at once or later; what the tasks add is
    not followed here: [state] holds the extractions that the loop itself
    adds, the error records.  [windowsStarted] and [errorsReported] list the
    calls of [onWindowStart] and [onError]. *)
Record Run := mkRun {
  state : State;
  extractionIndex : Z;
  pendingIncompleteEnd : list Extraction;
  dispatched : list Extraction;
  windowsStarted : list Z;
  errorsReported : list (Z * string)
}.

(** [startValidation(citation)]: the hand-off of the citation. *)
Definition startValidation (citation : Extraction) (r : Run) : Run :=
  mkRun (state r) (extractionIndex r) (pendingIncompleteEnd r)
        (dispatched r ++ [citation]) (windowsStarted r) (errorsReported r).

(** [for (const pending of pendingIncompleteEnd) startValidation(pending)]. *)
Definition flushPending (r : Run) : Run :=
  fold_left (fun r pending => startValidation pending r)
    (pendingIncompleteEnd r) r.

Definition set_pending (p : list Extraction) (r : Run) : Run :=
  mkRun (state r) (extractionIndex r) p (dispatched r) (windowsStarted r)
        (errorsReported r).

Definition set_extractionIndex (n : Z) (r : Run) : Run :=
  mkRun (state r) n (pendingIncompleteEnd r) (dispatched r) (windowsStarted r)
        (errorsReported r).

(** The loop of [findMatchingPendingEnd]: the first index, from [i] on, of a
    pending extraction that overlaps [startExtraction]. *)
Fixpoint findOverlap (pending : list Extraction) (startExtraction : Extraction)
    (i : Z) : Z :=
  match pending with
  | [] => -1
  | p :: rest =>
      if extractionsOverlap p startExtraction then i
      else findOverlap rest startExtraction (i + 1)
  end.

(** [findMatchingPendingEnd(startExtraction)]. *)
Definition findMatchingPendingEnd (pending : list Extraction)
    (startExtraction : Extraction) : Z :=
  if notIncomplete startExtraction || negb (positionIs startExtraction "start")
  then -1
  else findOverlap pending startExtraction 0.

(** [arr.splice(k, 1)], the array afterwards. *)
Definition splice1 {A} (l : list A) (k : Z) : list A :=
  firstn (Z.to_nat k) l ++ skipn (S (Z.to_nat k)) l.

(** The loop of case 3, from the last pending extraction down to the first:
    the first one met that [processed] supersedes is removed.  [revPending] is
    the pending list reversed. *)
Fixpoint dropSuperseded (revPending : list Extraction) (processed : Extraction)
    : list Extraction :=
  match revPending with
  | [] => []
  | p :: rest =>
      if completeSupersedes p processed then rest
      else p :: dropSuperseded rest processed
  end.

(** The body of the loop over the citations of a window; the result is the
    run and [newIncompleteEnd]. *)
Definition processCitation (windowNumber : Z) (isLastWindow : bool)
    (citation : Extraction) (r : Run) (newIncompleteEnd : list Extraction)
    : Run * list Extraction :=
  let processed := processExtraction citation (extractionIndex r) windowNumber in
  let isStart := negb (notIncomplete processed) && positionIs processed "start" in
  let matchIndex :=
    if isStart then findMatchingPendingEnd (pendingIncompleteEnd r) processed
    else -1 in
  if isStart && (matchIndex >=? 0) then
    (* Case 1: merge with the pending "end" extraction and finalize *)
    match nth_error (pendingIncompleteEnd r) (Z.to_nat matchIndex) with
    | Some endExtraction =>
        let merged := mergeExtractions endExtraction processed in
        let r := set_pending (splice1 (pendingIncompleteEnd r) matchIndex) r in
        (startValidation merged r, newIncompleteEnd)
    | None => (r, newIncompleteEnd)
    end
  else if negb (notIncomplete processed) && positionIs processed "end"
          && negb isLastWindow then
    (* Case 2: hold for next window *)
    let processed := set_id (Some (extractionId (extractionIndex r))) processed in
    let processed := set_index (Some (extractionIndex r)) processed in
    (set_extractionIndex (extractionIndex r + 1) r,
     newIncompleteEnd ++ [processed])
  else
    (* Case 3: a complete extraction may supersede one pending "end" *)
    let r :=
      if notIncomplete processed
      then set_pending
             (rev (dropSuperseded (rev (pendingIncompleteEnd r)) processed)) r
      else r in
    (* Case 4: validate immediately *)
    let processed := set_id (Some (extractionId (extractionIndex r))) processed in
    let processed := set_index (Some (extractionIndex r)) processed in
    let r := startValidation processed r in
    (set_extractionIndex (extractionIndex r + 1) r, newIncompleteEnd).

(** The loop over the citations of a window. *)
Fixpoint processCitations (windowNumber : Z) (isLastWindow : bool)
    (citations : list Extraction) (r : Run)
    (newIncompleteEnd : list Extraction) : Run * list Extraction :=
  match citations with
  | [] => (r, newIncompleteEnd)
  | citation :: rest =>
      let (r, newIncompleteEnd) :=
        processCitation windowNumber isLastWindow citation r newIncompleteEnd in
      processCitations windowNumber isLastWindow rest r newIncompleteEnd
  end.

(** One iteration of the loop over the windows, after the test of
    [state.shouldCancel] at its top; [i] is the index of the window. *)
Definition processWindow (i totalWindows : Z) (ev : WindowEvent) (r : Run)
    : Run :=
  let isLastWindow := i =? totalWindows - 1 in
  let r := mkRun (state r) (extractionIndex r) (pendingIncompleteEnd r)
                 (dispatched r) (windowsStarted r ++ [i]) (errorsReported r) in
  match outcome ev with
  | Failed message =>
      (* Finalize all pending on error *)
      let r := flushPending r in
      let r := set_pending [] r in
      let errorExtraction :=
        createErrorExtraction (extractionIndex r) (i + 1) message in
      let r := mkRun (addExtraction (state r) errorExtraction)
                     (extractionIndex r) (pendingIncompleteEnd r)
                     (dispatched r) (windowsStarted r)
                     (errorsReported r ++ [(i + 1, message)]) in
      set_extractionIndex (extractionIndex r + 1) r
  | Extracted citations =>
      let (r, newIncompleteEnd) :=
        if cancelAfterCall ev then (r, [])
        else processCitations (i + 1) isLastWindow citations r [] in
      (* Finalize any pending "end" extractions that weren't matched *)
      let r := flushPending r in
      set_pending newIncompleteEnd r
  end.

(** The loop over the windows, from index [i] on. *)
Fixpoint processWindows (events : list WindowEvent) (i totalWindows : Z)
    (r : Run) : Run :=
  match events with
  | [] => r
  | ev :: rest =>
      if cancelAtTop ev then r
      else processWindows rest (i + 1) totalWindows
             (processWindow i totalWindows ev r)
  end.

Definition initialRun (st : State) : Run := mkRun st 0 [] [] [] [].

(** [processAllWindows], up to the point where it awaits the validations it
    has dispatched: the loop over the windows, then the extractions still
    pending, unless the run is cancelled ([cancelAtEnd]). *)
Definition processAllWindows (st : State) (events : list WindowEvent)
    (cancelAtEnd : bool) : Run :=
  let r := processWindows events 0 (Z.of_nat (List.length events))
             (initialRun st) in
  if negb cancelAtEnd then flushPending r else r.


(** ** validation.js *)

(** [FIELD_WEIGHTS] (the weight [doi] is not read by [computeMatchScore]). *)
Definition FIELD_WEIGHTS (f : Field) : Q :=
  match f with
  | Ftitle => 10
  | Fauthors => 8
  | Fyear => 6
  | Fjournal => 5 # 10
  | Fvolume => 2 # 10
  | Fpages => 2 # 10
  end.

(** [THRESHOLDS]. *)
Definition THRESHOLDS_valid : Q := 90 # 100.
Definition THRESHOLDS_suspicious : Q := 70 # 100.

(** The common format of the three [normalize] functions.  [n_year] is [None]
    for [null] and for [NaN]. *)
Record NormAuthor := mkNormAuthor {
  n_family : string;
  n_given : string
}.

Record NormRecord := mkNormRecord {
  n_title : string;
  n_authors : list NormAuthor;
  n_year : option Z;
  n_journal : string;
  n_volume : scalar;
  n_pages : scalar;
  n_doi : string
}.

(** [v || ''] on an optional scalar. *)
Definition orEmptyV (v : option scalar) : scalar :=
  if truthy v then match v with Some x => x | None => Str "" end else Str "".

(** [arr?.[0]] of an optional array. *)
Definition elem0 {A} (v : option (list A)) : option A :=
  match v with
  | Some (x :: _) => Some x
  | _ => None
  end.

(** [x || null] on an optional number. *)
Definition orNull (v : option Z) : option Z :=
  match v with
  | Some n => if n =? 0 then None else Some n
  | None => None
  end.

(** [a || b] on two optional numbers. *)
Definition orElse (a b : option Z) : option Z :=
  match orNull a with
  | Some n => Some n
  | None => b
  end.

(** [str.split(sep)] for a separator of one character. *)
Fixpoint splitOn_from (sep : ascii) (l cur : list ascii) : list string :=
  match l with
  | [] => [string_of_list_ascii (rev cur)]
  | c :: r =>
      if Ascii.eqb c sep
      then string_of_list_ascii (rev cur) :: splitOn_from sep r []
      else splitOn_from sep r (c :: cur)
  end.

Definition splitOn (sep : ascii) (s : string) : list string :=
  splitOn_from sep (list_ascii_of_string s) [].

(** [str.replace(pattern, '')] for a string [pattern]: the first occurrence
    is removed. *)
Fixpoint removeFirst (pattern s : string) : string :=
  if prefix pattern s
  then substring (String.length pattern) (String.length s) s
  else
    match s with
    | EmptyString => EmptyString
    | String c r => String c (removeFirst pattern r)
    end.

(** [normalizeCrossRef(result)] for a result that is not null. *)
Definition normalizeCrossRef (result : CrossRefWork) : NormRecord :=
  mkNormRecord
    (orEmpty (elem0 (cr_title result)))
    (map (fun a => mkNormAuthor (orEmpty (family a)) (orEmpty (given a)))
       (match cr_author result with Some l => l | None => [] end))
    (orNull (orElse (elem0 (elem0 (cr_published_print result)))
                    (elem0 (elem0 (cr_issued result)))))
    (orEmpty (elem0 (cr_container_title result)))
    (Str (orEmpty (cr_volume result)))
    (Str (orEmpty (cr_page result)))
    (orEmpty (cr_DOI result)).

(** [normalizeOpenAlex(result)] for a result that is not null. *)
Definition normalizeOpenAlex (result : OpenAlexWork) : NormRecord :=
  let firstPage := orEmpty (oa_first_page result) in
  let lastPage := orEmpty (oa_last_page result) in
  let pages :=
    if truthyStr firstPage && truthyStr lastPage
    then String.append firstPage (String "-" lastPage)
    else firstPage in
  mkNormRecord
    (orEmpty (oa_title result))
    (map (fun display_name =>
            mkNormAuthor
              (orEmpty (option_map (fun n => last (splitOn " " n) "")
                          display_name))
              (orEmpty (option_map
                          (fun n => String.concat " " (removelast (splitOn " " n)))
                          display_name)))
       (match oa_authorships result with Some l => l | None => [] end))
    (orNull (oa_publication_year result))
    (orEmpty (oa_source_display_name result))
    (Str (orEmpty (oa_volume result)))
    (Str pages)
    (orEmpty (option_map (removeFirst "https://doi.org/") (oa_doi result))).

(** The value of a decimal digit. *)
Definition digit (c : ascii) : option Z :=
  let n := code c in
  if (48 <=? n) && (n <=? 57) then Some (n - 48) else None.

Definition isDigit (c : ascii) : bool :=
  match digit c with Some _ => true | None => false end.

(** The longest prefix of digits read as a decimal number, after the digits
    of [acc]; [None] when no digit was read. *)
Fixpoint parseDigits (l : list ascii) (acc : option Z) : option Z :=
  match l with
  | [] => acc
  | c :: r =>
      match digit c with
      | Some d =>
          parseDigits r
            (Some (10 * match acc with Some a => a | None => 0 end + d))
      | None => acc
      end
  end.

(** [parseInt(str, 10)]; [None] is [NaN]. *)
Definition parseIntStr (s : string) : option Z :=
  match trimStartL (list_ascii_of_string s) with
  | c :: r =>
      if Ascii.eqb c "-" then option_map Z.opp (parseDigits r None)
      else if Ascii.eqb c "+" then parseDigits r None
      else parseDigits (c :: r) None
  | [] => None
  end.

(** [parseInt(v, 10)] of a scalar: a number is first made a string. *)
Definition parseInt (v : scalar) : option Z :=
  parseIntStr (String_of v).

(** [normalizeExtracted(citation)].  The citation has the properties of
    [Extraction]: [authors] is absent or an array of objects, and the
    properties [journal], [page], [lastName] and [firstName] that the code
    falls back to are absent. *)
Definition normalizeExtracted (citation : Extraction) : NormRecord :=
  mkNormRecord
    (orEmpty (title citation))
    (match authors citation with
     | Some l =>
         map (fun a => mkNormAuthor (orEmpty (family a)) (orEmpty (given a))) l
     | None => []
     end)
    (if truthy (year citation)
     then match year citation with Some y => parseInt y | None => None end
     else None)
    (orEmpty (container_title citation))
    (orEmptyV (volume citation))
    (orEmptyV (pages citation))
    (orEmpty (doi citation)).

(** [compareAuthors(extracted, validated)]. *)
Definition compareAuthors (extracted validated : list NormAuthor) : Q :=
  match extracted, validated with
  | e0 :: _, v0 :: _ =>
      let ext1 := toLowerCase (n_family e0) in
      let val1 := toLowerCase (n_family v0) in
      if negb (truthyStr ext1) || negb (truthyStr val1) then 0%Q
      else
        let firstAuthorSim := stringSimilarity ext1 val1 in
        if (Z.of_nat (List.length extracted) >? 1)
           && (Z.of_nat (List.length validated) >? 1) then
          let extLast := toLowerCase (n_family (last extracted e0)) in
          let valLast := toLowerCase (n_family (last validated v0)) in
          let lastAuthorSim := stringSimilarity extLast valLast in
          (firstAuthorSim * (7 # 10) + lastAuthorSim * (3 # 10))%Q
        else firstAuthorSim
  | _, _ => 0%Q
  end.

(** The longest prefix of digits, and what follows it. *)
Fixpoint takeDigits (l : list ascii) : list ascii * list ascii :=
  match l with
  | c :: r =>
      if isDigit c then let (d, rest) := takeDigits r in (c :: d, rest)
      else ([], l)
  | [] => ([], [])
  end.

(** [str.match(/(\d+)[-–](\d+)/)]: the two groups of the leftmost
    match.  Of the two dashes of the class, the hyphen is the one that is a
    Latin-1 code unit. *)
Fixpoint matchPageRange (l : list ascii) : option (string * string) :=
  match l with
  | [] => None
  | c :: r =>
      let (d1, rest) := takeDigits l in
      match d1, rest with
      | _ :: _, dash :: rest' =>
          if Ascii.eqb dash "-" then
            match takeDigits rest' with
            | (d2h :: d2t, _) =>
                Some (string_of_list_ascii d1, string_of_list_ascii (d2h :: d2t))
            | _ => matchPageRange r
            end
          else matchPageRange r
      | _, _ => matchPageRange r
      end
  end.

Definition orZero (v : option Z) : Z :=
  match v with Some n => n | None => 0 end.

(** The [normalize] function of [comparePages]. *)
Definition normalizePages (p : scalar) : string :=
  match matchPageRange (list_ascii_of_string (String_of p)) with
  | Some (m1, m2) =>
      let start := orZero (parseIntStr m1) in
      let end_ := orZero (parseIntStr m2) in
      let end_ :=
        if end_ <? start then
          let startStr := String_of (Num start) in
          let endStr := String_of (Num end_) in
          orZero (parseIntStr
                    (String.append (slice startStr 0 (- len endStr)) endStr))
        else end_ in
      String.append (String_of (Num start))
        (String "-" (String_of (Num end_)))
  | None => trim (String_of p)
  end.

(** [comparePages(pages1, pages2)]. *)
Definition comparePages (pages1 pages2 : scalar) : Q :=
  if negb (truthy (Some pages1)) || negb (truthy (Some pages2)) then 0%Q
  else if String.eqb (normalizePages pages1) (normalizePages pages2)
  then 1%Q else 0%Q.

(** The accumulators of [computeMatchScore]. *)
Record ScoreAcc := mkScoreAcc {
  fieldScores : list (Field * Q);
  totalWeight : Q;
  weightedSum : Q
}.

(** One of the six blocks of [computeMatchScore]: when both sides have the
    field, its score is recorded and weighed in. *)
Definition compareField (f : Field) (bothPresent : bool) (score : Q)
    (a : ScoreAcc) : ScoreAcc :=
  if bothPresent then
    mkScoreAcc (fieldScores a ++ [(f, score)])
               (totalWeight a + FIELD_WEIGHTS f)%Q
               (weightedSum a + score * FIELD_WEIGHTS f)%Q
  else a.

(** Truthiness of a year of the common format. *)
Definition truthyYear (y : option Z) : bool :=
  match y with
  | Some n => negb (n =? 0)
  | None => false
  end.

(** The six blocks applied to two records of the common format. *)
Definition accumulateScores (extNorm valNorm : NormRecord) : ScoreAcc :=
  let a := mkScoreAcc [] 0 0 in
  let a :=
    compareField Ftitle
      (truthyStr (n_title extNorm) && truthyStr (n_title valNorm))
      (stringSimilarity (toLowerCase (n_title extNorm))
         (toLowerCase (n_title valNorm))) a in
  let a :=
    compareField Fauthors
      (negb (Z.of_nat (List.length (n_authors extNorm)) =? 0)
       && negb (Z.of_nat (List.length (n_authors valNorm)) =? 0))
      (compareAuthors (n_authors extNorm) (n_authors valNorm)) a in
  let a :=
    compareField Fyear
      (truthyYear (n_year extNorm) && truthyYear (n_year valNorm))
      (if orZero (n_year extNorm) =? orZero (n_year valNorm) then 1 else 0)%Q
      a in
  let a :=
    compareField Fjournal
      (truthyStr (n_journal extNorm) && truthyStr (n_journal valNorm))
      (stringSimilarity (toLowerCase (n_journal extNorm))
         (toLowerCase (n_journal valNorm))) a in
  let a :=
    compareField Fvolume
      (truthy (Some (n_volume extNorm)) && truthy (Some (n_volume valNorm)))
      (if String.eqb (String_of (n_volume extNorm))
            (String_of (n_volume valNorm)) then 1 else 0)%Q a in
  compareField Fpages
    (truthy (Some (n_pages extNorm)) && truthy (Some (n_pages valNorm)))
    (comparePages (n_pages extNorm) (n_pages valNorm)) a.

(** The result object built from the accumulators. *)
Definition scoreOf (a : ScoreAcc) : MatchScore :=
  let overallScore :=
    if Qltb 0 (totalWeight a) then (weightedSum a / totalWeight a)%Q
    else 0%Q in
  mkMatchScore overallScore (fieldScores a)
    (Z.of_nat (List.length (fieldScores a))).

(** [computeMatchScore(extracted, validated)]. *)
Definition computeMatchScore (extracted : Extraction) (validated : NormRecord)
    : MatchScore :=
  let extNorm := normalizeExtracted extracted in
  let valNorm := validated in
  scoreOf (accumulateScores extNorm valNorm).

(** [Math.round(x)]. *)
Definition Math_round (x : Q) : Z := Qfloor (x + (1 # 2)).

(** The text [`${Math.round(matchScore.overall * 100)}% match`]. *)
Definition percentMatch (m : MatchScore) : string :=
  String.append (String_of (Num (Math_round (overall m * 100)))) "% match".

(** [getValidationStatus(matchScore, lookupMethod)]. *)
Definition getValidationStatus (m : MatchScore) (lookupMethod : string)
    : Status * string :=
  if Qle_bool THRESHOLDS_valid (overall m) then
    (valid,
     String.append lookupMethod
       (String.append " (" (String.append (percentMatch m) ")")))
  else if Qle_bool THRESHOLDS_suspicious (overall m) then
    (suspicious,
     String.append lookupMethod
       (String.append " - possible mismatch ("
          (String.append (percentMatch m) ")")))
  else
    (mismatch,
     String.append lookupMethod
       (String.append " - content mismatch ("
          (String.append (percentMatch m) ")"))).


(** *** validateCitation *)

(** What an awaited lookup gives: a record, [null], or a rejection. *)
Inductive Reply (A : Type) :=
  | Found (a : A)
  | NotFound
  | Rejected.

Arguments Found {A} a.
Arguments NotFound {A}.
Arguments Rejected {A}.

(** The four lookups of crossref.js and openalex.js; the second argument is
    [userEmail]. *)
Record Services := mkServices {
  crossref_lookupDOI : string -> string -> Reply CrossRefWork;
  openalex_lookupDOI : string -> string -> Reply OpenAlexWork;
  openalex_lookupPMID : scalar -> string -> Reply OpenAlexWork;
  crossref_searchBibliographic : string -> string -> Reply (list CrossRefWork)
}.

(** How a block of statements ends: it runs through, it executes [return],
    or it throws. *)
Inductive Signal := Continue | Return | Throw.

(** A block of statements that updates the citation. *)
Definition Block := Extraction -> Extraction * Signal.

(** [a; b]. *)
Definition andThen (a b : Block) : Block :=
  fun citation =>
    let (citation, s) := a citation in
    match s with
    | Continue => b citation
    | _ => (citation, s)
    end.

(** [try { body } catch (e) { }]. *)
Definition tryCatch (body : Block) : Block :=
  fun citation =>
    let (citation, s) := body citation in
    match s with
    | Throw => (citation, Continue)
    | _ => (citation, s)
    end.

(** [await promise] inside a block: a rejection throws. *)
Definition await {A} (r : Reply A) (k : option A -> Block) : Block :=
  match r with
  | Found a => k (Some a)
  | NotFound => k None
  | Rejected => fun citation => (citation, Throw)
  end.

(** [promise.catch(() => null)]. *)
Definition catchNull {A} (r : Reply A) : Reply A :=
  match r with
  | Rejected => NotFound
  | _ => r
  end.

(** Assignments to the properties of [citation.validation]. *)
Definition bag (citation : Extraction) : Validation :=
  match validation citation with
  | Some v => v
  | None => mkValidation None None None
  end.

Definition set_v_crossref (w : CrossRefWork) (citation : Extraction) : Extraction :=
  set_validation
    (Some (mkValidation (Some w) (openalex (bag citation))
             (matchScore (bag citation)))) citation.

Definition set_v_openalex (w : OpenAlexWork) (citation : Extraction) : Extraction :=
  set_validation
    (Some (mkValidation (crossref (bag citation)) (Some w)
             (matchScore (bag citation)))) citation.

Definition set_v_matchScore (m : MatchScore) (citation : Extraction) : Extraction :=
  set_validation
    (Some (mkValidation (crossref (bag citation)) (openalex (bag citation))
             (Some m))) citation.

(** The four statements that score a normalised record and set the status
    and the message. *)
Definition scoreAndSetStatus (normalized : NormRecord) (lookupMethod : string)
    (citation : Extraction) : Extraction :=
  let matchScore := computeMatchScore citation normalized in
  let citation := set_v_matchScore matchScore citation in
  let (status, message) := getValidationStatus matchScore lookupMethod in
  let citation := set_validationStatus (Some status) citation in
  set_validationMessage (Some message) citation.

(** [buildBibliographicQuery(citation)]. *)
Definition buildBibliographicQuery (citation : Extraction) : string :=
  let parts := [] in
  let parts :=
    match authors citation with
    | Some (firstAuthor :: _) =>
        if truthyS (family firstAuthor)
        then parts ++ [orEmpty (family firstAuthor)] else parts
    | _ => parts
    end in
  let parts :=
    match year citation with
    | Some y => if truthy (Some y) then parts ++ [String_of y] else parts
    | None => parts
    end in
  let parts :=
    match title citation with
    | Some t =>
        if truthyStr t
        then parts ++ [String.concat " " (firstn 5 (splitWhiteSpace t))]
        else parts
    | None => parts
    end in
  let parts :=
    match container_title citation with
    | Some c => if truthyStr c then parts ++ [c] else parts
    | None => parts
    end in
  String.concat " " parts.

(** The loop of [findBestMatch]; the state is [bestMatch] with [bestScore]. *)
Fixpoint findBestMatch_loop (citation : Extraction) (results : list CrossRefWork)
    (best : option (CrossRefWork * MatchScore))
    : option (CrossRefWork * MatchScore) :=
  match results with
  | [] => best
  | result :: rest =>
      let normalized := normalizeCrossRef result in
      let matchScore := computeMatchScore citation normalized in
      let best :=
        match best with
        | None => Some (result, matchScore)
        | Some (_, bestScore) =>
            if Qltb (overall bestScore) (overall matchScore)
            then Some (result, matchScore) else best
        end in
      findBestMatch_loop citation rest best
  end.

(** [findBestMatch(citation, results)]. *)
Definition findBestMatch (citation : Extraction) (results : list CrossRefWork)
    : option (CrossRefWork * MatchScore) :=
  findBestMatch_loop citation results None.

(** Step 1 of [validateCitation]: the DOI, in CrossRef and in OpenAlex. *)
Definition lookupByDOI (S : Services) (userEmail : string) : Block :=
  fun citation =>
    match doi citation with
    | Some d =>
        if truthyStr d then
          tryCatch
            (await (catchNull (crossref_lookupDOI S d userEmail))
               (fun crossRefResult =>
                await (catchNull (openalex_lookupDOI S d userEmail))
                  (fun openAlexResult citation =>
                   match crossRefResult with
                   | Some cr =>
                       let citation := set_v_crossref cr citation in
                       let citation :=
                         scoreAndSetStatus (normalizeCrossRef cr)
                           "DOI verified via CrossRef" citation in
                       let citation :=
                         match openAlexResult with
                         | Some oa => set_v_openalex oa citation
                         | None => citation
                         end in
                       (citation, Return)
                   | None =>
                       match openAlexResult with
                       | Some oa =>
                           let citation := set_v_openalex oa citation in
                           (scoreAndSetStatus (normalizeOpenAlex oa)
                              "DOI verified via OpenAlex" citation, Return)
                       | None => (citation, Continue)
                       end
                   end)))
            citation
        else (citation, Continue)
    | None => (citation, Continue)
    end.

(** Step 2: the PMID, in OpenAlex. *)
Definition lookupByPMID (S : Services) (userEmail : string) : Block :=
  fun citation =>
    match pmid citation with
    | Some p =>
        if truthy (Some p) then
          tryCatch
            (await (openalex_lookupPMID S p userEmail)
               (fun openAlexResult citation =>
                match openAlexResult with
                | Some oa =>
                    let citation := set_v_openalex oa citation in
                    (scoreAndSetStatus (normalizeOpenAlex oa)
                       "PMID verified via OpenAlex" citation, Return)
                | None => (citation, Continue)
                end))
            citation
        else (citation, Continue)
    | None => (citation, Continue)
    end.

(** Step 3: the bibliographic query, in CrossRef. *)
Definition searchByQuery (S : Services) (userEmail : string) : Block :=
  fun citation =>
    if truthyS (query_bibliographic citation) || truthyS (raw_text citation)
    then
      tryCatch
        (fun citation =>
           let query :=
             if truthyS (query_bibliographic citation)
             then orEmpty (query_bibliographic citation)
             else buildBibliographicQuery citation in
           await (crossref_searchBibliographic S query userEmail)
             (fun crossRefResults citation =>
              match crossRefResults with
              | Some (r :: rs) =>
                  match findBestMatch citation (r :: rs) with
                  | Some (result, score) =>
                      let citation := set_v_crossref result citation in
                      let citation := set_v_matchScore score citation in
                      let (status, message) :=
                        getValidationStatus score
                          "Matched via bibliographic search" in
                      let citation :=
                        set_validationStatus (Some status) citation in
                      (set_validationMessage (Some message) citation, Return)
                  | None => (citation, Continue)
                  end
              | _ => (citation, Continue)
              end) citation)
        citation
    else (citation, Continue).

(** The last two statements: no validation found. *)
Definition markInvalid : Block :=
  fun citation =>
    (set_validationMessage (Some "Could not verify citation")
       (set_validationStatus (Some invalid) citation), Continue).

(** [validateCitation(citation, userEmail)]: the citation afterwards, and how
    the call ended. *)
Definition validateCitation (S : Services) (citation : Extraction)
    (userEmail : string) : Extraction * Signal :=
  andThen (fun citation =>
         (set_validation (Some (mkValidation None None None)) citation,
          Continue))
    (andThen (lookupByDOI S userEmail)
       (andThen (lookupByPMID S userEmail)
          (andThen (searchByQuery S userEmail) markInvalid)))
    citation.

(** ** rate-limiter.js *)

(** A limit of the limiter: a number or [Infinity]. *)
Inductive Limit :=
  | Finite (n : Z)
  | Infinity.

(** [options.limit || Infinity]. *)
Definition limitOf (option_ : option Z) : Limit :=
  match option_ with
  | Some n => if n =? 0 then Infinity else Finite n
  | None => Infinity
  end.

(** [n < limit] and [n >= limit]. *)
Definition below (n : Z) (l : Limit) : bool :=
  match l with
  | Finite m => n <? m
  | Infinity => true
  end.

Definition reached (n : Z) (l : Limit) : bool :=
  match l with
  | Finite m => n >=? m
  | Infinity => false
  end.

(** A queued entry [{task, resolve, reject}], known by a number. *)
Definition Task := nat.

(** A record of one call of [_executeTask]: the task, whether it came from
    the queue, and what [_canProceed] compared just before: the number of
    requests in flight and the number of timestamps of the last minute. *)
Record Admission := mkAdmission {
  a_task : Task;
  a_fromQueue : bool;
  a_active : Z;
  a_recent : Z
}.

(** The limiter.  [tick] counts the calls of [Date.now()] so far.  The last
    three fields are not in the code: [admitted] lists the calls of
    [_executeTask], [enqueued] the tasks pushed on the queue and [timers] the
    calls of [setTimeout], each as the clock reading and the delay. *)
Record RateLimiter := mkRateLimiter {
  maxConcurrent : Limit;
  requestsPerMinute : Limit;
  activeRequests : Z;
  requestTimestamps : list Z;
  queue : list Task;
  tick : nat;
  admitted : list Admission;
  enqueued : list Task;
  timers : list (Z * Z)
}.

(** [new RateLimiter(options)]. *)
Definition newRateLimiter (maxConcurrent requestsPerMinute : option Z)
    : RateLimiter :=
  mkRateLimiter (limitOf maxConcurrent) (limitOf requestsPerMinute)
    0 [] [] 0%nat [] [] [].

(** [createValidationRateLimiter(requestsPerMinute)]. *)
Definition createValidationRateLimiter (requestsPerMinute : Z) : RateLimiter :=
  newRateLimiter (Some 10) (Some requestsPerMinute).

(** What the environment does to a limiter: a caller schedules a task, a
    running task settles, a timer armed by [schedule] fires. *)
Inductive Event :=
  | Schedule (t : Task)
  | Settle
  | TimerFires.

Section Clock.

(** The successive readings of the clock: [clock k] is what the call number
    [k] of [Date.now()] returns. *)
Variable clock : nat -> Z.

(** [Date.now()]. *)
Definition Date_now (l : RateLimiter) : Z * RateLimiter :=
  (clock (tick l),
   mkRateLimiter (maxConcurrent l) (requestsPerMinute l) (activeRequests l)
     (requestTimestamps l) (queue l) (S (tick l)) (admitted l) (enqueued l)
     (timers l)).

Definition set_requestTimestamps (ts : list Z) (l : RateLimiter) : RateLimiter :=
  mkRateLimiter (maxConcurrent l) (requestsPerMinute l) (activeRequests l)
    ts (queue l) (tick l) (admitted l) (enqueued l) (timers l).

(** [_cleanTimestamps()]. *)
Definition _cleanTimestamps (l : RateLimiter) : RateLimiter :=
  let (now, l) := Date_now l in
  let oneMinuteAgo := now - 60000 in
  set_requestTimestamps
    (filter (fun ts => ts >? oneMinuteAgo) (requestTimestamps l)) l.

(** [_canProceed()]. *)
Definition _canProceed (l : RateLimiter) : bool * RateLimiter :=
  let l := _cleanTimestamps l in
  let concurrencyOk := below (activeRequests l) (maxConcurrent l) in
  let rateOk :=
    below (Z.of_nat (List.length (requestTimestamps l))) (requestsPerMinute l) in
  (concurrencyOk && rateOk, l).

(** [_getDelayMs()]; the delay is 0 too when it is not a number (there is no
    oldest timestamp). *)
Definition _getDelayMs (l : RateLimiter) : Z * RateLimiter :=
  let l := _cleanTimestamps l in
  if reached (Z.of_nat (List.length (requestTimestamps l))) (requestsPerMinute l)
  then
    match requestTimestamps l with
    | oldestTimestamp :: _ =>
        let (now, l) := Date_now l in
        let delayNeeded := (oldestTimestamp + 60000) - now in
        (Z.max 0 (delayNeeded + 10), l)
    | [] => let (_, l) := Date_now l in (0, l)
    end
  else (0, l).

(** [_executeTask(task, resolve, reject)], up to the call of the task; its
    [finally] block runs at the event [Settle]. *)
Definition _executeTask (task : Task) (fromQueue : bool) (l : RateLimiter)
    : RateLimiter :=
  let entry :=
    mkAdmission task fromQueue (activeRequests l)
      (Z.of_nat (List.length (requestTimestamps l))) in
  let (now, l) := Date_now l in
  mkRateLimiter (maxConcurrent l) (requestsPerMinute l) (activeRequests l + 1)
    (requestTimestamps l ++ [now]) (queue l) (tick l)
    (admitted l ++ [entry]) (enqueued l) (timers l).

(** The loop of [_processQueue]; [fuel] bounds the number of iterations by
    the length of the queue, which every iteration shortens. *)
Fixpoint _processQueue_loop (fuel : nat) (l : RateLimiter) : RateLimiter :=
  match fuel with
  | O => l
  | S fuel' =>
      match queue l with
      | [] => l
      | task :: rest =>
          let (ok, l) := _canProceed l in
          if ok then
            let l :=
              mkRateLimiter (maxConcurrent l) (requestsPerMinute l)
                (activeRequests l) (requestTimestamps l) rest (tick l)
                (admitted l) (enqueued l) (timers l) in
            _processQueue_loop fuel' (_executeTask task true l)
          else l
      end
  end.

(** [_processQueue()]. *)
Definition _processQueue (l : RateLimiter) : RateLimiter :=
  _processQueue_loop (S (List.length (queue l))) l.

(** [schedule(task)]. *)
Definition schedule (task : Task) (l : RateLimiter) : RateLimiter :=
  let (ok, l) := _canProceed l in
  if ok then _executeTask task false l
  else
    let l :=
      mkRateLimiter (maxConcurrent l) (requestsPerMinute l) (activeRequests l)
        (requestTimestamps l) (queue l ++ [task]) (tick l) (admitted l)
        (enqueued l ++ [task]) (timers l) in
    let (delay, l) := _getDelayMs l in
    if delay >? 0 then
      mkRateLimiter (maxConcurrent l) (requestsPerMinute l) (activeRequests l)
        (requestTimestamps l) (queue l) (tick l) (admitted l) (enqueued l)
        (timers l ++ [(clock (Nat.pred (tick l)), delay)])
    else l.

(** The [finally] block of [_executeTask]. *)
Definition settle (l : RateLimiter) : RateLimiter :=
  _processQueue
    (mkRateLimiter (maxConcurrent l) (requestsPerMinute l)
       (activeRequests l - 1) (requestTimestamps l) (queue l) (tick l)
       (admitted l) (enqueued l) (timers l)).

(** One event. *)
Definition step (l : RateLimiter) (e : Event) : RateLimiter :=
  match e with
  | Schedule t => schedule t l
  | Settle => settle l
  | TimerFires => _processQueue l
  end.

(** A sequence of events. *)
Definition run (events : list Event) (l : RateLimiter) : RateLimiter :=
  fold_left step events l.

End Clock.

(** The tasks that left the queue, in the order in which they were started. *)
Definition startedFromQueue (l : RateLimiter) : list Task :=
  map a_task (filter a_fromQueue (admitted l)).

(** The tasks started by [schedule] itself. *)
Definition startedAtOnce (l : RateLimiter) : list Task :=
  map a_task (filter (fun a => negb (a_fromQueue a)) (admitted l)).

(** An admission that [_canProceed] allows. *)
Definition allowed (l : RateLimiter) (a : Admission) : Prop :=
  below (a_active a) (maxConcurrent l) = true /\
  below (a_recent a) (requestsPerMinute l) = true.


(** ** Vocabulary of the statements *)

(** Both extractions carry a DOI, and the two differ, case-insensitively. *)
Definition distinctDOIs (e1 e2 : Extraction) : Prop :=
  exists d1 d2,
    doi e1 = Some d1 /\ doi e2 = Some d2 /\ d1 <> "" /\ d2 <> "" /\
    toLowerCase d1 <> toLowerCase d2.

(** No identifier matches: neither DOI, nor PMID, nor ISBN. *)
Definition noIdentifierMatch (e1 e2 : Extraction) : Prop :=
  doiMatch e1 e2 = false /\ pmidMatch e1 e2 = false /\ isbnMatch e1 e2 = false.

(** The rule for a pair without matching identifier, with the measure
    [similarity] of two normalised titles: both titles are present and at
    least 0.8 similar, the first-author family names are present and equal,
    and the years are equal when both are present. *)
Definition titleRule (similarity : string -> string -> Q) (e1 e2 : Extraction)
    : Prop :=
  (exists t1 t2,
     title e1 = Some t1 /\ title e2 = Some t2 /\ t1 <> "" /\ t2 <> "" /\
     (8 # 10 <= similarity (trim (toLowerCase t1)) (trim (toLowerCase t2)))%Q) /\
  (exists a,
     hasAuthors e1 = true /\ hasAuthors e2 = true /\
     firstAuthorFamily e1 = Some a /\ firstAuthorFamily e2 = Some a /\
     a <> "") /\
  (forall y1 y2,
     year e1 = Some y1 -> year e2 = Some y2 ->
     truthy (Some y1) = true -> truthy (Some y2) = true ->
     String_of y1 = String_of y2).

(** Two extractions of one paper from overlapping windows, with DOIs that
    differ, and a third with another title. *)
Definition smith : Author := mkAuthor (Some "Smith") (Some "J").

Definition paperA : Extraction :=
  set_validationStatus (Some valid)
    (processExtraction
       (set_authors (Some [smith])
          (set_title (Some "Deep learning in practice")
             (set_doi (Some "10.1000/a") emptyExtraction))) 0 1).

Definition paperB : Extraction :=
  set_validationStatus (Some valid)
    (processExtraction
       (set_authors (Some [smith])
          (set_title (Some "Deep learning in practice")
             (set_doi (Some "10.1000/b") emptyExtraction))) 1 2).

(** Two extractions without identifier whose titles differ in their last
    letter only. *)
Definition draftA : Extraction :=
  processExtraction
    (set_authors (Some [smith])
       (set_title (Some "Superconductivity") emptyExtraction)) 0 1.

Definition draftB : Extraction :=
  processExtraction
    (set_authors (Some [smith])
       (set_title (Some "Superconductivit") emptyExtraction)) 1 2.


(** The two extractions of Scenario B. *)
Definition scenarioB_end : Extraction :=
  set_raw_text (Some "Smith J. Intro to")
    (set_doi (Some "10.1/x")
       (set_reason (Some "cut at window end")
          (set_position (Some "end")
             (set_complete (Some false) emptyExtraction)))).

Definition scenarioB_start : Extraction :=
  set_raw_text (Some "Foo. Nature 2020")
    (set_doi (Some "10.1/x")
       (set_reason (Some "cut at window start")
          (set_position (Some "start")
             (set_complete (Some false) emptyExtraction)))).

(** [a + '\n' + b]. *)
Definition joinLines (a b : string) : string :=
  String.append a (String "010" b).

(** The update of a record keeps the fields that the statement on merging
    is about: the three markers, the raw text, the seven simple fields. *)
Definition keepsMarkers (e m : Extraction) : Prop :=
  complete m = complete e /\ position m = position e /\ reason m = reason e.

Definition keepsSimpleFields (e m : Extraction) : Prop :=
  doi m = doi e /\ pmid m = pmid e /\ isbn m = isbn e /\ year m = year e /\
  volume m = volume e /\ issue m = issue e /\ pages m = pages e.

(** A field of the merged record is the primary's value when that is
    present, else the secondary's when that is present, else the primary's
    (empty) value. *)
Definition filledFrom {A} (present : option A -> bool)
    (primary secondary merged : option A) : Prop :=
  (present primary = true -> merged = primary) /\
  (present primary = false -> present secondary = true -> merged = secondary) /\
  (present primary = false -> present secondary = false -> merged = primary).

(** The six fields, in the order in which [computeMatchScore] compares
    them. *)
Definition allFields : list Field :=
  [Ftitle; Fauthors; Fyear; Fjournal; Fvolume; Fpages].

Definition Field_eqb (f g : Field) : bool :=
  match f, g with
  | Ftitle, Ftitle | Fauthors, Fauthors | Fyear, Fyear
  | Fjournal, Fjournal | Fvolume, Fvolume | Fpages, Fpages => true
  | _, _ => false
  end.

(** The record has a non-empty value for the field. *)
Definition nonEmpty (f : Field) (r : NormRecord) : bool :=
  match f with
  | Ftitle => truthyStr (n_title r)
  | Fauthors => negb (Z.of_nat (List.length (n_authors r)) =? 0)
  | Fyear => truthyYear (n_year r)
  | Fjournal => truthyStr (n_journal r)
  | Fvolume => truthy (Some (n_volume r))
  | Fpages => truthy (Some (n_pages r))
  end.

(** Both records have a non-empty value for the field. *)
Definition compared (f : Field) (e v : NormRecord) : bool :=
  nonEmpty f e && nonEmpty f v.

(** The score of one field. *)
Definition fieldScore (f : Field) (e v : NormRecord) : Q :=
  match f with
  | Ftitle => stringSimilarity (toLowerCase (n_title e)) (toLowerCase (n_title v))
  | Fauthors => compareAuthors (n_authors e) (n_authors v)
  | Fyear => if orZero (n_year e) =? orZero (n_year v) then 1 else 0
  | Fjournal =>
      stringSimilarity (toLowerCase (n_journal e)) (toLowerCase (n_journal v))
  | Fvolume =>
      if String.eqb (String_of (n_volume e)) (String_of (n_volume v))
      then 1 else 0
  | Fpages => comparePages (n_pages e) (n_pages v)
  end.

(** The fields actually compared. *)
Definition comparedFields (e v : NormRecord) : list Field :=
  filter (fun f => compared f e v) allFields.

Definition sumQ (l : list Q) : Q := fold_right Qplus 0%Q l.

(** The weighted sum of the scores, and the sum of the weights, of the fields
    actually compared. *)
Definition weightedScores (e v : NormRecord) : Q :=
  sumQ (map (fun f => (fieldScore f e v * FIELD_WEIGHTS f)%Q) (comparedFields e v)).

Definition comparedWeights (e v : NormRecord) : Q :=
  sumQ (map FIELD_WEIGHTS (comparedFields e v)).

(** The six blocks of [computeMatchScore], as a loop over the fields. *)
Definition accumulateOver (fs : list Field) (e v : NormRecord) (a : ScoreAcc)
    : ScoreAcc :=
  fold_left (fun a f => compareField f (compared f e v) (fieldScore f e v) a)
    fs a.

(** A citation and the CrossRef record of the same paper; the citation has
    no year, [citedWithYear] adds it. *)
Definition cited : Extraction :=
  set_authors (Some [smith])
    (set_title (Some "Deep learning in practice") emptyExtraction).

Definition citedWithYear : Extraction := set_year (Some (Num 2020)) cited.

Definition onRecord : NormRecord :=
  mkNormRecord "Deep learning in practise" [mkNormAuthor "Smith" "John"]
    (Some 2020) "Nature" (Str "12") (Str "1-10") "10.1000/a".

(** Two records of the common format agree on every scored field but [f]. *)
Definition sameElsewhere (f : Field) (r r' : NormRecord) : Prop :=
  (f <> Ftitle -> n_title r' = n_title r) /\
  (f <> Fauthors -> n_authors r' = n_authors r) /\
  (f <> Fyear -> n_year r' = n_year r) /\
  (f <> Fjournal -> n_journal r' = n_journal r) /\
  (f <> Fvolume -> n_volume r' = n_volume r) /\
  (f <> Fpages -> n_pages r' = n_pages r).

(** What a field adds to the weighted sum and to the sum of the weights. *)
Definition termScore (e v : NormRecord) (f : Field) : Q :=
  if compared f e v then (fieldScore f e v * FIELD_WEIGHTS f)%Q else 0%Q.

Definition termWeight (e v : NormRecord) (f : Field) : Q :=
  if compared f e v then FIELD_WEIGHTS f else 0%Q.

(** The citation has a [validation] object. *)
Definition hasValidation (c : Extraction) : Prop :=
  exists v, validation c = Some v.

(** The status of the citation is one of [statuses]. *)
Definition statusAmong (statuses : list Status) (c : Extraction) : Prop :=
  exists s, validationStatus c = Some s /\ In s statuses.

(** What a block of [validateCitation] does to a citation that has its
    [validation] object: it does not throw, it keeps the object, and when it
    returns it has set a verdict. *)
Definition absorbs (b : Block) : Prop :=
  forall c, hasValidation c ->
    snd (b c) <> Throw /\ hasValidation (fst (b c)) /\
    (snd (b c) = Return ->
     statusAmong [valid; suspicious; mismatch] (fst (b c))).

(** A block that ends [validateCitation]: it does not throw and leaves the
    [validation] object and one of the four verdicts. *)
Definition settles (b : Block) : Prop :=
  forall c, hasValidation c ->
    snd (b c) <> Throw /\ hasValidation (fst (b c)) /\
    statusAmong [valid; suspicious; mismatch; invalid] (fst (b c)).

(** Services of which every lookup is rejected, and a citation with a DOI, a
    PMID and a raw text. *)
Definition failingServices : Services :=
  mkServices (fun _ _ => Rejected) (fun _ _ => Rejected)
    (fun _ _ => Rejected) (fun _ _ => Rejected).

Definition fullCitation : Extraction :=
  set_raw_text (Some "Smith J. Deep learning in practice. Nature 2020")
    (set_pmid (Some (Num 123456)) (set_doi (Some "10.1000/a") cited)).

(** The run [r'] continues the run [r]: the extraction list, the two logs of
    callbacks are the same, and the citations dispatched to validation are
    those of [r], then possibly more. *)
Definition continues (r r' : Run) : Prop :=
  state r' = state r /\ windowsStarted r' = windowsStarted r /\
  errorsReported r' = errorsReported r /\
  exists later, dispatched r' = dispatched r ++ later.

(** [e] is an error-marked extraction of the window number [w]. *)
Definition isErrorOf (w : Z) (e : Extraction) : bool :=
  truthyB (error e) &&
  match windowIndex e with
  | Some x => x =? w
  | None => false
  end.

(** An error-marked extraction of one of the windows of index [i] to
    [i + n - 1]. *)
Definition errorWithin (i : Z) (n : nat) (e : Extraction) : Prop :=
  truthyB (error e) = true /\
  exists j, i <= j < i + Z.of_nat n /\ windowIndex e = Some (j + 1).

(** No window of the list finds the run cancelled at the top of its
    iteration. *)
Definition notCancelled (events : list WindowEvent) : Prop :=
  Forall (fun ev => cancelAtTop ev = false) events.

(** Scenario E: five windows; the second leaves a citation cut at its end,
    and the extraction call of the third throws. *)
Definition cutAtEnd : Extraction :=
  set_raw_text (Some "Smith J. Intro to")
    (set_reason (Some "cut at window end")
       (set_position (Some "end")
          (set_complete (Some false) emptyExtraction))).

Definition scenarioE : list WindowEvent :=
  [ mkWindowEvent false (Extracted [cited]) false;
    mkWindowEvent false (Extracted [cutAtEnd]) false;
    mkWindowEvent false (Failed "HTTP 500") false;
    mkWindowEvent false (Extracted [citedWithYear]) false;
    mkWindowEvent false (Extracted []) false ].

(** Two states of a limiter with the same limits, the same number of
    requests in flight, the same queue and the same records. *)
Definition sameBook (l l' : RateLimiter) : Prop :=
  maxConcurrent l' = maxConcurrent l /\
  requestsPerMinute l' = requestsPerMinute l /\
  activeRequests l' = activeRequests l /\
  queue l' = queue l /\ admitted l' = admitted l /\ enqueued l' = enqueued l.

(** Every task was started with both limits satisfied, and the queue is
    first in, first out: the tasks that left the queue, in the order in which
    they were started, and then the tasks that wait, in the order of the
    queue, are the tasks that were queued, in the order in which they were
    queued. *)
Definition orderly (l0 l : RateLimiter) : Prop :=
  maxConcurrent l = maxConcurrent l0 /\
  requestsPerMinute l = requestsPerMinute l0 /\
  Forall (allowed l0) (admitted l) /\
  startedFromQueue l ++ queue l = enqueued l.


(** ** Proof automation *)

(** Case analysis on the tests of one step of [mergeExtractions]. *)
Ltac step_cases :=
  repeat match goal with
  | |- context [if ?c then _ else _] => destruct c
  | |- context [match ?x with Some _ => _ | None => _ end] => destruct x
  end.

Ltac keeps step :=
  unfold keepsMarkers, keepsSimpleFields, step; cbv zeta;
  step_cases; cbn; repeat split; reflexivity.


(* ================================================================== *)
(** * Further definitions *)

From Stdlib Require DecimalZ DecimalPos Permutation SpecFloat.
(* ================================================================== *)

(** ** Windower: the shape of the window list *)

(** Window [b] follows window [a]: it starts after the start of [a] and not
    after its end, it does not end before [a], and its index is the next. *)
Definition follows (a b : Window) : Prop :=
  w_start a < w_start b /\ w_start b <= w_end a /\ w_end a <= w_end b /\
  w_index b = w_index a + 1.

(** Every window of the list follows the one before it. *)
Fixpoint chained (windows : list Window) : Prop :=
  match windows with
  | a :: rest =>
      match rest with
      | b :: _ => follows a b /\ chained rest
      | [] => True
      end
  | [] => True
  end.

(** The fields of window [w] agree with the text: [text] is the slice
    [start, end) of the source, [length] is its length, and the window is not
    tiny: it has at least [step] characters, or the whole text. *)
Definition consistent (text : string) (step : Z) (w : Window) : Prop :=
  w_text w = slice text (w_start w) (w_end w) /\
  w_length w = w_end w - w_start w /\
  len (w_text w) = w_length w /\
  Z.min step (len text) <= w_length w.

(** [windowSize - overlap] after the normalisation of the two. *)
Definition normStep (windowSize overlap : Z) : Z :=
  normWindowSize windowSize - normOverlap (normWindowSize windowSize) overlap.

(** [getWindowStats(text, windows)]: [totalChars], [windowCount] and
    [avgCharsPerWindow]. *)
Definition getWindowStats (text : string) (windows : list Window)
    : Z * Z * Z :=
  (len text,
   Z.of_nat (List.length windows),
   if Z.of_nat (List.length windows) >? 0
   then Math_round
          (inject_Z (fold_left (fun sum w => sum + w_length w) windows 0)
           / inject_Z (Z.of_nat (List.length windows)))
   else 0).

(** The state of the loop between two iterations: no window yet and
    [start = 0], or a last window one step behind [start] that runs to its
    full size or to the end of the text, with at least a step left to go. *)
Definition betweenIterations (text : string) (windowSize step start : Z)
    (windows : list Window) : Prop :=
  (windows = [] /\ start = 0) \/
  (windows <> [] /\
   w_start (lastWindow windows) = start - step /\
   w_end (lastWindow windows) = Z.min (start - step + windowSize) (len text) /\
   (start < len text -> step <= len text - start)).


(** What the loop returns. *)
Definition shaped (text : string) (step : Z) (windows : list Window) : Prop :=
  chained windows /\
  Forall (consistent text step) windows /\
  w_index (hd emptyWindow windows) = 0 /\
  w_start (hd emptyWindow windows) = 0 /\
  (windows <> [] -> w_end (lastWindow windows) = len text).


(** ** Deduplication: vocabulary *)

(** Of two extractions that are not errors, the strict rule does not match
    the first with the second. *)
Definition notDuplicates (a b : Extraction) : Prop :=
  truthyB (error a) = false -> truthyB (error b) = false ->
  extractionsAreDuplicates a b = false.


(** ** The loose rule, criterion by criterion *)

(** The titles overlap: the shorter of the two normalised titles has at
    least 10 characters, and one title contains the other or the two begin
    with the same 15 characters (or as many as the shorter has). *)
Definition titlesOverlap (ext1 ext2 : Extraction) : bool :=
  match title ext1, title ext2 with
  | Some t1, Some t2 =>
      truthyStr t1 && truthyStr t2 &&
      let title1 := trim (toLowerCase t1) in
      let title2 := trim (toLowerCase t2) in
      let minLen := Z.min (len title1) (len title2) in
      (minLen >=? 10) &&
      (includes title1 title2 || includes title2 title1 ||
       let checkLen := Z.min 15 minLen in
       String.eqb (substring0 title1 checkLen) (substring0 title2 checkLen))
  | _, _ => false
  end.

(** The same year and the same container title. *)
Definition yearAndContainerMatch (ext1 ext2 : Extraction) : bool :=
  match year ext1, year ext2, container_title ext1, container_title ext2 with
  | Some y1, Some y2, Some c1, Some c2 =>
      truthy (Some y1) && truthy (Some y2) && truthyStr c1 && truthyStr c2 &&
      String.eqb (String_of y1) (String_of y2) &&
      String.eqb (toLowerCase c1) (toLowerCase c2)
  | _, _, _, _ => false
  end.

(** A third extraction of the paper of [draftA], with an identity of its
    own. *)
Definition draftC : Extraction :=
  processExtraction
    (set_authors (Some [smith])
       (set_title (Some "Superconductivit") emptyExtraction)) 2 3.

(** ** Merge: the fields outside the claim on merging *)

(** The identity and the descriptive fields that [mergeExtractions] may
    replace. *)
Definition descr (e : Extraction) :=
  (id e, index e, windowIndex e, colorIndex e, title e, container_title e,
   query_bibliographic e, authors e, authors_truncated e).

(** [authors?.length || 0]. *)
Definition authorsCount (v : option (list Author)) : Z :=
  match v with
  | Some l => Z.of_nat (List.length l)
  | None => 0
  end.

(** What [mergeAuthors] and [mergeTruncated] leave in [authors] and in
    [authors_truncated]. *)
Definition longerAuthors (endV startV : option (list Author))
    : option (list Author) :=
  match startV with
  | Some sa => if Z.of_nat (List.length sa) >? authorsCount endV
               then Some sa else endV
  | None => endV
  end.

Definition eitherTruncated (endV startV : option bool) : option bool :=
  if truthyB endV || truthyB startV then Some true else endV.

(** The merged text is the longer of the two when both are present, the
    primary's when they are as long; else the one that is present. *)
Definition longerOf (primary secondary merged : option string) : Prop :=
  (truthyS primary = true -> truthyS secondary = true ->
   merged = if lenS secondary >? lenS primary then secondary else primary) /\
  (truthyS primary = false -> truthyS secondary = true -> merged = secondary) /\
  (truthyS secondary = false -> merged = primary).

Ltac descr_step step :=
  unfold descr, step; cbv zeta; step_cases; cbn; reflexivity.

(** ** The run: identities of the records it makes *)

(** A record numbered below [bound]: its [index] is some [k] below [bound]
    and its [id] is [extraction-k]. *)
Definition numbered (bound : Z) (e : Extraction) : Prop :=
  exists k, 0 <= k < bound /\ index e = Some k /\ id e = Some (extractionId k).

Definition indexIs (k : Z) (e : Extraction) : bool :=
  match index e with
  | Some j => j =? k
  | None => false
  end.

(** How many records of [l] carry the index [k]. *)
Definition occ (k : Z) (l : list Extraction) : nat :=
  List.length (filter (indexIs k) l).

Definition wellNumbered (bound : Z) (l : list Extraction) : Prop :=
  (forall e, In e l -> numbered bound e) /\ (forall k, (occ k l <= 1)%nat).

(** The records a run holds at a point of the loop over the citations of a
    window: those handed to validation, those held for the next window, the
    error records, and the ones held so far from the current window. *)
Definition allRecords (r : Run) (newIncompleteEnd : list Extraction)
    : list Extraction :=
  dispatched r ++ pendingIncompleteEnd r ++ extractions (state r)
  ++ newIncompleteEnd.

Definition notSuperseded (by_ : Extraction) (p : Extraction) : Prop :=
  completeSupersedes p by_ = false.

(** ** The run: what becomes of an extraction that is held *)

(** [p] is among the records [later], as it was or merged: under the same
    [id] and [index]. *)
Definition handedOver (p : Extraction) (later : list Extraction) : Prop :=
  exists m, In m later /\ id m = id p /\ index m = index p.

(** One of the citations of the window number [w], a complete one,
    supersedes [p]. *)
Definition supersededIn (w : Z) (citations : list Extraction) (p : Extraction)
    : Prop :=
  exists c k, In c citations /\ notIncomplete c = true /\
              completeSupersedes p (processExtraction c k w) = true.

(** Where an extraction held from the window before stands, the run having
    gone from [r0] to [r] over the citations [done]. *)
Definition accountedFor (w : Z) (done : list Extraction) (r0 r : Run)
    (p : Extraction) : Prop :=
  exists later,
    dispatched r = dispatched r0 ++ later /\
    (In p (pendingIncompleteEnd r) \/ handedOver p later \/
     supersededIn w done p).

(** ** Validation *)







(** ** Rate limiter: accounts *)

(** The tasks that the callers schedule, and the number of tasks that
    settle, in a sequence of events. *)
Definition scheduledTasks (events : list Event) : list Task :=
  flat_map (fun e => match e with Schedule t => [t] | _ => [] end) events.

Definition settledCount (events : list Event) : Z :=
  Z.of_nat (List.length
              (filter (fun e => match e with Settle => true | _ => false end)
                 events)).

(** [n] does not exceed the limit (a limit below 0 admits nothing). *)
Definition within (n : Z) (l : Limit) : Prop :=
  match l with
  | Finite m => n <= Z.max 0 m
  | Infinity => True
  end.

(** Both tests of [_canProceed], on the limiter as it stands. *)
Definition canStart (l : RateLimiter) : bool :=
  below (activeRequests l) (maxConcurrent l)
  && below (Z.of_nat (List.length (requestTimestamps l))) (requestsPerMinute l).

(** The accounts of a limiter after the tasks [sched] were scheduled and
    [settled] tasks have settled. *)
Definition balanced (sched : list Task) (settled : Z) (l : RateLimiter)
    : Prop :=
  Permutation.Permutation sched (map a_task (admitted l) ++ queue l) /\
  activeRequests l = Z.of_nat (List.length (admitted l)) - settled /\
  (List.length (timers l) <= List.length (enqueued l))%nat.

Definition bounded (l : RateLimiter) : Prop :=
  within (activeRequests l) (maxConcurrent l) /\
  within (Z.of_nat (List.length (requestTimestamps l))) (requestsPerMinute l).

(** ** extraction-state.js: line numbers *)

Definition CR : ascii := ascii_of_nat 13.
Definition LF : ascii := ascii_of_nat 10.

(** [(str.match(/\r\n|\r|\n/g) || []).length]: the matches are taken from
    left to right, [\r\n] before [\r]. *)
Fixpoint countLineEndings (l : list ascii) : Z :=
  match l with
  | [] => 0
  | c :: r =>
      if Ascii.eqb c CR then
        match r with
        | c2 :: r' =>
            if Ascii.eqb c2 LF then 1 + countLineEndings r'
            else 1 + countLineEndings r
        | [] => 1
        end
      else if Ascii.eqb c LF then 1 + countLineEndings r
      else countLineEndings r
  end.

(** [charPosToLine(text, charPos)]. *)
Definition charPosToLine (text : string) (charPos : Z) : Z :=
  if negb (truthyStr text) || (charPos <=? 0) then 1
  else
    let upToPos := slice text 0 charPos in
    countLineEndings (list_ascii_of_string upToPos) + 1.

(** ** The run: the windows of the records *)

(** Every record that the run holds (handed to validation, held from the
    window before, or held so far from the current window) has a window
    index that satisfies [ok]. *)
Definition windowsAre (ok : option Z -> Prop) (r : Run)
    (newIncompleteEnd : list Extraction) : Prop :=
  forall c,
    In c (dispatched r ++ pendingIncompleteEnd r ++ newIncompleteEnd) ->
    ok (windowIndex c).

(** The window [i] fails, or its number satisfies [ok]. *)
Definition failsOr (ok : option Z -> Prop) (i : Z) (ev : WindowEvent) : Prop :=
  (exists message, outcome ev = Failed message) \/ ok (Some (i + 1)).

(** * The arithmetic of the machine *)

(** JavaScript numbers are IEEE 754 double-precision numbers.  Where a
    threshold or a tie decides, the scores are computed here as the machine
    computes them: each operation rounds to the nearest double, ties to
    even.  The definitions of this module are the ones above with [Q]
    replaced by [double]; what they share with them (the normalised records,
    the tests of presence, the weights' fields) is used as it is. *)
Module Double.

Definition double := SpecFloat.spec_float.

(** Binary64: 53 bits of mantissa, the exponent of the infinities 1024. *)
Definition prec : Z := 53.
Definition emax : Z := 1024.

(** [x + y], [x * y], [x / y]. *)
Definition add (x y : double) : double := SpecFloat.SFadd prec emax x y.
Definition mul (x y : double) : double := SpecFloat.SFmul prec emax x y.
Definition div (x y : double) : double := SpecFloat.SFdiv prec emax x y.

(** [x < y] and [x <= y]; both are false when an operand is NaN.  [x > y] is
    [ltb y x] and [x >= y] is [leb y x]. *)
Definition ltb (x y : double) : bool := SpecFloat.SFltb x y.
Definition leb (x y : double) : bool := SpecFloat.SFleb x y.

(** The Number that is the integer [n]: [n] itself up to 2^53, the nearest
    double beyond. *)
Definition ofZ (n : Z) : double := SpecFloat.binary_normalize prec emax n 0 false.

(** The decimal literal with one decimal digit, [n / 10]: the double nearest
    to it, which is the correctly rounded quotient of the two integers. *)
Definition tenths (n : Z) : double := div (ofZ n) (ofZ 10).

(** The rational number that a finite double is. *)
Definition toQ (x : double) : Q :=
  match x with
  | SpecFloat.S754_finite s m e =>
      (inject_Z (if s then Z.neg m else Z.pos m) * Qpower 2 e)%Q
  | _ => 0%Q
  end.

(** ** similarity.js *)

(** [stringSimilarity(str1, str2)]. *)
Definition stringSimilarity (str1 str2 : string) : double :=
  if negb (truthyStr str1) || negb (truthyStr str2) then ofZ 0
  else
    let words1 := setOf (splitWhiteSpace (toLowerCase str1)) in
    let words2 := setOf (splitWhiteSpace (toLowerCase str2)) in
    let intersectionSize := Z.of_nat (List.length (filter (setHas words2) words1)) in
    let unionSize :=
      Z.of_nat (List.length words1) + Z.of_nat (List.length words2)
      - intersectionSize in
    if unionSize >? 0 then div (ofZ intersectionSize) (ofZ unionSize)
    else ofZ 0.

(** ** validation.js *)

(** [FIELD_WEIGHTS]. *)
Definition FIELD_WEIGHTS (f : Field) : double :=
  match f with
  | Ftitle => ofZ 10
  | Fauthors => ofZ 8
  | Fyear => ofZ 6
  | Fjournal => tenths 5
  | Fvolume => tenths 2
  | Fpages => tenths 2
  end.

(** [THRESHOLDS]. *)
Definition THRESHOLDS_valid : double := tenths 9.
Definition THRESHOLDS_suspicious : double := tenths 7.

(** [compareAuthors(extracted, validated)]. *)
Definition compareAuthors (extracted validated : list NormAuthor) : double :=
  match extracted, validated with
  | e0 :: _, v0 :: _ =>
      let ext1 := toLowerCase (n_family e0) in
      let val1 := toLowerCase (n_family v0) in
      if negb (truthyStr ext1) || negb (truthyStr val1) then ofZ 0
      else
        let firstAuthorSim := stringSimilarity ext1 val1 in
        if (Z.of_nat (List.length extracted) >? 1)
           && (Z.of_nat (List.length validated) >? 1) then
          let extLast := toLowerCase (n_family (last extracted e0)) in
          let valLast := toLowerCase (n_family (last validated v0)) in
          let lastAuthorSim := stringSimilarity extLast valLast in
          add (mul firstAuthorSim (tenths 7)) (mul lastAuthorSim (tenths 3))
        else firstAuthorSim
  | _, _ => ofZ 0
  end.

(** [comparePages(pages1, pages2)]. *)
Definition comparePages (pages1 pages2 : scalar) : double :=
  if negb (truthy (Some pages1)) || negb (truthy (Some pages2)) then ofZ 0
  else if String.eqb (normalizePages pages1) (normalizePages pages2)
  then ofZ 1 else ofZ 0.

(** [{overall, fields, fieldsCompared}]. *)
Record MatchScore := mkMatchScore {
  overall : double;
  fields : list (Field * double);
  fieldsCompared : Z
}.

(** The accumulators of [computeMatchScore]. *)
Record ScoreAcc := mkScoreAcc {
  fieldScores : list (Field * double);
  totalWeight : double;
  weightedSum : double
}.

(** One of the six blocks of [computeMatchScore]:
    [weightedSum += score * weight; totalWeight += weight]. *)
Definition compareField (f : Field) (bothPresent : bool) (score : double)
    (a : ScoreAcc) : ScoreAcc :=
  if bothPresent then
    mkScoreAcc (fieldScores a ++ [(f, score)])
               (add (totalWeight a) (FIELD_WEIGHTS f))
               (add (weightedSum a) (mul score (FIELD_WEIGHTS f)))
  else a.

(** The six blocks applied to two records of the common format. *)
Definition accumulateScores (extNorm valNorm : NormRecord) : ScoreAcc :=
  let a := mkScoreAcc [] (ofZ 0) (ofZ 0) in
  let a :=
    compareField Ftitle
      (truthyStr (n_title extNorm) && truthyStr (n_title valNorm))
      (stringSimilarity (toLowerCase (n_title extNorm))
         (toLowerCase (n_title valNorm))) a in
  let a :=
    compareField Fauthors
      (negb (Z.of_nat (List.length (n_authors extNorm)) =? 0)
       && negb (Z.of_nat (List.length (n_authors valNorm)) =? 0))
      (compareAuthors (n_authors extNorm) (n_authors valNorm)) a in
  let a :=
    compareField Fyear
      (truthyYear (n_year extNorm) && truthyYear (n_year valNorm))
      (if orZero (n_year extNorm) =? orZero (n_year valNorm)
       then ofZ 1 else ofZ 0)
      a in
  let a :=
    compareField Fjournal
      (truthyStr (n_journal extNorm) && truthyStr (n_journal valNorm))
      (stringSimilarity (toLowerCase (n_journal extNorm))
         (toLowerCase (n_journal valNorm))) a in
  let a :=
    compareField Fvolume
      (truthy (Some (n_volume extNorm)) && truthy (Some (n_volume valNorm)))
      (if String.eqb (String_of (n_volume extNorm))
            (String_of (n_volume valNorm)) then ofZ 1 else ofZ 0) a in
  compareField Fpages
    (truthy (Some (n_pages extNorm)) && truthy (Some (n_pages valNorm)))
    (comparePages (n_pages extNorm) (n_pages valNorm)) a.

(** The result object built from the accumulators:
    [totalWeight > 0 ? weightedSum / totalWeight : 0]. *)
Definition scoreOf (a : ScoreAcc) : MatchScore :=
  let overallScore :=
    if ltb (ofZ 0) (totalWeight a) then div (weightedSum a) (totalWeight a)
    else ofZ 0 in
  mkMatchScore overallScore (fieldScores a)
    (Z.of_nat (List.length (fieldScores a))).

(** [computeMatchScore(extracted, validated)]. *)
Definition computeMatchScore (extracted : Extraction) (validated : NormRecord)
    : MatchScore :=
  let extNorm := normalizeExtracted extracted in
  let valNorm := validated in
  scoreOf (accumulateScores extNorm valNorm).

(** The text [`${Math.round(matchScore.overall * 100)}% match`].
    [Math.round] rounds the number that the product is, halves upwards. *)
Definition percentMatch (m : MatchScore) : string :=
  let x := mul (overall m) (ofZ 100) in
  String.append
    match x with
    | SpecFloat.S754_nan => "NaN"
    | SpecFloat.S754_infinity false => "Infinity"
    | SpecFloat.S754_infinity true => "-Infinity"
    | _ => String_of (Num (Math_round (toQ x)))
    end
    "% match".

(** [getValidationStatus(matchScore, lookupMethod)]. *)
Definition getValidationStatus (m : MatchScore) (lookupMethod : string)
    : Status * string :=
  if leb THRESHOLDS_valid (overall m) then
    (valid,
     String.append lookupMethod
       (String.append " (" (String.append (percentMatch m) ")")))
  else if leb THRESHOLDS_suspicious (overall m) then
    (suspicious,
     String.append lookupMethod
       (String.append " - possible mismatch ("
          (String.append (percentMatch m) ")")))
  else
    (mismatch,
     String.append lookupMethod
       (String.append " - content mismatch ("
          (String.append (percentMatch m) ")"))).

(** The loop of [findBestMatch]; the state is [bestMatch] with [bestScore]. *)
Fixpoint findBestMatch_loop (citation : Extraction) (results : list CrossRefWork)
    (best : option (CrossRefWork * MatchScore))
    : option (CrossRefWork * MatchScore) :=
  match results with
  | [] => best
  | result :: rest =>
      let normalized := normalizeCrossRef result in
      let matchScore := computeMatchScore citation normalized in
      let best :=
        match best with
        | None => Some (result, matchScore)
        | Some (_, bestScore) =>
            if ltb (overall bestScore) (overall matchScore)
            then Some (result, matchScore) else best
        end in
      findBestMatch_loop citation rest best
  end.

(** [findBestMatch(citation, results)]. *)
Definition findBestMatch (citation : Extraction) (results : list CrossRefWork)
    : option (CrossRefWork * MatchScore) :=
  findBestMatch_loop citation results None.

(** ** extraction-state.js *)

(** [scoreExtraction(ext)]. *)
Definition scoreExtraction (ext : Extraction) : double :=
  let score := ofZ 0 in
  let score :=
    match validationStatus ext with
    | Some valid => add score (ofZ 100)
    | Some suspicious => add score (ofZ 50)
    | Some incomplete => add score (ofZ 10)
    | Some invalid => add score (ofZ 5)
    | _ => score
    end in
  let score := if notIncomplete ext then add score (ofZ 50) else score in
  let score := if truthyS (doi ext) then add score (ofZ 30) else score in
  let score := if truthy (pmid ext) then add score (ofZ 20) else score in
  let score := if truthyS (isbn ext) then add score (ofZ 20) else score in
  let score := if truthyS (title ext) then add score (ofZ 10) else score in
  let score := if truthy (year ext) then add score (ofZ 5) else score in
  let score :=
    if truthyS (container_title ext) then add score (ofZ 5) else score in
  let score := if truthy (volume ext) then add score (ofZ 3) else score in
  let score := if truthy (issue ext) then add score (ofZ 3) else score in
  let score := if truthy (pages ext) then add score (ofZ 3) else score in
  let score :=
    match authors ext with
    | Some (a :: l) =>
        add score (ofZ (Z.min (Z.of_nat (List.length (a :: l)) * 2) 10))
    | _ => score
    end in
  add score
    (mul (ofZ (match windowIndex ext with Some w => w | None => 0 end))
       (tenths 1)).

(** The inner loop of [deduplicateExtractions]. *)
Fixpoint dedupInner (ext1 : Extraction) (rest : list Extraction)
    (idsToRemove : idSet) : idSet :=
  match rest with
  | [] => idsToRemove
  | ext2 :: rest' =>
      if truthyB (error ext2) || idHas idsToRemove (id ext2)
      then dedupInner ext1 rest' idsToRemove
      else if extractionsAreDuplicates ext1 ext2 then
        let score1 := scoreExtraction ext1 in
        let score2 := scoreExtraction ext2 in
        if leb score2 score1
        then dedupInner ext1 rest' (idAdd (id ext2) idsToRemove)
        else idAdd (id ext1) idsToRemove
      else dedupInner ext1 rest' idsToRemove
  end.

(** The outer loop. *)
Fixpoint dedupOuter (exts : list Extraction) (idsToRemove : idSet) : idSet :=
  match exts with
  | [] => idsToRemove
  | ext1 :: rest =>
      if truthyB (error ext1) || idHas idsToRemove (id ext1)
      then dedupOuter rest idsToRemove
      else dedupOuter rest (dedupInner ext1 rest idsToRemove)
  end.

(** [deduplicateExtractions(state)]. *)
Definition deduplicateExtractions (state : State) : State * Z :=
  if Z.of_nat (List.length (extractions state)) <? 2 then (state, 0)
  else
    let idsToRemove := dedupOuter (extractions state) [] in
    if Z.of_nat (List.length idsToRemove) =? 0 then (state, 0)
    else
      let keep := fun e => negb (idHas idsToRemove (id e)) in
      (mkState (filter keep (extractions state))
               (filter keep (processingResults state))
               (shouldCancel state),
       Z.of_nat (List.length idsToRemove)).

End Double.

(** The score of a field, as the machine computes it. *)
Definition fieldScoreD (f : Field) (e v : NormRecord) : Double.double :=
  match f with
  | Ftitle =>
      Double.stringSimilarity (toLowerCase (n_title e)) (toLowerCase (n_title v))
  | Fauthors => Double.compareAuthors (n_authors e) (n_authors v)
  | Fyear =>
      if orZero (n_year e) =? orZero (n_year v)
      then Double.ofZ 1 else Double.ofZ 0
  | Fjournal =>
      Double.stringSimilarity (toLowerCase (n_journal e))
        (toLowerCase (n_journal v))
  | Fvolume =>
      if String.eqb (String_of (n_volume e)) (String_of (n_volume v))
      then Double.ofZ 1 else Double.ofZ 0
  | Fpages => Double.comparePages (n_pages e) (n_pages v)
  end.

(** The weighted sum of the scores of the fields [fs], and the sum of their
    weights, added up in the order of [fs], from 0 on. *)
Definition weightedSumD (e v : NormRecord) (fs : list Field) : Double.double :=
  fold_left
    (fun s f => Double.add s (Double.mul (fieldScoreD f e v)
                                (Double.FIELD_WEIGHTS f)))
    fs (Double.ofZ 0).

Definition sumWeightsD (fs : list Field) : Double.double :=
  fold_left (fun t f => Double.add t (Double.FIELD_WEIGHTS f)) fs (Double.ofZ 0).

(** The six blocks of [computeMatchScore], as a loop over the fields. *)
Definition accumulateOverD (fs : list Field) (e v : NormRecord)
    (a : Double.ScoreAcc) : Double.ScoreAcc :=
  fold_left
    (fun a f => Double.compareField f (compared f e v) (fieldScoreD f e v) a)
    fs a.

(** The score of a CrossRef record against the citation. *)
Definition scoreAgainstD (citation : Extraction) (result : CrossRefWork)
    : Double.MatchScore :=
  Double.computeMatchScore citation (normalizeCrossRef result).

(** [b] is the first of the records of [l] with the highest overall score:
    no record before it scores as much, no record after it scores more. *)
Definition firstBestD (citation : Extraction) (l : list CrossRefWork)
    (b : CrossRefWork) : Prop :=
  exists before after,
    l = before ++ b :: after /\
    Forall (fun r => Double.leb (Double.overall (scoreAgainstD citation b))
                       (Double.overall (scoreAgainstD citation r)) = false)
      before /\
    Forall (fun r => Double.ltb (Double.overall (scoreAgainstD citation b))
                       (Double.overall (scoreAgainstD citation r)) = false)
      after.

(** A citation and a record that have authors only: the first authors agree,
    the last authors share two words of three. *)
Definition twoAuthors : Extraction :=
  set_authors (Some [mkAuthor (Some "Smith") None;
                     mkAuthor (Some "van der") None]) emptyExtraction.

Definition twoAuthorsOnRecord : NormRecord :=
  mkNormRecord "" [mkNormAuthor "Smith" ""; mkNormAuthor "van der Berg" ""]
    None "" (Str "") (Str "") "".

(** Two incomplete extractions of one paper, by the PMID: the first has the
    issue and the pages and comes from window 22, the second comes from
    window 82.  The scores are 26 + 22 * 0.1 and 20 + 82 * 0.1: as rational
    numbers they are equal. *)
Definition fromWindow22 : Extraction :=
  set_windowIndex (Some 22)
    (set_pages (Some (Str "1-10"))
       (set_issue (Some (Str "2"))
          (set_pmid (Some (Num 123456))
             (set_complete (Some false)
                (set_id (Some "extraction-0") emptyExtraction))))).

Definition fromWindow82 : Extraction :=
  set_windowIndex (Some 82)
    (set_pmid (Some (Num 123456))
       (set_complete (Some false)
          (set_id (Some "extraction-1") emptyExtraction))).
(* ================================================================== *)
(** * Properties *)
(* ================================================================== *)

(** ** Windower *)

Lemma createWindows_loop_unfold fuel text windowSize step start windowIndex windows :
  createWindows_loop (S fuel) text windowSize step start windowIndex windows =
  if start <? len text then
    let end_ := Z.min (start + windowSize) (len text) in
    let windows' :=
      windows ++ [mkWindow windowIndex start end_ (end_ - start)
                    (slice text start end_)] in
    if (start + step <? len text) && (len text - (start + step) <? step) then
      let finalStart := Z.max 0 (len text - windowSize) in
      if finalStart >? w_start (lastWindow windows') then
        Some (windows' ++ [mkWindow (windowIndex + 1) finalStart (len text)
                             (len text - finalStart)
                             (sliceFrom text finalStart)])
      else Some windows'
    else
      createWindows_loop fuel text windowSize step (start + step)
        (windowIndex + 1) windows'
  else Some windows.
Proof. reflexivity. Qed.

Lemma lastWindow_snoc windows w : lastWindow (windows ++ [w]) = w.
Proof. unfold lastWindow. apply last_last. Qed.

Lemma covered_app_l windows more p :
  covered windows p -> covered (windows ++ more) p.
Proof.
  intros [w [Hin Hp]]. exists w. split; [apply in_or_app; now left | exact Hp].
Qed.

Lemma covered_snoc windows w p :
  w_start w <= p < w_end w -> covered (windows ++ [w]) p.
Proof.
  intros Hp. exists w. split; [apply in_or_app; right; now left | exact Hp].
Qed.

Lemma createWindows_loop_spec text windowSize step :
  1 <= step -> step <= windowSize ->
  forall fuel start windowIndex windows,
    0 <= start ->
    (len text - start <= Z.of_nat fuel) ->
    (forall p, 0 <= p < Z.min start (len text) -> covered windows p) ->
    Forall (wellFormed text windowSize) windows ->
    exists result,
      createWindows_loop fuel text windowSize step start windowIndex windows
        = Some result /\
      (forall p, 0 <= p < len text -> covered result p) /\
      Forall (wellFormed text windowSize) result.
Proof.
  intros Hstep Hws.
  induction fuel as [|fuel IH]; intros start windowIndex windows Hs Hfuel Hcov Hwf.
  - exists windows. simpl.
    destruct (Z.ltb_spec start (len text)); [lia|].
    split; [reflexivity|]. split; [|exact Hwf].
    intros p Hp. apply Hcov. lia.
  - rewrite createWindows_loop_unfold.
    destruct (Z.ltb_spec start (len text)) as [Hlt|Hge].
    + cbv zeta.
      set (w := mkWindow windowIndex start (Z.min (start + windowSize) (len text))
                  (Z.min (start + windowSize) (len text) - start)
                  (slice text start (Z.min (start + windowSize) (len text)))).
      assert (Hw : wellFormed text windowSize w)
        by (unfold wellFormed, w; cbn [w_start w_end w_length]; lia).
      assert (Hcov' : forall p, 0 <= p < w_end w -> covered (windows ++ [w]) p).
      { intros p Hp. destruct (Z.lt_ge_cases p start).
        - apply covered_app_l, Hcov. lia.
        - apply covered_snoc. unfold w in *. cbn [w_start w_end] in *. lia. }
      assert (Hwf' : Forall (wellFormed text windowSize) (windows ++ [w]))
        by (apply Forall_app; split; [exact Hwf | constructor; [exact Hw | constructor]]).
      destruct ((start + step <? len text) && (len text - (start + step) <? step))
        eqn:Htiny.
      * apply andb_true_iff in Htiny. destruct Htiny as [H1 H2].
        apply Z.ltb_lt in H1. apply Z.ltb_lt in H2.
        rewrite lastWindow_snoc. simpl w_start.
        destruct (Z.gtb_spec (Z.max 0 (len text - windowSize)) start) as [Hgt|Hle].
        -- eexists. split; [reflexivity|]. split.
           ++ intros p Hp.
              destruct (Z.lt_ge_cases p (w_end w)).
              ** apply covered_app_l, Hcov'. lia.
              ** apply covered_snoc. unfold w in *.
                 cbn [w_start w_end] in *. lia.
           ++ apply Forall_app. split; [exact Hwf'|].
              constructor; [|constructor].
              unfold wellFormed; cbn [w_start w_end w_length]. lia.
        -- eexists. split; [reflexivity|]. split; [|exact Hwf'].
           intros p Hp. apply Hcov'. unfold w. cbn [w_end]. lia.
      * apply IH; try lia; [|exact Hwf'].
        intros p Hp. apply Hcov'. unfold w. cbn [w_end]. lia.
    + exists windows. split; [reflexivity|]. split; [|exact Hwf].
      intros p Hp. apply Hcov. lia.
Qed.

Lemma trimStartL_nil l :
  trimStartL l = [] -> forallb isWhiteSpace l = true.
Proof.
  induction l as [|c r IH]; simpl; [reflexivity|].
  destruct (isWhiteSpace c); [exact IH | discriminate].
Qed.

Lemma trimStartL_keeps l :
  existsb (fun c => negb (isWhiteSpace c)) l = true ->
  existsb (fun c => negb (isWhiteSpace c)) (trimStartL l) = true.
Proof.
  induction l as [|c r IH]; simpl; [discriminate|].
  destruct (isWhiteSpace c) eqn:Hc; simpl.
  - exact IH.
  - rewrite Hc. reflexivity.
Qed.

Lemma existsb_rev {A} (f : A -> bool) l :
  existsb f l = true -> existsb f (rev l) = true.
Proof.
  rewrite !existsb_exists. intros [x [Hin Hx]]. exists x.
  split; [rewrite <- in_rev; exact Hin | exact Hx].
Qed.

Lemma trim_nonblank text :
  hasNonWhiteSpace text = true -> truthyStr (trim text) = true.
Proof.
  unfold hasNonWhiteSpace, trim, truthyStr. intros H.
  do 2 (apply trimStartL_keeps, existsb_rev in H).
  destruct (rev _) as [|c r]; [discriminate H | reflexivity].
Qed.

Lemma nonblank_truthy text :
  hasNonWhiteSpace text = true -> truthyStr text = true.
Proof. destruct text; [discriminate | reflexivity]. Qed.

(** C6. For every text with a character that is not white space, and every
    window size and overlap, [createWindows] returns a list of windows, every
    position of [0, text.length) lies in the range of one of them, and every
    window lies in the text and spans at most the (normalised) window size. *)
Theorem createWindows_coverage text windowSize overlap :
  hasNonWhiteSpace text = true ->
  exists windows,
    createWindows text windowSize overlap = Some windows /\
    (forall p, 0 <= p < len text -> covered windows p) /\
    (forall w, In w windows ->
       0 <= w_start w < w_end w /\ w_end w <= len text /\
       w_end w - w_start w <= normWindowSize windowSize).
Proof.
  intros Hne. unfold createWindows.
  rewrite (trim_nonblank _ Hne), (nonblank_truthy _ Hne). cbn [negb orb].
  cbv zeta.
  assert (Hn : 1 <= normWindowSize windowSize)
    by (unfold normWindowSize; destruct (Z.leb_spec windowSize 0); lia).
  set (ws := normWindowSize windowSize) in *.
  assert (Hov : 0 <= normOverlap ws overlap <= ws - 1).
  { unfold normOverlap. destruct (Z.ltb_spec overlap 0).
    - destruct (Z.geb_spec 0 ws); lia.
    - destruct (Z.geb_spec overlap ws); lia. }
  assert (Hfuel : len text - 0 <= Z.of_nat (String.length text))
    by (unfold len; lia).
  assert (Hcov0 : forall p, 0 <= p < Z.min 0 (len text) -> covered [] p)
    by (intros p Hp; lia).
  destruct (createWindows_loop_spec text ws (ws - normOverlap ws overlap)
              ltac:(lia) ltac:(lia) (String.length text) 0 0 []
              (Z.le_refl 0) Hfuel Hcov0 (Forall_nil _))
    as [result [Hres [Hcov Hwf]]].
  exists result. split; [exact Hres|]. split; [exact Hcov|].
    intros w Hin. rewrite Forall_forall in Hwf.
    destruct (Hwf w Hin) as (H1 & H2 & H3 & H4 & _). lia.
Qed.

(** The text of three characters "a b", with windows of two characters that
    overlap by one. *)
Lemma createWindows_coverage_witness :
  hasNonWhiteSpace "a b" = true /\
  exists windows,
    createWindows "a b" 2 1 = Some windows /\
    (forall p, 0 <= p < len "a b" -> covered windows p) /\
    (forall w, In w windows ->
       0 <= w_start w < w_end w /\ w_end w <= len "a b" /\
       w_end w - w_start w <= normWindowSize 2).
Proof.
  split; [reflexivity | apply (createWindows_coverage "a b" 2 1); reflexivity].
Defined.

(** C2 (Scenario A), as the code has it. A text of 4500 characters that is
    not blank, windowSize 2000 and overlap 200: exactly three windows, [0,2000),
    [1800,3800) and [2500,4500); the last one is shifted back to start at
    text.length - windowSize, so that it is a full window that ends at
    character 4500. *)
Theorem createWindows_scenario_A text :
  len text = 4500 ->
  hasNonWhiteSpace text = true ->
  createWindows text 2000 200 =
    Some [ mkWindow 0 0 2000 2000 (slice text 0 2000);
           mkWindow 1 1800 3800 2000 (slice text 1800 3800);
           mkWindow 2 2500 4500 2000 (sliceFrom text 2500) ] /\
  option_map (map range) (createWindows text 2000 200) =
    Some [ (0, 2000); (1800, 3800); (2500, 4500) ].
Proof.
  intros Hlen Hne.
  assert (H : createWindows text 2000 200 =
    Some [ mkWindow 0 0 2000 2000 (slice text 0 2000);
           mkWindow 1 1800 3800 2000 (slice text 1800 3800);
           mkWindow 2 2500 4500 2000 (sliceFrom text 2500) ]).
  { unfold createWindows.
    rewrite (trim_nonblank _ Hne), (nonblank_truthy _ Hne). cbn [negb orb].
    change (normWindowSize 2000) with 2000.
    change (normOverlap 2000 200) with 200.
    cbv zeta. change (2000 - 200) with 1800.
    assert (Hf : exists n, String.length text = S (S n))
      by (exists (String.length text - 2)%nat; unfold len in Hlen; lia).
    destruct Hf as [n ->].
    do 2 (rewrite createWindows_loop_unfold; cbv zeta;
          rewrite ?lastWindow_snoc, ?Hlen;
          cbn -[slice sliceFrom createWindows_loop]).
    reflexivity. }
  split; [exact H | rewrite H; reflexivity].
Qed.

Lemma createWindows_scenario_A_witness :
  let text := textOf "x" 4500 in
  len text = 4500 /\ hasNonWhiteSpace text = true /\
  createWindows text 2000 200 =
    Some [ mkWindow 0 0 2000 2000 (slice text 0 2000);
           mkWindow 1 1800 3800 2000 (slice text 1800 3800);
           mkWindow 2 2500 4500 2000 (sliceFrom text 2500) ] /\
  option_map (map range) (createWindows text 2000 200) =
    Some [ (0, 2000); (1800, 3800); (2500, 4500) ].
Proof.
  cbv zeta. split; [vm_compute; reflexivity|]. split; [vm_compute; reflexivity|].
  apply (createWindows_scenario_A (textOf "x" 4500)); vm_compute; reflexivity.
Defined.

(** Scenario A as the specification words it fails: on the text of 4500
    characters "x" the third window is not [2700,4500). *)
Lemma createWindows_scenario_A_counterexample :
  len (textOf "x" 4500) = 4500 /\
  hasNonWhiteSpace (textOf "x" 4500) = true /\
  option_map (map range) (createWindows (textOf "x" 4500) 2000 200) <>
    Some [ (0, 2000); (1800, 3800); (2700, 4500) ].
Proof.
  split; [vm_compute; reflexivity|]. split; [vm_compute; reflexivity|].
  vm_compute. discriminate.
Qed.

(** ** Deduplication *)

Lemma truthyStr_true s : truthyStr s = true <-> s <> "".
Proof.
  unfold truthyStr. destruct (String.eqb_spec s ""); simpl; split; intros H;
    try discriminate; try reflexivity; congruence.
Qed.

Lemma Qltb_false x y : Qltb x y = false <-> (y <= x)%Q.
Proof.
  unfold Qltb. rewrite negb_false_iff. apply Qle_bool_iff.
Qed.

Lemma optStr_eqb_eq a b : optStr_eqb a b = true <-> a = b.
Proof.
  destruct a as [x|], b as [y|]; simpl; try (split; [discriminate|discriminate]);
    try (split; reflexivity).
  rewrite String.eqb_eq. split; [intros ->; reflexivity | intros [=]; assumption].
Qed.

Lemma idHas_In ids i : idHas ids i = true <-> In i ids.
Proof.
  unfold idHas. rewrite existsb_exists. split.
  - intros [x [Hin Hx]]. apply optStr_eqb_eq in Hx. subst. exact Hin.
  - intros Hin. exists i. split; [exact Hin | apply optStr_eqb_eq; reflexivity].
Qed.

Lemma idAdd_In i j ids : In i (idAdd j ids) -> i = j \/ In i ids.
Proof.
  unfold idAdd. destruct (idHas ids j); [now right|].
  intros H. apply in_app_or in H. destruct H as [H|[H|[]]]; [now right | now left].
Qed.

(** With DOIs that differ the DOI test fails. *)
Lemma distinctDOIs_doiMatch e1 e2 : distinctDOIs e1 e2 -> doiMatch e1 e2 = false.
Proof.
  intros (d1 & d2 & H1 & H2 & _ & _ & Hne). unfold doiMatch. rewrite H1, H2.
  destruct (String.eqb_spec (toLowerCase d1) (toLowerCase d2)); [contradiction|].
  now rewrite andb_false_r.
Qed.

Lemma distinctDOIs_sym e1 e2 : distinctDOIs e1 e2 -> distinctDOIs e2 e1.
Proof.
  intros (d1 & d2 & H1 & H2 & N1 & N2 & Hne).
  exists d2, d1. repeat split; auto.
Qed.

(** An id added by the inner loop is the id of a member of a pair that the
    strict rule matches. *)
Lemma dedupInner_sound ext1 rest : forall ids i,
  In i (dedupInner ext1 rest ids) ->
  In i ids \/
  exists ext2, In ext2 rest /\ truthyB (error ext2) = false /\
    extractionsAreDuplicates ext1 ext2 = true /\ (i = id ext1 \/ i = id ext2).
Proof.
  induction rest as [|ext2 rest IH]; intros ids i Hi; simpl in Hi.
  - now left.
  - destruct (truthyB (error ext2)) eqn:Herr; simpl in Hi.
    + destruct (IH _ _ Hi) as [H|(x & Hx & H)]; [now left|].
      right. exists x. split; [now right | exact H].
    + destruct (idHas ids (id ext2)) eqn:Hhas.
      * destruct (IH _ _ Hi) as [H|(x & Hx & H)]; [now left|].
        right. exists x. split; [now right | exact H].
      * destruct (extractionsAreDuplicates ext1 ext2) eqn:Hdup.
        -- destruct (Qle_bool (scoreExtraction ext2) (scoreExtraction ext1)).
           ++ destruct (IH _ _ Hi) as [H|(x & Hx & H)].
              ** apply idAdd_In in H. destruct H as [H|H]; [|now left].
                 right. exists ext2. split; [now left|]. auto.
              ** right. exists x. split; [now right | exact H].
           ++ apply idAdd_In in Hi. destruct Hi as [H|H]; [|now left].
              right. exists ext2. split; [now left|]. auto.
        -- destruct (IH _ _ Hi) as [H|(x & Hx & H)]; [now left|].
           right. exists x. split; [now right | exact H].
Qed.

(** The same for the whole pass: the pair is made of an extraction of the
    list and one that comes after it. *)
Lemma dedupOuter_sound exts : forall ids i,
  In i (dedupOuter exts ids) ->
  In i ids \/
  exists before ext1 rest ext2,
    exts = before ++ ext1 :: rest /\ In ext2 rest /\
    truthyB (error ext1) = false /\ truthyB (error ext2) = false /\
    extractionsAreDuplicates ext1 ext2 = true /\ (i = id ext1 \/ i = id ext2).
Proof.
  induction exts as [|ext1 rest IH]; intros ids i Hi; simpl in Hi.
  - now left.
  - assert (Hlift : forall ids',
      In i (dedupOuter rest ids') ->
      In i ids' \/
      exists before a rest' b,
        ext1 :: rest = before ++ a :: rest' /\ In b rest' /\
        truthyB (error a) = false /\ truthyB (error b) = false /\
        extractionsAreDuplicates a b = true /\ (i = id a \/ i = id b)).
    { intros ids' H. destruct (IH _ _ H) as [H'|(before & a & rest' & b & Heq & H')];
        [now left|].
      right. exists (ext1 :: before), a, rest', b. rewrite Heq. split; [reflexivity|exact H']. }
    destruct (truthyB (error ext1)) eqn:Herr; simpl in Hi.
    + apply Hlift, Hi.
    + destruct (idHas ids (id ext1)).
      * apply Hlift, Hi.
      * destruct (Hlift _ Hi) as [H|H]; [|now right].
        destruct (dedupInner_sound _ _ _ _ H) as [H'|(b & Hb & Hbe & Hdup & Hid)];
          [now left|].
        right. exists [], ext1, rest, b. repeat split; auto.
Qed.

Lemma NoDup_map_inj {A B} (f : A -> B) l x y :
  NoDup (map f l) -> In x l -> In y l -> f x = f y -> x = y.
Proof.
  induction l as [|a l IH]; simpl; intros Hnd Hx Hy Hf; [contradiction|].
  inversion Hnd as [|? ? Hnotin Hnd']; subst.
  destruct Hx as [->|Hx], Hy as [->|Hy]; auto.
  - exfalso. apply Hnotin. rewrite Hf. now apply in_map.
  - exfalso. apply Hnotin. rewrite <- Hf. now apply in_map.
Qed.

Lemma NoDup_map_split {A B} (f : A -> B) before x rest y :
  NoDup (map f (before ++ x :: rest)) -> In y rest -> f x <> f y.
Proof.
  rewrite map_app. simpl. intros Hnd Hy Heq.
  apply NoDup_remove_2 in Hnd. apply Hnd.
  apply in_or_app. right. rewrite Heq. now apply in_map.
Qed.

(** C1 as the specification words it fails: [paperA] and [paperB] are not
    errors and carry DOIs that differ, yet deduplication removes [paperA] as
    the duplicate of [paperB], because title and first author agree. *)
Lemma dedup_distinct_doi_counterexample :
  truthyB (error paperA) = false /\ truthyB (error paperB) = false /\
  distinctDOIs paperA paperB /\
  extractions (fst (deduplicateExtractions
                      (mkState [paperA; paperB] [paperA; paperB] false)))
    = [paperB] /\
  snd (deduplicateExtractions
         (mkState [paperA; paperB] [paperA; paperB] false)) = 1.
Proof.
  split; [reflexivity|]. split; [reflexivity|]. split.
  - exists "10.1000/a", "10.1000/b".
    repeat split; try reflexivity; try discriminate.
  - split; vm_compute; reflexivity.
Qed.

(** ** The strict rule without identifiers *)

Lemma titleAuthorYearMatch_iff e1 e2 :
  titleAuthorYearMatch e1 e2 = true <-> titleRule calculateSimilarity e1 e2.
Proof.
  unfold titleAuthorYearMatch, titleRule. split.
  - destruct (title e1) as [t1|] eqn:Ht1; [|discriminate].
    destruct (title e2) as [t2|] eqn:Ht2; [|discriminate].
    destruct (truthyStr t1) eqn:T1; [|discriminate].
    destruct (truthyStr t2) eqn:T2; [|discriminate]. cbn [negb orb]. cbv zeta.
    destruct (Qltb _ _) eqn:Hsim; [discriminate|].
    destruct (hasAuthors e1) eqn:A1; [|discriminate].
    destruct (hasAuthors e2) eqn:A2; [|discriminate]. cbn [andb].
    destruct (sameFirstAuthor e1 e2) eqn:Hsame; [|discriminate]. cbn [negb].
    intros Hy. split; [|split].
    + exists t1, t2. repeat split; try (apply truthyStr_true; assumption).
      apply Qltb_false, Hsim.
    + unfold sameFirstAuthor in Hsame.
      destruct (firstAuthorFamily e1) as [a1|]; [|discriminate].
      destruct (firstAuthorFamily e2) as [a2|]; [|discriminate].
      apply andb_true_iff in Hsame. destruct Hsame as [Hsame Heq].
      apply andb_true_iff in Hsame. destruct Hsame as [N1 N2].
      apply String.eqb_eq in Heq. subst a2.
      exists a1. repeat split. apply truthyStr_true, N1.
    + intros y1 y2 Y1 Y2 TY1 TY2. rewrite Y1, Y2 in Hy.
      rewrite TY1, TY2 in Hy. cbn [andb] in Hy.
      destruct (String.eqb_spec (String_of y1) (String_of y2)); [assumption|].
      discriminate Hy.
  - intros [(t1 & t2 & Ht1 & Ht2 & N1 & N2 & Hsim)
            [(a & A1 & A2 & F1 & F2 & Na) Hy]].
    rewrite Ht1, Ht2.
    apply truthyStr_true in N1. apply truthyStr_true in N2.
    rewrite N1, N2. cbn [negb orb]. cbv zeta.
    apply Qltb_false in Hsim. rewrite Hsim, A1, A2. cbn [andb].
    unfold sameFirstAuthor. rewrite F1, F2.
    apply truthyStr_true in Na. rewrite Na, String.eqb_refl. cbn [andb negb].
    destruct (year e1) as [y1|] eqn:Y1; [|reflexivity].
    destruct (year e2) as [y2|] eqn:Y2; [|reflexivity].
    destruct (truthy (Some y1)) eqn:TY1; [|reflexivity].
    destruct (truthy (Some y2)) eqn:TY2; [|reflexivity].
    rewrite (Hy y1 y2 eq_refl eq_refl TY1 TY2), String.eqb_refl. reflexivity.
Qed.

(** C3, as the code has it. When no identifier (DOI, PMID, ISBN) of two
    extractions matches, they are duplicates if and only if both titles are
    present and their similarity under [calculateSimilarity] (the share of
    the longer title that the shorter one fills when it is contained in it,
    else the share of characters matched in order), taken on the lowercased
    and trimmed titles, is at least 0.8, the first-author family names are
    present and equal, and the years are equal whenever both are present;
    and a side without authors rules the pair out. *)
Theorem strict_rule_without_identifier e1 e2 :
  noIdentifierMatch e1 e2 ->
  (extractionsAreDuplicates e1 e2 = true <->
   titleRule calculateSimilarity e1 e2) /\
  (hasAuthors e1 = false \/ hasAuthors e2 = false ->
   extractionsAreDuplicates e1 e2 = false).
Proof.
  intros (Hd & Hp & Hi).
  assert (Heq : extractionsAreDuplicates e1 e2 = titleAuthorYearMatch e1 e2)
    by (unfold extractionsAreDuplicates; rewrite Hd, Hp, Hi; reflexivity).
  rewrite Heq. split; [apply titleAuthorYearMatch_iff|].
  intros Hno. destruct (titleAuthorYearMatch e1 e2) eqn:H; [|reflexivity].
  apply titleAuthorYearMatch_iff in H.
  destruct H as [_ [(a & A1 & A2 & _) _]]. destruct Hno; congruence.
Qed.

Lemma strict_rule_without_identifier_witness :
  noIdentifierMatch draftA draftB /\
  (extractionsAreDuplicates draftA draftB = true <->
   titleRule calculateSimilarity draftA draftB) /\
  (hasAuthors draftA = false \/ hasAuthors draftB = false ->
   extractionsAreDuplicates draftA draftB = false).
Proof.
  assert (H : noIdentifierMatch draftA draftB) by (repeat split; reflexivity).
  split; [exact H | apply (strict_rule_without_identifier draftA draftB H)].
Defined.

(** C3 as the specification words it fails: [draftA] and [draftB] share no
    identifier and are duplicates, but the token overlap of their titles
    ([stringSimilarity]) is 0, not 0.8 or more. *)
Lemma strict_rule_jaccard_counterexample :
  noIdentifierMatch draftA draftB /\
  extractionsAreDuplicates draftA draftB = true /\
  ~ titleRule stringSimilarity draftA draftB.
Proof.
  split; [repeat split; reflexivity|]. split; [vm_compute; reflexivity|].
  intros [(t1 & t2 & Ht1 & Ht2 & _ & _ & Hsim) _].
  vm_compute in Ht1, Ht2. injection Ht1 as <-. injection Ht2 as <-.
  vm_compute in Hsim. apply Hsim. reflexivity.
Qed.

(** ** Merge *)

Lemma fillMissingS_filled p s : filledFrom truthyS p s (fillMissingS p s).
Proof.
  unfold filledFrom, fillMissingS.
  destruct (truthyS p), (truthyS s); simpl; repeat split; congruence.
Qed.

Lemma fillMissing_filled p s : filledFrom truthy p s (fillMissing p s).
Proof.
  unfold filledFrom, fillMissing.
  destruct (truthy p), (truthy s); simpl; repeat split; congruence.
Qed.

Lemma mergeRawText_keeps s e :
  keepsMarkers e (mergeRawText s e) /\ keepsSimpleFields e (mergeRawText s e).
Proof. keeps mergeRawText. Qed.

Lemma mergeTitle_keeps s e :
  keepsMarkers e (mergeTitle s e) /\ keepsSimpleFields e (mergeTitle s e) /\
  raw_text (mergeTitle s e) = raw_text e.
Proof. keeps mergeTitle. Qed.

Lemma mergeTextFields_keeps s e :
  keepsMarkers e (mergeTextFields s e) /\
  keepsSimpleFields e (mergeTextFields s e) /\
  raw_text (mergeTextFields s e) = raw_text e.
Proof. keeps mergeTextFields. Qed.

Lemma mergeSimpleFields_keeps s e :
  keepsMarkers e (mergeSimpleFields s e) /\
  raw_text (mergeSimpleFields s e) = raw_text e.
Proof. keeps mergeSimpleFields. Qed.

Lemma mergeAuthors_keeps s e :
  keepsMarkers e (mergeAuthors s e) /\ keepsSimpleFields e (mergeAuthors s e) /\
  raw_text (mergeAuthors s e) = raw_text e.
Proof. keeps mergeAuthors. Qed.

Lemma mergeTruncated_keeps s e :
  keepsMarkers e (mergeTruncated s e) /\
  keepsSimpleFields e (mergeTruncated s e) /\
  raw_text (mergeTruncated s e) = raw_text e.
Proof. keeps mergeTruncated. Qed.

Lemma keepsMarkers_trans a b c :
  keepsMarkers a b -> keepsMarkers b c -> keepsMarkers a c.
Proof. unfold keepsMarkers. intuition congruence. Qed.

Lemma keepsSimpleFields_trans a b c :
  keepsSimpleFields a b -> keepsSimpleFields b c -> keepsSimpleFields a c.
Proof. unfold keepsSimpleFields. intuition congruence. Qed.

Lemma merge_markers primary secondary :
  positionIs primary "end" = true ->
  let m := mergeExtractions primary secondary in
  complete m = Some true /\ position m = None /\ reason m = None.
Proof.
  intros Hpos. unfold mergeExtractions. rewrite Hpos. cbv zeta.
  set (e0 := markComplete primary).
  set (e1 := mergeRawText secondary e0). set (e2 := mergeTitle secondary e1).
  set (e3 := mergeTextFields secondary e2).
  set (e4 := mergeSimpleFields secondary e3).
  set (e5 := mergeAuthors secondary e4).
  assert (H : keepsMarkers e0 (mergeTruncated secondary e5)).
  { repeat (eapply keepsMarkers_trans;
            [|first [ apply mergeTruncated_keeps | apply mergeAuthors_keeps
                    | apply mergeSimpleFields_keeps | apply mergeTextFields_keeps
                    | apply mergeTitle_keeps ]]).
    apply mergeRawText_keeps. }
  destruct H as (-> & -> & ->). repeat split; reflexivity.
Qed.

Lemma mergeSimpleFields_fills s e :
  let m := mergeSimpleFields s e in
  doi m = fillMissingS (doi e) (doi s) /\
  pmid m = fillMissing (pmid e) (pmid s) /\
  isbn m = fillMissingS (isbn e) (isbn s) /\
  year m = fillMissing (year e) (year s) /\
  volume m = fillMissing (volume e) (volume s) /\
  issue m = fillMissing (issue e) (issue s) /\
  pages m = fillMissing (pages e) (pages s).
Proof. unfold mergeSimpleFields. cbn. repeat split; reflexivity. Qed.

Lemma merge_simple_fields primary secondary :
  positionIs primary "end" = true ->
  let m := mergeExtractions primary secondary in
  doi m = fillMissingS (doi primary) (doi secondary) /\
  pmid m = fillMissing (pmid primary) (pmid secondary) /\
  isbn m = fillMissingS (isbn primary) (isbn secondary) /\
  year m = fillMissing (year primary) (year secondary) /\
  volume m = fillMissing (volume primary) (volume secondary) /\
  issue m = fillMissing (issue primary) (issue secondary) /\
  pages m = fillMissing (pages primary) (pages secondary).
Proof.
  intros Hpos. unfold mergeExtractions. rewrite Hpos. cbv zeta.
  set (e0 := markComplete primary).
  set (e1 := mergeRawText secondary e0). set (e2 := mergeTitle secondary e1).
  set (e3 := mergeTextFields secondary e2).
  set (e4 := mergeSimpleFields secondary e3).
  set (e5 := mergeAuthors secondary e4).
  assert (Hafter : keepsSimpleFields e4 (mergeTruncated secondary e5)).
  { eapply keepsSimpleFields_trans;
      [apply mergeAuthors_keeps | apply mergeTruncated_keeps]. }
  assert (Hbefore : keepsSimpleFields primary e3).
  { eapply keepsSimpleFields_trans;
      [|eapply keepsSimpleFields_trans;
          [|eapply keepsSimpleFields_trans;
              [apply mergeRawText_keeps
              |eapply keepsSimpleFields_trans;
                 [apply mergeTitle_keeps | apply mergeTextFields_keeps]]]].
    - unfold keepsSimpleFields. repeat split; reflexivity.
    - unfold keepsSimpleFields. repeat split; reflexivity. }
  destruct Hafter as (-> & -> & -> & -> & -> & -> & ->).
  destruct Hbefore as (B1 & B2 & B3 & B4 & B5 & B6 & B7).
  unfold e4.
  destruct (mergeSimpleFields_fills secondary e3)
    as (-> & -> & -> & -> & -> & -> & ->).
  rewrite B1, B2, B3, B4, B5, B6, B7. repeat split; reflexivity.
Qed.

Lemma merge_raw_text primary secondary :
  positionIs primary "end" = true ->
  raw_text (mergeExtractions primary secondary) =
    if truthyS (raw_text primary) && truthyS (raw_text secondary) then
      Some (joinLines (orEmpty (raw_text primary)) (orEmpty (raw_text secondary)))
    else if truthyS (raw_text secondary) then raw_text secondary
    else raw_text primary.
Proof.
  intros Hpos. unfold mergeExtractions. rewrite Hpos. cbv zeta.
  destruct (mergeTruncated_keeps secondary
              (mergeAuthors secondary (mergeSimpleFields secondary
                 (mergeTextFields secondary (mergeTitle secondary
                    (mergeRawText secondary (markComplete primary)))))))
    as (_ & _ & ->).
  destruct (mergeAuthors_keeps secondary
              (mergeSimpleFields secondary
                 (mergeTextFields secondary (mergeTitle secondary
                    (mergeRawText secondary (markComplete primary))))))
    as (_ & _ & ->).
  destruct (mergeSimpleFields_keeps secondary
              (mergeTextFields secondary (mergeTitle secondary
                 (mergeRawText secondary (markComplete primary)))))
    as (_ & ->).
  destruct (mergeTextFields_keeps secondary
              (mergeTitle secondary
                 (mergeRawText secondary (markComplete primary))))
    as (_ & _ & ->).
  destruct (mergeTitle_keeps secondary
              (mergeRawText secondary (markComplete primary)))
    as (_ & _ & ->).
  unfold mergeRawText, joinLines.
  change (raw_text (markComplete primary)) with (raw_text primary).
  destruct (truthyS (raw_text primary)), (truthyS (raw_text secondary));
    reflexivity.
Qed.

(** C5. Merging a [position = "end"] extraction (the primary) with another
    (the secondary, the [position = "start"] one) gives a record with
    [complete = true] and neither [position] nor [reason]; its [raw_text] is
    the primary's, a newline and the secondary's when both are present, else
    the one that is present; [doi], [pmid], [isbn], [year], [volume], [issue]
    and [pages] keep the primary's value when it is present and take the
    secondary's only when the primary's is empty; and the two extractions of
    Scenario B merge to [complete = true] with the two texts on two lines. *)
Theorem mergeExtractions_end_start primary secondary :
  positionIs primary "end" = true ->
  positionIs secondary "start" = true ->
  let m := mergeExtractions primary secondary in
  (complete m = Some true /\ position m = None /\ reason m = None) /\
  ((forall p s, raw_text primary = Some p -> raw_text secondary = Some s ->
      p <> "" -> s <> "" -> raw_text m = Some (joinLines p s)) /\
   (truthyS (raw_text primary) = false -> truthyS (raw_text secondary) = true ->
      raw_text m = raw_text secondary) /\
   (truthyS (raw_text secondary) = false -> raw_text m = raw_text primary)) /\
  (filledFrom truthyS (doi primary) (doi secondary) (doi m) /\
   filledFrom truthy (pmid primary) (pmid secondary) (pmid m) /\
   filledFrom truthyS (isbn primary) (isbn secondary) (isbn m) /\
   filledFrom truthy (year primary) (year secondary) (year m) /\
   filledFrom truthy (volume primary) (volume secondary) (volume m) /\
   filledFrom truthy (issue primary) (issue secondary) (issue m) /\
   filledFrom truthy (pages primary) (pages secondary) (pages m)) /\
  mergeExtractions secondary primary = m /\
  (let b := mergeExtractions scenarioB_end scenarioB_start in
   complete b = Some true /\
   raw_text b = Some (joinLines "Smith J. Intro to" "Foo. Nature 2020") /\
   position b = None /\ reason b = None /\ doi b = Some "10.1/x").
Proof.
  intros Hend Hstart m. subst m.
  split; [apply merge_markers, Hend|]. split; [|split; [|split]].
  - rewrite (merge_raw_text _ _ Hend). repeat split.
    + intros p s -> -> Np Ns. cbn [truthyS orEmpty].
      apply truthyStr_true in Np. apply truthyStr_true in Ns.
      rewrite Np, Ns. reflexivity.
    + intros -> ->. reflexivity.
    + intros ->. rewrite andb_false_r. reflexivity.
  - destruct (merge_simple_fields primary secondary Hend)
      as (-> & -> & -> & -> & -> & -> & ->).
    repeat split; try apply fillMissingS_filled; apply fillMissing_filled.
  - unfold mergeExtractions. rewrite Hend.
    assert (Hs : positionIs secondary "end" = false).
    { unfold positionIs in *. destruct (position secondary) as [p|]; [|reflexivity].
      simpl in *. apply String.eqb_eq in Hstart. subst p. reflexivity. }
    rewrite Hs. reflexivity.
  - vm_compute. repeat split; reflexivity.
Qed.

Lemma mergeExtractions_end_start_witness :
  let m := mergeExtractions scenarioB_end scenarioB_start in
  positionIs scenarioB_end "end" = true /\
  positionIs scenarioB_start "start" = true /\
  complete m = Some true /\
  raw_text m = Some (joinLines "Smith J. Intro to" "Foo. Nature 2020") /\
  doi m = Some "10.1/x".
Proof.
  pose proof (mergeExtractions_end_start scenarioB_end scenarioB_start
                eq_refl eq_refl) as H.
  cbv zeta in H. destruct H as [[Hc _] [[Hr _] [[Hd _] _]]].
  cbv zeta. split; [reflexivity|]. split; [reflexivity|].
  split; [exact Hc|]. split.
  - apply (Hr "Smith J. Intro to" "Foo. Nature 2020");
      [reflexivity | reflexivity | discriminate | discriminate].
  - destruct Hd as [Hd _]. rewrite (Hd eq_refl). reflexivity.
Defined.

(** ** Match score *)

Lemma accumulateScores_loop e v :
  accumulateScores e v = accumulateOver allFields e v (mkScoreAcc [] 0 0).
Proof. reflexivity. Qed.

Lemma accumulateOver_spec e v fs : forall a,
  let r := accumulateOver fs e v a in
  let cs := filter (fun f => compared f e v) fs in
  fieldScores r = fieldScores a ++ map (fun f => (f, fieldScore f e v)) cs /\
  (totalWeight r == totalWeight a + sumQ (map FIELD_WEIGHTS cs))%Q /\
  (weightedSum r ==
   weightedSum a + sumQ (map (fun f => fieldScore f e v * FIELD_WEIGHTS f) cs))%Q.
Proof.
  induction fs as [|f fs IH]; intros a; cbn [accumulateOver fold_left filter].
  - cbn. rewrite app_nil_r. repeat split; ring.
  - specialize (IH (compareField f (compared f e v) (fieldScore f e v) a)).
    cbv zeta in IH. unfold accumulateOver in IH. destruct IH as (IH1 & IH2 & IH3).
    cbv zeta. unfold accumulateOver.
    rewrite IH1, IH2, IH3. unfold compareField.
    destruct (compared f e v); cbn [fieldScores totalWeight weightedSum map sumQ fold_right].
    + rewrite <- app_assoc. repeat split; try reflexivity; unfold sumQ; ring.
    + repeat split; reflexivity.
Qed.

Lemma FIELD_WEIGHTS_pos f : (0 < FIELD_WEIGHTS f)%Q.
Proof. destruct f; reflexivity. Qed.

Lemma sum_weights_pos fs : fs <> [] -> (0 < sumQ (map FIELD_WEIGHTS fs))%Q.
Proof.
  induction fs as [|f fs IH]; [congruence|]. intros _. cbn [map sumQ fold_right].
  pose proof (FIELD_WEIGHTS_pos f).
  destruct fs as [|g fs'].
  - cbn. lra.
  - assert (0 < sumQ (map FIELD_WEIGHTS (g :: fs')))%Q by (apply IH; discriminate).
    unfold sumQ in *. lra.
Qed.

Lemma Qltb_true x y : Qltb x y = true <-> (x < y)%Q.
Proof.
  unfold Qltb. rewrite negb_true_iff. split.
  - intros H. apply Qnot_le_lt. intros Hle. apply Qle_bool_iff in Hle. congruence.
  - intros H. destruct (Qle_bool y x) eqn:E; [|reflexivity].
    apply Qle_bool_iff in E. lra.
Qed.

(** The overall score, in the words of the specification. *)
Lemma overall_weighted e v :
  let m := scoreOf (accumulateScores e v) in
  fields m = map (fun f => (f, fieldScore f e v)) (comparedFields e v) /\
  fieldsCompared m = Z.of_nat (List.length (comparedFields e v)) /\
  (comparedFields e v <> [] ->
   overall m == weightedScores e v / comparedWeights e v)%Q /\
  (comparedFields e v = [] -> overall m == 0)%Q.
Proof.
  cbv zeta. rewrite accumulateScores_loop.
  destruct (accumulateOver_spec e v allFields (mkScoreAcc [] 0 0)) as (H1 & H2 & H3).
  cbv zeta in H1, H2, H3. cbn [fieldScores totalWeight weightedSum app] in H1, H2, H3.
  fold (comparedFields e v) in H1, H2, H3.
  unfold scoreOf. cbn [fields fieldsCompared overall].
  split; [exact H1|]. split; [rewrite H1, length_map; reflexivity|].
  rewrite Qplus_0_l in H2, H3. split.
  - intros Hne. pose proof (sum_weights_pos _ Hne) as Hpos.
    assert (Hlt : Qltb 0 (totalWeight (accumulateOver allFields e v (mkScoreAcc [] 0 0))) = true)
      by (apply Qltb_true; rewrite H2; exact Hpos).
    rewrite Hlt. unfold weightedScores, comparedWeights. rewrite H2, H3. reflexivity.
  - intros Hnil. rewrite Hnil in H2. cbn in H2.
    assert (Hlt : Qltb 0 (totalWeight (accumulateOver allFields e v (mkScoreAcc [] 0 0))) = false)
      by (apply Qltb_false; rewrite H2; lra).
    rewrite Hlt. reflexivity.
Qed.

Lemma getValidationStatus_verdict m lookupMethod :
  let status := fst (getValidationStatus m lookupMethod) in
  ((90 # 100 <= overall m)%Q -> status = valid) /\
  ((70 # 100 <= overall m)%Q /\ (overall m < 90 # 100)%Q -> status = suspicious) /\
  ((overall m < 70 # 100)%Q -> status = mismatch).
Proof.
  cbv zeta. unfold getValidationStatus, THRESHOLDS_valid, THRESHOLDS_suspicious.
  destruct (Qle_bool (90 # 100) (overall m)) eqn:Hv;
    destruct (Qle_bool (70 # 100) (overall m)) eqn:Hs; cbn [fst];
    try apply Qle_bool_iff in Hv; try apply Qle_bool_iff in Hs;
    repeat split; intros H; try reflexivity; exfalso;
    try (assert (Hv' : Qle_bool (90 # 100) (overall m) = true)
           by (apply Qle_bool_iff; lra); congruence);
    try (assert (Hs' : Qle_bool (70 # 100) (overall m) = true)
           by (apply Qle_bool_iff; lra); congruence);
    lra.
Qed.

(** *** The scores of the fields lie between 0 and 1 *)

Lemma setHas_In s x : setHas s x = true <-> In x s.
Proof.
  unfold setHas. rewrite existsb_exists. split.
  - intros [y [Hin Hy]]. apply String.eqb_eq in Hy. subst. exact Hin.
  - intros Hin. exists x. split; [exact Hin | apply String.eqb_refl].
Qed.

Lemma setAdd_NoDup x s : NoDup s -> NoDup (setAdd x s).
Proof.
  intros Hnd. unfold setAdd. destruct (existsb (String.eqb x) s) eqn:E; [exact Hnd|].
  apply NoDup_app; [exact Hnd | repeat constructor; intros [] |].
  intros y Hy [Heq|[]]. subst y.
  assert (setHas s x = true) by (apply setHas_In; exact Hy).
  unfold setHas in *. congruence.
Qed.

Lemma setOf_NoDup words : NoDup (setOf words).
Proof.
  unfold setOf. assert (H : NoDup (@nil string)) by constructor.
  revert H. generalize (@nil string).
  induction words as [|w ws IH]; intros s Hs; simpl; [exact Hs|].
  apply IH, setAdd_NoDup, Hs.
Qed.

Lemma stringSimilarity_bounds a b : (0 <= stringSimilarity a b <= 1)%Q.
Proof.
  unfold stringSimilarity.
  destruct (negb (truthyStr a) || negb (truthyStr b)); [lra|]. cbv zeta.
  set (w1 := setOf (splitWhiteSpace (toLowerCase a))).
  set (w2 := setOf (splitWhiteSpace (toLowerCase b))).
  set (inter := filter (setHas w2) w1).
  assert (H1 : (List.length inter <= List.length w1)%nat) by apply filter_length_le.
  assert (H2 : (List.length inter <= List.length w2)%nat).
  { apply NoDup_incl_length.
    - apply NoDup_filter, setOf_NoDup.
    - intros x Hx. apply filter_In in Hx. apply setHas_In, Hx. }
  destruct (Z.gtb_spec (Z.of_nat (List.length w1) + Z.of_nat (List.length w2)
                        - Z.of_nat (List.length inter)) 0) as [Hpos|_]; [|lra].
  set (u := Z.of_nat (List.length w1) + Z.of_nat (List.length w2)
            - Z.of_nat (List.length inter)) in *.
  assert (Hu : (inject_Z 0 < inject_Z u)%Q) by (rewrite <- Zlt_Qlt; lia).
  change (inject_Z 0) with 0%Q in Hu.
  split.
  - apply Qle_shift_div_l; [exact Hu|]. rewrite Qmult_0_l.
    change 0%Q with (inject_Z 0). rewrite <- Zle_Qle. lia.
  - apply Qle_shift_div_r; [exact Hu|]. rewrite Qmult_1_l.
    rewrite <- Zle_Qle. unfold u. lia.
Qed.

Lemma compareAuthors_bounds a b : (0 <= compareAuthors a b <= 1)%Q.
Proof.
  unfold compareAuthors. destruct a as [|e0 a]; [lra|]. destruct b as [|v0 b]; [lra|].
  destruct (negb _ || negb _); [lra|]. cbv zeta.
  pose proof (stringSimilarity_bounds (toLowerCase (n_family e0))
                (toLowerCase (n_family v0))).
  destruct (_ && _); [|assumption].
  pose proof (stringSimilarity_bounds
                (toLowerCase (n_family (last (e0 :: a) e0)))
                (toLowerCase (n_family (last (v0 :: b) v0)))).
  lra.
Qed.

Lemma fieldScore_bounds f e v : (0 <= fieldScore f e v <= 1)%Q.
Proof.
  destruct f; cbn [fieldScore].
  - apply stringSimilarity_bounds.
  - apply compareAuthors_bounds.
  - destruct (_ =? _); lra.
  - apply stringSimilarity_bounds.
  - destruct (String.eqb _ _); lra.
  - unfold comparePages. destruct (negb _ || negb _); [lra|].
    destruct (String.eqb _ _); lra.
Qed.

(** *** Sums over the fields *)

Lemma sumQ_filter (h : Field -> Q) (p : Field -> bool) l :
  (sumQ (map h (filter p l)) == sumQ (map (fun g => if p g then h g else 0) l))%Q.
Proof.
  induction l as [|g l IH]; cbn [filter map sumQ fold_right]; [reflexivity|].
  destruct (p g); cbn [map sumQ fold_right]; unfold sumQ in *; rewrite IH; ring.
Qed.

Lemma weightedScores_terms e v :
  (weightedScores e v == sumQ (map (termScore e v) allFields))%Q.
Proof. unfold weightedScores, comparedFields. apply sumQ_filter. Qed.

Lemma comparedWeights_terms e v :
  (comparedWeights e v == sumQ (map (termWeight e v) allFields))%Q.
Proof. unfold comparedWeights, comparedFields. apply sumQ_filter. Qed.

Lemma Field_eq_dec (f g : Field) : {f = g} + {f <> g}.
Proof. decide equality. Defined.

Lemma sumQ_add_at (f : Field) (t t' : Field -> Q) (x : Q) l :
  NoDup l -> In f l ->
  (t' f == t f + x)%Q ->
  (forall g, g <> f -> t' g == t g)%Q ->
  (sumQ (map t' l) == sumQ (map t l) + x)%Q.
Proof.
  intros Hnd Hin Hf Hg. revert Hin.
  assert (Hout : forall l, ~ In f l -> (sumQ (map t' l) == sumQ (map t l))%Q).
  { clear -Hg. induction l as [|g l IH]; intros Hn; cbn [map sumQ fold_right];
      [reflexivity|].
    unfold sumQ in *. rewrite IH, Hg; [reflexivity | | ];
      intros ?; apply Hn; [left; congruence | now right]. }
  induction Hnd as [|g l Hnotin Hnd IH]; intros Hin; [contradiction|].
  cbn [map sumQ fold_right]. destruct (Field_eq_dec g f) as [->|Hne].
  - unfold sumQ in *. rewrite Hf, (Hout l Hnotin). ring.
  - destruct Hin as [Heq|Hin]; [congruence|].
    unfold sumQ in *. rewrite (Hg g Hne), (IH Hin). ring.
Qed.

Lemma sumQ_le (t u : Field -> Q) l :
  (forall g, t g <= u g)%Q -> (sumQ (map t l) <= sumQ (map u l))%Q.
Proof.
  intros H. induction l as [|g l IH]; cbn [map sumQ fold_right]; [lra|].
  specialize (H g). unfold sumQ in *. lra.
Qed.

Lemma allFields_NoDup : NoDup allFields.
Proof. repeat constructor; simpl; intuition discriminate. Qed.

Lemma allFields_all f : In f allFields.
Proof. destruct f; simpl; tauto. Qed.

Lemma sameElsewhere_other f g e e' v v' :
  g <> f -> sameElsewhere f e e' -> sameElsewhere f v v' ->
  compared g e' v' = compared g e v /\ fieldScore g e' v' = fieldScore g e v.
Proof.
  intros Hne (E1 & E2 & E3 & E4 & E5 & E6) (V1 & V2 & V3 & V4 & V5 & V6).
  unfold compared.
  destruct g; cbn [nonEmpty fieldScore];
    [ rewrite E1, V1 | rewrite E2, V2 | rewrite E3, V3
    | rewrite E4, V4 | rewrite E5, V5 | rewrite E6, V6 ];
    try (split; reflexivity); congruence.
Qed.

Lemma ratio_grows (s w x : Q) :
  (0 < w -> 0 < x -> s <= w -> s / w <= (s + x) / (w + x))%Q.
Proof.
  intros Hw Hx Hs.
  assert (Hr : (s / w <= 1)%Q) by (apply Qle_shift_div_r; lra).
  assert (Hm : (s / w * w == s)%Q) by (field; lra).
  apply Qle_shift_div_l; [lra|]. nra.
Qed.

(** The same on two pairs of records of the common format. *)
Lemma overall_monotone f e v e' v' :
  sameElsewhere f e e' -> sameElsewhere f v v' ->
  compared f e v = false -> compared f e' v' = true ->
  (fieldScore f e' v' == 1)%Q ->
  (overall (scoreOf (accumulateScores e v))
   <= overall (scoreOf (accumulateScores e' v')))%Q.
Proof.
  intros He Hv Hold Hnew Hone.
  destruct (overall_weighted e v) as (_ & _ & Hw & Hz).
  destruct (overall_weighted e' v') as (_ & _ & Hw' & _).
  cbv zeta in Hw, Hz, Hw'.
  assert (Hne' : comparedFields e' v' <> []).
  { intros Hnil. assert (Hin : In f (comparedFields e' v'))
      by (apply filter_In; split; [apply allFields_all | exact Hnew]).
    rewrite Hnil in Hin. exact Hin. }
  rewrite (Hw' Hne'), weightedScores_terms, comparedWeights_terms.
  assert (HS : (sumQ (map (termScore e' v') allFields)
                == sumQ (map (termScore e v) allFields) + FIELD_WEIGHTS f)%Q).
  { apply (sumQ_add_at f); [apply allFields_NoDup | apply allFields_all | |].
    - unfold termScore. rewrite Hold, Hnew, Hone. ring.
    - intros g Hg. unfold termScore.
      destruct (sameElsewhere_other f g e e' v v' Hg He Hv) as [-> ->].
      reflexivity. }
  assert (HW : (sumQ (map (termWeight e' v') allFields)
                == sumQ (map (termWeight e v) allFields) + FIELD_WEIGHTS f)%Q).
  { apply (sumQ_add_at f); [apply allFields_NoDup | apply allFields_all | |].
    - unfold termWeight. rewrite Hold, Hnew. ring.
    - intros g Hg. unfold termWeight.
      destruct (sameElsewhere_other f g e e' v v' Hg He Hv) as [-> _].
      reflexivity. }
  rewrite HS, HW. pose proof (FIELD_WEIGHTS_pos f) as Hpos.
  assert (Hle : (sumQ (map (termScore e v) allFields)
                 <= sumQ (map (termWeight e v) allFields))%Q).
  { apply sumQ_le. intros g. unfold termScore, termWeight.
    destruct (compared g e v); [|lra].
    pose proof (fieldScore_bounds g e v). pose proof (FIELD_WEIGHTS_pos g). nra. }
  destruct (comparedFields e v) as [|g gs] eqn:Hcs.
  - rewrite (Hz eq_refl).
    assert (H0 : (sumQ (map (termWeight e v) allFields) == 0)%Q)
      by (rewrite <- comparedWeights_terms; unfold comparedWeights;
          rewrite Hcs; reflexivity).
    assert (H1 : (sumQ (map (termScore e v) allFields) == 0)%Q)
      by (rewrite <- weightedScores_terms; unfold weightedScores;
          rewrite Hcs; reflexivity).
    rewrite H0, H1. apply Qle_shift_div_l; lra.
  - rewrite Hw by discriminate.
    rewrite weightedScores_terms, comparedWeights_terms.
    apply ratio_grows; [|exact Hpos|exact Hle].
    rewrite <- comparedWeights_terms. unfold comparedWeights. rewrite Hcs.
    apply sum_weights_pos. discriminate.
Qed.

(** C9. Take a citation and a record, and a second pair that differs from
    the first in one field only: a field that was not compared, because one
    side lacked it, and that is now present on both sides with score 1.  The
    overall score of [computeMatchScore] on the second pair is not below the
    one on the first. *)
Theorem computeMatchScore_monotone f extracted validated extracted' validated' :
  sameElsewhere f (normalizeExtracted extracted) (normalizeExtracted extracted') ->
  sameElsewhere f validated validated' ->
  compared f (normalizeExtracted extracted) validated = false ->
  compared f (normalizeExtracted extracted') validated' = true ->
  (fieldScore f (normalizeExtracted extracted') validated' == 1)%Q ->
  (overall (computeMatchScore extracted validated)
   <= overall (computeMatchScore extracted' validated'))%Q.
Proof. unfold computeMatchScore. apply overall_monotone. Qed.

(** The citation gains the year 2020 of the record: the score goes from 7/9
    to 5/6. *)
Lemma computeMatchScore_monotone_witness :
  compared Fyear (normalizeExtracted cited) onRecord = false /\
  compared Fyear (normalizeExtracted citedWithYear) onRecord = true /\
  (fieldScore Fyear (normalizeExtracted citedWithYear) onRecord == 1)%Q /\
  (overall (computeMatchScore cited onRecord) == 7 # 9)%Q /\
  (overall (computeMatchScore citedWithYear onRecord) == 5 # 6)%Q /\
  (overall (computeMatchScore cited onRecord)
   <= overall (computeMatchScore citedWithYear onRecord))%Q.
Proof.
  split; [reflexivity|]. split; [reflexivity|].
  split; [vm_compute; reflexivity|].
  split; [vm_compute; reflexivity|]. split; [vm_compute; reflexivity|].
  apply (computeMatchScore_monotone Fyear cited onRecord citedWithYear onRecord).
  - unfold sameElsewhere. repeat apply conj; intros H;
      first [reflexivity | exfalso; apply H; reflexivity].
  - unfold sameElsewhere. repeat apply conj; intros H; reflexivity.
  - reflexivity.
  - reflexivity.
  - vm_compute. reflexivity.
Defined.

(** ** validateCitation *)

Lemma getValidationStatus_among m lookupMethod :
  In (fst (getValidationStatus m lookupMethod)) [valid; suspicious; mismatch].
Proof.
  unfold getValidationStatus.
  destruct (Qle_bool THRESHOLDS_valid (overall m)); [simpl; tauto|].
  destruct (Qle_bool THRESHOLDS_suspicious (overall m)); simpl; tauto.
Qed.

Lemma scoreAndSetStatus_settles normalized lookupMethod c :
  hasValidation (scoreAndSetStatus normalized lookupMethod c) /\
  statusAmong [valid; suspicious; mismatch]
    (scoreAndSetStatus normalized lookupMethod c).
Proof.
  unfold scoreAndSetStatus. cbv zeta.
  pose proof (getValidationStatus_among (computeMatchScore c normalized)
                lookupMethod) as Hin.
  destruct (getValidationStatus (computeMatchScore c normalized) lookupMethod)
    as [status message]. cbn [fst] in Hin. split.
  - eexists. reflexivity.
  - exists status. split; [reflexivity | exact Hin].
Qed.

Lemma set_v_openalex_keeps w c :
  validationStatus (set_v_openalex w c) = validationStatus c /\
  hasValidation (set_v_openalex w c).
Proof. split; [reflexivity | eexists; reflexivity]. Qed.

Lemma statusAmong_set_v_openalex statuses w c :
  statusAmong statuses c -> statusAmong statuses (set_v_openalex w c).
Proof. intros H. exact H. Qed.

Lemma lookupByDOI_absorbs S userEmail : absorbs (lookupByDOI S userEmail).
Proof.
  intros c Hv. unfold lookupByDOI.
  destruct (doi c) as [d|]; [|cbn; repeat split; [discriminate | exact Hv | discriminate]].
  destruct (truthyStr d); [|cbn; repeat split; [discriminate | exact Hv | discriminate]].
  unfold tryCatch, await, catchNull.
  destruct (crossref_lookupDOI S d userEmail) as [cr| |];
    destruct (openalex_lookupDOI S d userEmail) as [oa| |]; cbn [fst snd];
    try (repeat split; [discriminate | exact Hv | discriminate]).
  all: try (destruct (scoreAndSetStatus_settles (normalizeCrossRef cr)
                        "DOI verified via CrossRef" (set_v_crossref cr c))
              as [H1 H2]).
  all: try (destruct (scoreAndSetStatus_settles (normalizeOpenAlex oa)
                        "DOI verified via OpenAlex" (set_v_openalex oa c))
              as [H3 H4]).
  all: repeat split; try discriminate; intros; try assumption.
  all: try (eexists; reflexivity).
Qed.

Lemma lookupByPMID_absorbs S userEmail : absorbs (lookupByPMID S userEmail).
Proof.
  intros c Hv. unfold lookupByPMID.
  destruct (pmid c) as [p|]; [|cbn; repeat split; [discriminate | exact Hv | discriminate]].
  destruct (truthy (Some p)); [|cbn; repeat split; [discriminate | exact Hv | discriminate]].
  unfold tryCatch, await.
  destruct (openalex_lookupPMID S p userEmail) as [oa| |]; cbn [fst snd];
    try (repeat split; [discriminate | exact Hv | discriminate]).
  destruct (scoreAndSetStatus_settles (normalizeOpenAlex oa)
              "PMID verified via OpenAlex" (set_v_openalex oa c)) as [H1 H2].
  repeat split; try discriminate; intros; assumption.
Qed.

Lemma searchByQuery_absorbs S userEmail : absorbs (searchByQuery S userEmail).
Proof.
  intros c Hv. unfold searchByQuery.
  destruct (truthyS (query_bibliographic c) || truthyS (raw_text c));
    [|cbn; repeat split; [discriminate | exact Hv | discriminate]].
  unfold tryCatch, await. cbv zeta.
  destruct (crossref_searchBibliographic S _ userEmail) as [[|r rs]| |];
    cbn [fst snd];
    try (repeat split; [discriminate | exact Hv | discriminate]).
  destruct (findBestMatch c (r :: rs)) as [[result score]|]; cbn [fst snd];
    [|repeat split; [discriminate | exact Hv | discriminate]].
  pose proof (getValidationStatus_among score "Matched via bibliographic search")
    as Hin.
  destruct (getValidationStatus score "Matched via bibliographic search")
    as [status message]. cbn [fst snd] in *.
  repeat split; try discriminate.
  - eexists. reflexivity.
  - intros _. exists status. split; [reflexivity | exact Hin].
Qed.

Lemma statusAmong_more statuses c s :
  statusAmong statuses c -> statusAmong (statuses ++ [s]) c.
Proof.
  intros [x [H1 H2]]. exists x. split; [exact H1 | apply in_or_app; now left].
Qed.

Lemma markInvalid_settles : settles markInvalid.
Proof.
  intros c [v Hv]. unfold markInvalid. cbn [fst snd].
  split; [discriminate|]. split; [exists v; exact Hv|].
  exists invalid. split; [reflexivity | simpl; tauto].
Qed.

Lemma andThen_settles a b : absorbs a -> settles b -> settles (andThen a b).
Proof.
  intros Ha Hb c Hc. unfold andThen.
  destruct (Ha c Hc) as (T & V & R).
  destruct (a c) as [c' s]. cbn [fst snd] in *.
  destruct s; [apply Hb, V | | contradiction].
  cbn [fst snd]. split; [discriminate|]. split; [exact V|].
  apply (statusAmong_more [valid; suspicious; mismatch]), R. reflexivity.
Qed.

(** C10. [validateCitation] never throws, whatever the lookups answer: a
    result, [null], or a rejection; and the citation that it leaves has a
    [validation] object and the status valid, suspicious, mismatch or
    invalid. *)
Theorem validateCitation_total (S : Services) citation userEmail :
  snd (validateCitation S citation userEmail) <> Throw /\
  hasValidation (fst (validateCitation S citation userEmail)) /\
  statusAmong [valid; suspicious; mismatch; invalid]
    (fst (validateCitation S citation userEmail)).
Proof.
  unfold validateCitation.
  change (andThen _ ?b citation)
    with (b (set_validation (Some (mkValidation None None None)) citation)).
  assert (Hall : settles (andThen (lookupByDOI S userEmail)
                            (andThen (lookupByPMID S userEmail)
                               (andThen (searchByQuery S userEmail) markInvalid)))).
  { apply andThen_settles; [apply lookupByDOI_absorbs|].
    apply andThen_settles; [apply lookupByPMID_absorbs|].
    apply andThen_settles; [apply searchByQuery_absorbs|].
    apply markInvalid_settles. }
  apply Hall. eexists. reflexivity.
Qed.

(** With every lookup rejected the citation ends invalid. *)
Lemma validateCitation_total_witness :
  snd (validateCitation failingServices fullCitation "") = Continue /\
  validationStatus (fst (validateCitation failingServices fullCitation ""))
    = Some invalid /\
  hasValidation (fst (validateCitation failingServices fullCitation "")).
Proof.
  split; [reflexivity|]. split; [reflexivity|].
  apply (validateCitation_total failingServices fullCitation "").
Defined.

(** ** The loop over the windows *)

Lemma continues_refl r : continues r r.
Proof. repeat split. exists []. now rewrite app_nil_r. Qed.

Lemma continues_trans a b c : continues a b -> continues b c -> continues a c.
Proof.
  intros (S1 & W1 & E1 & l1 & D1) (S2 & W2 & E2 & l2 & D2).
  repeat split; try congruence.
  exists (l1 ++ l2). rewrite D2, D1, app_assoc. reflexivity.
Qed.

Lemma startValidation_continues c r : continues r (startValidation c r).
Proof. repeat split. exists [c]. reflexivity. Qed.

Lemma set_pending_continues p r : continues r (set_pending p r).
Proof. repeat split. exists []. cbn. now rewrite app_nil_r. Qed.

Lemma set_extractionIndex_continues n r : continues r (set_extractionIndex n r).
Proof. repeat split. exists []. cbn. now rewrite app_nil_r. Qed.

(** Flushing hands every pending extraction to validation, as it stands. *)
Lemma flushPending_spec r :
  dispatched (flushPending r) = dispatched r ++ pendingIncompleteEnd r /\
  state (flushPending r) = state r /\
  extractionIndex (flushPending r) = extractionIndex r /\
  pendingIncompleteEnd (flushPending r) = pendingIncompleteEnd r /\
  windowsStarted (flushPending r) = windowsStarted r /\
  errorsReported (flushPending r) = errorsReported r.
Proof.
  unfold flushPending.
  assert (H : forall l r0,
    let r' := fold_left (fun r pending => startValidation pending r) l r0 in
    dispatched r' = dispatched r0 ++ l /\ state r' = state r0 /\
    extractionIndex r' = extractionIndex r0 /\
    pendingIncompleteEnd r' = pendingIncompleteEnd r0 /\
    windowsStarted r' = windowsStarted r0 /\
    errorsReported r' = errorsReported r0).
  { induction l as [|p l IH]; intros r0; cbn [fold_left].
    - rewrite app_nil_r. repeat split.
    - destruct (IH (startValidation p r0)) as (D & H1 & H2 & H3 & H4 & H5).
      cbv zeta. rewrite D, H1, H2, H3, H4, H5. cbn.
      rewrite <- app_assoc. repeat split. }
  apply H.
Qed.

Lemma flushPending_continues r : continues r (flushPending r).
Proof.
  destruct (flushPending_spec r) as (D & H1 & _ & _ & H4 & H5).
  repeat split; try assumption. exists (pendingIncompleteEnd r). exact D.
Qed.

(** The index that [findMatchingPendingEnd] returns, when it is not -1, is
    the index of a pending extraction, one that overlaps the start
    extraction: the merge of case 1 always has its [endExtraction]. *)
Lemma findOverlap_range pending startExtraction : forall i,
  findOverlap pending startExtraction i = -1 \/
  i <= findOverlap pending startExtraction i.
Proof.
  induction pending as [|p rest IH]; intros i; cbn [findOverlap]; [now left|].
  destruct (extractionsOverlap p startExtraction); [right; lia|].
  destruct (IH (i + 1)) as [H|H]; [now left | right; lia].
Qed.

Lemma findOverlap_found pending startExtraction : forall i k,
  0 <= i -> findOverlap pending startExtraction i = k -> 0 <= k ->
  exists endExtraction,
    nth_error pending (Z.to_nat (k - i)) = Some endExtraction /\
    extractionsOverlap endExtraction startExtraction = true.
Proof.
  induction pending as [|p rest IH]; intros i k Hi Hk Hpos; cbn [findOverlap] in Hk.
  - lia.
  - destruct (extractionsOverlap p startExtraction) eqn:Ho.
    + subst k. rewrite Z.sub_diag. exists p. split; [reflexivity | exact Ho].
    + assert (Hlt : i + 1 <= k)
        by (destruct (findOverlap_range rest startExtraction (i + 1)); lia).
      destruct (IH (i + 1) k ltac:(lia) Hk Hpos) as (e & Hn & He).
      exists e. split; [|exact He].
      replace (Z.to_nat (k - i)) with (S (Z.to_nat (k - (i + 1)))) by lia.
      exact Hn.
Qed.

Lemma findMatchingPendingEnd_found pending startExtraction :
  0 <= findMatchingPendingEnd pending startExtraction ->
  exists endExtraction,
    nth_error pending
      (Z.to_nat (findMatchingPendingEnd pending startExtraction))
      = Some endExtraction /\
    extractionsOverlap endExtraction startExtraction = true.
Proof.
  unfold findMatchingPendingEnd.
  destruct (notIncomplete startExtraction || negb (positionIs startExtraction "start"));
    [lia|].
  intros H.
  destruct (findOverlap_found pending startExtraction 0 _ ltac:(lia) eq_refl H)
    as (e & Hn & He).
  exists e. rewrite Z.sub_0_r in Hn. split; assumption.
Qed.

Lemma processCitation_continues w isLast citation r acc :
  continues r (fst (processCitation w isLast citation r acc)).
Proof.
  unfold processCitation. cbv zeta.
  set (processed := processExtraction citation (extractionIndex r) w).
  destruct (negb (notIncomplete processed) && positionIs processed "start"
            && (_ >=? 0)).
  - destruct (nth_error _ _); cbn [fst]; [|apply continues_refl].
    eapply continues_trans; [apply set_pending_continues|].
    apply startValidation_continues.
  - destruct (negb (notIncomplete processed) && positionIs processed "end"
              && negb isLast); cbn [fst].
    + apply set_extractionIndex_continues.
    + eapply continues_trans; [|apply set_extractionIndex_continues].
      eapply continues_trans; [|apply startValidation_continues].
      destruct (notIncomplete processed);
        [apply set_pending_continues | apply continues_refl].
Qed.

Lemma processCitations_continues w isLast citations : forall r acc,
  continues r (fst (processCitations w isLast citations r acc)).
Proof.
  induction citations as [|c cs IH]; intros r acc; cbn [processCitations].
  - apply continues_refl.
  - pose proof (processCitation_continues w isLast c r acc) as H.
    destruct (processCitation w isLast c r acc) as [r1 acc1]. cbn [fst] in H.
    eapply continues_trans; [exact H | apply IH].
Qed.

(** The iteration of a window whose extraction call fails. *)
Lemma processWindow_failed i total ev r message :
  outcome ev = Failed message ->
  let r' := processWindow i total ev r in
  dispatched r' = dispatched r ++ pendingIncompleteEnd r /\
  pendingIncompleteEnd r' = [] /\
  extractions (state r') =
    extractions (state r) ++
    [createErrorExtraction (extractionIndex r) (i + 1) message] /\
  extractionIndex r' = extractionIndex r + 1 /\
  windowsStarted r' = windowsStarted r ++ [i] /\
  errorsReported r' = errorsReported r ++ [(i + 1, message)].
Proof.
  intros Hout. unfold processWindow. rewrite Hout. cbv zeta.
  set (r1 := mkRun (state r) (extractionIndex r) (pendingIncompleteEnd r)
               (dispatched r) (windowsStarted r ++ [i]) (errorsReported r)).
  destruct (flushPending_spec r1) as (D & H1 & H2 & H3 & H4 & H5).
  cbn [dispatched pendingIncompleteEnd state extractionIndex windowsStarted
       errorsReported set_extractionIndex set_pending addExtraction extractions].
  rewrite D, H1, H2, H4, H5. repeat split; reflexivity.
Qed.

Lemma createErrorExtraction_marked index w message :
  truthyB (error (createErrorExtraction index w message)) = true /\
  windowIndex (createErrorExtraction index w message) = Some w /\
  validationStatus (createErrorExtraction index w message) = Some invalid /\
  isErrorOf w (createErrorExtraction index w message) = true.
Proof.
  repeat split. unfold isErrorOf. cbn. apply Z.eqb_refl.
Qed.

(** What one iteration adds to the logs and to the extraction list. *)
Lemma processWindow_log i total ev r :
  let r' := processWindow i total ev r in
  windowsStarted r' = windowsStarted r ++ [i] /\
  (exists later, dispatched r' = dispatched r ++ later) /\
  exists added,
    extractions (state r') = extractions (state r) ++ added /\
    Forall (errorWithin i 1) added.
Proof.
  cbv zeta. destruct (outcome ev) as [citations|message] eqn:Hout.
  - unfold processWindow. rewrite Hout. cbv zeta.
    set (r1 := mkRun (state r) (extractionIndex r) (pendingIncompleteEnd r)
                 (dispatched r) (windowsStarted r ++ [i]) (errorsReported r)).
    assert (Hc : continues r1
              (fst (if cancelAfterCall ev then (r1, [])
                    else processCitations (i + 1) (i =? total - 1) citations
                           r1 []))).
    { destruct (cancelAfterCall ev);
        [apply continues_refl | apply processCitations_continues]. }
    destruct (if cancelAfterCall ev then (r1, [])
              else processCitations (i + 1) (i =? total - 1) citations r1 [])
      as [r2 pending]. cbn [fst] in Hc.
    assert (Hc' : continues r1 (set_pending pending (flushPending r2))).
    { eapply continues_trans; [exact Hc|].
      eapply continues_trans; [apply flushPending_continues|].
      apply set_pending_continues. }
    destruct Hc' as (S1 & W1 & _ & later & D1).
    split; [exact W1|]. split; [exists later; exact D1|].
    exists []. rewrite S1, app_nil_r. split; [reflexivity | constructor].
  - destruct (processWindow_failed i total ev r message Hout)
      as (D & _ & X & _ & W & _).
    split; [exact W|]. split; [exists (pendingIncompleteEnd r); exact D|].
    eexists. split; [exact X|]. constructor; [|constructor].
    split; [reflexivity|]. exists i. split; [lia | reflexivity].
Qed.

Lemma errorWithin_wider i n i' n' e :
  i' <= i -> i + Z.of_nat n <= i' + Z.of_nat n' ->
  errorWithin i n e -> errorWithin i' n' e.
Proof.
  intros H1 H2 (He & j & Hj & Hw). split; [exact He|].
  exists j. split; [lia | exact Hw].
Qed.

(** The same for a sequence of windows that is not cancelled. *)
Lemma processWindows_log total events : forall i r,
  notCancelled events ->
  let r' := processWindows events i total r in
  windowsStarted r' =
    windowsStarted r ++
    map (fun n => i + Z.of_nat n) (List.seq 0 (List.length events)) /\
  (exists later, dispatched r' = dispatched r ++ later) /\
  exists added,
    extractions (state r') = extractions (state r) ++ added /\
    Forall (errorWithin i (List.length events)) added.
Proof.
  induction events as [|ev events IH]; intros i r Hnc; cbn [processWindows].
  - cbn. rewrite app_nil_r. split; [reflexivity|].
    split; [exists []; now rewrite app_nil_r|].
    exists []. rewrite app_nil_r. split; [reflexivity | constructor].
  - inversion Hnc as [|? ? Hev Hrest]; subst. rewrite Hev.
    destruct (processWindow_log i total ev r) as (W1 & (l1 & D1) & a1 & X1 & F1).
    destruct (IH (i + 1) (processWindow i total ev r) Hrest)
      as (W2 & (l2 & D2) & a2 & X2 & F2).
    cbv zeta. split; [|split].
    + rewrite W2, W1, <- app_assoc. f_equal. cbn [List.length List.seq map].
      rewrite Z.add_0_r. cbn [app]. f_equal.
      rewrite <- seq_shift, map_map. apply map_ext. intros n. lia.
    + exists (l1 ++ l2). rewrite D2, D1, app_assoc. reflexivity.
    + exists (a1 ++ a2). split; [rewrite X2, X1, app_assoc; reflexivity|].
      apply Forall_app. split.
      * eapply Forall_impl; [|exact F1]. intros e.
        apply errorWithin_wider; cbn [List.length]; lia.
      * eapply Forall_impl; [|exact F2]. intros e.
        apply errorWithin_wider; cbn [List.length]; lia.
Qed.

(** A sequence of windows that is not cancelled is processed window after
    window, whatever a window answers. *)
Lemma processWindows_app total before : forall rest i r,
  notCancelled before ->
  processWindows (before ++ rest) i total r =
  processWindows rest (i + Z.of_nat (List.length before)) total
    (processWindows before i total r).
Proof.
  induction before as [|ev before IH]; intros rest i r Hnc.
  - cbn. rewrite Z.add_0_r. reflexivity.
  - inversion Hnc as [|? ? Hev Hrest]; subst.
    cbn [app processWindows]. rewrite Hev, (IH _ _ _ Hrest).
    f_equal. cbn [List.length]. lia.
Qed.

Lemma filter_none {A} (p : A -> bool) l :
  Forall (fun x => p x = false) l -> filter p l = [].
Proof.
  induction 1 as [|x l Hx _ IH]; cbn; [reflexivity|]. rewrite Hx. exact IH.
Qed.

Lemma errorWithin_other w i n e :
  (w < i + 1 \/ i + Z.of_nat n < w) -> errorWithin i n e -> isErrorOf w e = false.
Proof.
  intros Hw (_ & j & Hj & Hwi). unfold isErrorOf. rewrite Hwi.
  destruct (Z.eqb_spec (j + 1) w); [lia | apply andb_false_r].
Qed.

(** ** Rate limiter *)

Section Limiter.

Variable clock : nat -> Z.

Lemma sameBook_refl l : sameBook l l.
Proof. repeat split. Qed.

Lemma sameBook_trans a b c : sameBook a b -> sameBook b c -> sameBook a c.
Proof. unfold sameBook. intuition congruence. Qed.

Lemma _cleanTimestamps_book l : sameBook l (_cleanTimestamps clock l).
Proof. repeat split. Qed.

Lemma _canProceed_spec l :
  sameBook l (snd (_canProceed clock l)) /\
  (fst (_canProceed clock l) = true ->
   below (activeRequests (snd (_canProceed clock l))) (maxConcurrent l) = true /\
   below (Z.of_nat (List.length (requestTimestamps (snd (_canProceed clock l)))))
     (requestsPerMinute l) = true).
Proof.
  unfold _canProceed. cbv zeta. cbn [fst snd].
  split; [apply _cleanTimestamps_book|].
  intros H. apply andb_true_iff in H. exact H.
Qed.

Lemma _getDelayMs_book l : sameBook l (snd (_getDelayMs clock l)).
Proof.
  unfold _getDelayMs. cbv zeta.
  match goal with |- context [if ?c then _ else _] => destruct c end;
    [|apply _cleanTimestamps_book].
  destruct (requestTimestamps (_cleanTimestamps clock l)); repeat split.
Qed.

Lemma allowed_same l l' a :
  maxConcurrent l' = maxConcurrent l ->
  requestsPerMinute l' = requestsPerMinute l ->
  allowed l a -> allowed l' a.
Proof. unfold allowed. intros -> ->. tauto. Qed.

Lemma startedFromQueue_app l entry :
  map a_task (filter a_fromQueue (admitted l ++ [entry])) =
  startedFromQueue l ++ (if a_fromQueue entry then [a_task entry] else []).
Proof.
  unfold startedFromQueue. rewrite filter_app, map_app. cbn [filter].
  destruct (a_fromQueue entry); reflexivity.
Qed.

(** A task started right after [_canProceed] has answered yes, from the
    queue or not, leaves the limiter orderly. *)
Lemma admit_orderly l0 l task (fromQueue : bool) rest :
  orderly l0 (mkRateLimiter (maxConcurrent l) (requestsPerMinute l)
                (activeRequests l) (requestTimestamps l)
                (if fromQueue then task :: rest else rest) (tick l)
                (admitted l) (enqueued l) (timers l)) ->
  below (activeRequests l) (maxConcurrent l) = true ->
  below (Z.of_nat (List.length (requestTimestamps l))) (requestsPerMinute l) = true ->
  orderly l0
    (_executeTask clock task fromQueue
       (mkRateLimiter (maxConcurrent l) (requestsPerMinute l)
          (activeRequests l) (requestTimestamps l) rest (tick l)
          (admitted l) (enqueued l) (timers l))).
Proof.
  intros (M & R & F & Q) Hc Hr. cbn in M, R, F, Q.
  unfold orderly, _executeTask. cbn.
  split; [exact M|]. split; [exact R|]. split.
  - apply Forall_app. split; [exact F|]. constructor; [|constructor].
    unfold allowed. cbn. rewrite <- M, <- R. split; assumption.
  - unfold startedFromQueue in *. cbn. rewrite <- Q.
    rewrite filter_app, map_app. cbn [filter a_fromQueue].
    destruct fromQueue; cbn [map a_task app]; [|now rewrite app_nil_r].
    rewrite <- app_assoc. reflexivity.
Qed.

Lemma orderly_book l0 l l' : sameBook l l' -> orderly l0 l -> orderly l0 l'.
Proof.
  intros (M & R & _ & Q & A & E) (M0 & R0 & F & H).
  unfold orderly, startedFromQueue in *. rewrite M, R, Q, A, E. auto.
Qed.

Lemma _processQueue_loop_orderly l0 fuel : forall l,
  orderly l0 l -> orderly l0 (_processQueue_loop clock fuel l).
Proof.
  induction fuel as [|fuel IH]; intros l Hl; cbn [_processQueue_loop]; [exact Hl|].
  destruct (queue l) as [|task rest] eqn:Hq; [exact Hl|].
  destruct (_canProceed_spec l) as [Hb Hok].
  destruct (_canProceed clock l) as [ok l1]. cbn [fst snd] in *.
  destruct ok; [|apply (orderly_book l0 l l1 Hb Hl)].
  destruct (Hok eq_refl) as [Hc Hr]. apply IH.
  pose proof (orderly_book l0 l l1 Hb Hl) as Hl1.
  destruct Hb as (M & R & A & Q & _).
  apply (admit_orderly l0 l1 task true rest).
  - destruct Hl1 as (M1 & R1 & F1 & Q1). rewrite Q, Hq in Q1.
    unfold orderly, startedFromQueue in *. cbn. auto.
  - rewrite M. exact Hc.
  - rewrite R. exact Hr.
Qed.

Lemma schedule_orderly l0 task l : orderly l0 l -> orderly l0 (schedule clock task l).
Proof.
  intros Hl. unfold schedule.
  destruct (_canProceed_spec l) as [Hb Hok].
  destruct (_canProceed clock l) as [ok l1]. cbn [fst snd] in *.
  pose proof (orderly_book l0 l l1 Hb Hl) as Hl1.
  destruct ok.
  - destruct (Hok eq_refl) as [Hc Hr]. destruct Hb as (M & R & _).
    assert (H := admit_orderly l0 l1 task false (queue l1)).
    cbn [a_fromQueue] in H. destruct l1. apply H; cbn in *.
    + exact Hl1.
    + rewrite M. exact Hc.
    + rewrite R. exact Hr.
  - set (l2 := mkRateLimiter (maxConcurrent l1) (requestsPerMinute l1)
                 (activeRequests l1) (requestTimestamps l1) (queue l1 ++ [task])
                 (tick l1) (admitted l1) (enqueued l1 ++ [task]) (timers l1)).
    assert (Hl2 : orderly l0 l2).
    { destruct Hl1 as (M1 & R1 & F1 & Q1). unfold orderly, startedFromQueue in *.
      cbn. rewrite app_assoc, Q1. auto. }
    pose proof (orderly_book l0 l2 _ (_getDelayMs_book l2) Hl2) as Hl3.
    destruct (_getDelayMs clock l2) as [delay l3]. cbn [snd] in Hl3.
    destruct (delay >? 0); [|exact Hl3].
    destruct Hl3 as (M3 & R3 & F3 & Q3). unfold orderly, startedFromQueue in *.
    cbn. auto.
Qed.

Lemma _processQueue_orderly l0 l :
  orderly l0 l -> orderly l0 (_processQueue clock l).
Proof. apply _processQueue_loop_orderly. Qed.

Lemma settle_orderly l0 l : orderly l0 l -> orderly l0 (settle clock l).
Proof.
  intros (M & R & F & Q). apply _processQueue_orderly.
  unfold orderly, startedFromQueue in *. cbn. auto.
Qed.

Lemma run_orderly l0 events : forall l,
  orderly l0 l -> orderly l0 (run clock events l).
Proof.
  induction events as [|e events IH]; intros l Hl; cbn [run fold_left]; [exact Hl|].
  apply IH. destruct e; cbn [step].
  - apply schedule_orderly, Hl.
  - apply settle_orderly, Hl.
  - apply _processQueue_orderly, Hl.
Qed.

(** The fuel of [_processQueue] is enough: with more of it the loop does
    the same. *)
Lemma _processQueue_fuel fuel : forall l,
  (List.length (queue l) < fuel)%nat ->
  _processQueue_loop clock (S fuel) l = _processQueue_loop clock fuel l.
Proof.
  induction fuel as [|fuel IH]; intros l Hlen; [lia|].
  cbn [_processQueue_loop].
  destruct (queue l) as [|task rest] eqn:Hq; [reflexivity|].
  destruct (_canProceed clock l) as [ok l1]. destruct ok; [|reflexivity].
  apply IH. cbn in *. lia.
Qed.

End Limiter.



(* ================================================================== *)
(** * Further properties *)
(* ================================================================== *)

(** ** Windower *)

Lemma len_nonneg s : 0 <= len s.
Proof. unfold len. lia. Qed.

Lemma substring_length_exact s : forall n m,
  (n + m <= String.length s)%nat -> String.length (substring n m s) = m.
Proof.
  induction s as [|c s IH]; intros n m H; simpl in H.
  - destruct n, m; simpl; try lia; reflexivity.
  - destruct n as [|n]; simpl.
    + destruct m as [|m]; simpl; [reflexivity|]. rewrite (IH 0%nat m); lia.
    + apply IH. lia.
Qed.

Lemma substring_whole s : substring 0 (String.length s) s = s.
Proof. induction s as [|c s IH]; simpl; [reflexivity | now rewrite IH]. Qed.

Lemma slice_length text a b :
  0 <= a -> a <= b -> b <= len text -> len (slice text a b) = b - a.
Proof.
  intros Ha Hab Hb. unfold slice, relIndex.
  destruct (Z.ltb_spec a 0); [lia|]. destruct (Z.ltb_spec b 0); [lia|].
  unfold len in *. rewrite substring_length_exact; lia.
Qed.

Lemma slice_whole text : slice text 0 (len text) = text.
Proof.
  unfold slice, relIndex. pose proof (len_nonneg text).
  destruct (Z.ltb_spec (len text) 0); [lia|]. cbn [Z.ltb Z.compare].
  rewrite Z.min_id, Z.min_l, Z.sub_0_r, Z.max_l by lia.
  unfold len. rewrite Nat2Z.id. apply substring_whole.
Qed.

Lemma chained_snoc windows w :
  chained windows ->
  (windows = [] \/ follows (lastWindow windows) w) ->
  chained (windows ++ [w]).
Proof.
  induction windows as [|a rest IH]; intros Hc Hl; [exact I|].
  destruct rest as [|b rest'].
  - destruct Hl as [Hl|Hl]; [discriminate|]. cbn. split; [exact Hl | exact I].
  - destruct Hc as [Hab Hc]. cbn [app chained]. split; [exact Hab|].
    apply IH; [exact Hc|]. right.
    destruct Hl as [Hl|Hl]; [discriminate|]. exact Hl.
Qed.

Lemma hd_app_nonempty (windows more : list Window) :
  windows <> [] -> hd emptyWindow (windows ++ more) = hd emptyWindow windows.
Proof. destruct windows; [congruence | reflexivity]. Qed.

Lemma hd_snoc (windows : list Window) w :
  hd emptyWindow (windows ++ [w]) =
  match windows with [] => w | a :: _ => a end.
Proof. destruct windows; reflexivity. Qed.

Lemma createWindows_loop_shape text windowSize step :
  1 <= step -> step <= windowSize ->
  forall fuel start windowIndex windows,
    0 <= start ->
    (len text - start <= Z.of_nat fuel) ->
    betweenIterations text windowSize step start windows ->
    chained windows ->
    Forall (consistent text step) windows ->
    windowIndex = Z.of_nat (List.length windows) ->
    (windows <> [] ->
     w_index (lastWindow windows) = windowIndex - 1 /\
     w_index (hd emptyWindow windows) = 0 /\
     w_start (hd emptyWindow windows) = 0) ->
    exists result,
      createWindows_loop fuel text windowSize step start windowIndex windows
        = Some result /\
      shaped text step result /\
      (windows <> [] \/ start < len text -> result <> []).
Proof.
  intros Hstep Hws.
  induction fuel as [|fuel IH];
    intros start windowIndex windows Hs Hfuel Hbetween Hch Hcons Hidx Hfirst.
  - exists windows. simpl. destruct (Z.ltb_spec start (len text)); [lia|].
    split; [reflexivity|]. split; [|intros [Hx|Hx]; [exact Hx | lia]].
    split; [exact Hch|]. split; [exact Hcons|].
    destruct windows as [|a rest].
    + cbn. repeat split. congruence.
    + destruct (Hfirst ltac:(discriminate)) as (_ & H0 & H1).
      split; [exact H0|]. split; [exact H1|]. intros _.
      destruct Hbetween as [[Hnil _]|(_ & _ & He & _)]; [discriminate|].
      rewrite He. lia.
  - rewrite createWindows_loop_unfold.
    destruct (Z.ltb_spec start (len text)) as [Hlt|Hge].
    + cbv zeta.
      set (e := Z.min (start + windowSize) (len text)).
      set (w := mkWindow windowIndex start e (e - start) (slice text start e)).
      assert (He : start < e <= len text) by (unfold e; lia).
      assert (Hleft : windows <> [] -> step <= len text - start).
      { intros Hne. destruct Hbetween as [[Hnil _]|(_ & _ & _ & H)];
          [contradiction | apply H, Hlt]. }
      assert (Hw : consistent text step w).
      { unfold consistent, w. cbn [w_text w_start w_end w_length].
        split; [reflexivity|]. split; [reflexivity|].
        split; [apply slice_length; lia|].
        destruct windows as [|a rest].
        - destruct Hbetween as [[_ H0]|[Hne _]]; [|contradiction].
          unfold e. lia.
        - specialize (Hleft ltac:(discriminate)). unfold e. lia. }
      assert (Hch' : chained (windows ++ [w])).
      { apply chained_snoc; [exact Hch|].
        destruct windows as [|a rest]; [now left|]. right.
        destruct Hbetween as [[Hnil _]|(_ & Hls & Hle & _)]; [discriminate|].
        destruct (Hfirst ltac:(discriminate)) as (Hli & _ & _).
        unfold follows, w. cbn [w_start w_end w_index].
        rewrite Hls, Hle, Hli. unfold e. lia. }
      assert (Hcons' : Forall (consistent text step) (windows ++ [w]))
        by (apply Forall_app; split; [exact Hcons | constructor; [exact Hw | constructor]]).
      assert (Hhd : w_index (hd emptyWindow (windows ++ [w])) = 0 /\
                    w_start (hd emptyWindow (windows ++ [w])) = 0).
      { rewrite hd_snoc. destruct windows as [|a rest].
        - destruct Hbetween as [[_ H0]|[Hne _]]; [|contradiction].
          unfold w. cbn. split; [exact Hidx | exact H0].
        - destruct (Hfirst ltac:(discriminate)) as (_ & H0 & H1). cbn in *. auto. }
      destruct ((start + step <? len text) && (len text - (start + step) <? step))
        eqn:Htiny.
      * apply andb_true_iff in Htiny. destruct Htiny as [H1 H2].
        apply Z.ltb_lt in H1. apply Z.ltb_lt in H2.
        rewrite lastWindow_snoc. cbn [w_start w].
        destruct (Z.gtb_spec (Z.max 0 (len text - windowSize)) start) as [Hgt|Hle].
        -- eexists. split; [reflexivity|]. split.
           ++ split; [|split; [|split; [|split]]].
              ** apply chained_snoc; [exact Hch'|]. right.
                 rewrite lastWindow_snoc. unfold follows, w, e.
                 cbn [w_start w_end w_index]. lia.
              ** apply Forall_app. split; [exact Hcons'|].
                 constructor; [|constructor].
                 unfold consistent, sliceFrom. cbn [w_text w_start w_end w_length].
                 split; [reflexivity|]. split; [reflexivity|].
                 split; [apply slice_length; lia | lia].
              ** rewrite hd_app_nonempty by (destruct windows; discriminate).
                 apply Hhd.
              ** rewrite hd_app_nonempty by (destruct windows; discriminate).
                 apply Hhd.
              ** intros _. rewrite lastWindow_snoc. reflexivity.
           ++ intros _. destruct (windows ++ [w]); discriminate.
        -- eexists. split; [reflexivity|]. split.
           ++ split; [exact Hch'|]. split; [exact Hcons'|].
              split; [apply Hhd|]. split; [apply Hhd|].
              intros _. rewrite lastWindow_snoc. unfold w, e. cbn [w_end]. lia.
           ++ intros _. destruct windows; discriminate.
      * apply andb_false_iff in Htiny.
        destruct (IH (start + step) (windowIndex + 1) (windows ++ [w]))
          as (result & Hres & Hshape & Hne); try lia.
        -- right. split; [destruct windows; discriminate|].
           rewrite lastWindow_snoc. unfold w, e. cbn [w_start w_end].
           split; [lia|]. split; [f_equal; lia|].
           intros Hlt'. destruct Htiny as [H|H].
           ++ apply Z.ltb_ge in H. lia.
           ++ apply Z.ltb_ge in H. lia.
        -- exact Hch'.
        -- exact Hcons'.
        -- rewrite length_app. cbn [List.length]. lia.
        -- intros _. rewrite lastWindow_snoc. unfold w. cbn [w_index].
           split; [lia | exact Hhd].
        -- exists result. split; [exact Hres|]. split; [exact Hshape|].
           intros _. apply Hne. left. destruct windows; discriminate.
    + exists windows. split; [reflexivity|].
      split; [|intros [Hx|Hx]; [exact Hx | lia]].
      split; [exact Hch|]. split; [exact Hcons|].
      destruct windows as [|a rest].
      * cbn. repeat split. congruence.
      * destruct (Hfirst ltac:(discriminate)) as (_ & H0 & H1).
        split; [exact H0|]. split; [exact H1|]. intros _.
        destruct Hbetween as [[Hnil _]|(_ & _ & He & _)]; [discriminate|].
        rewrite He. lia.
Qed.

Lemma trimStartL_blank l : forallb isWhiteSpace l = true -> trimStartL l = [].
Proof.
  induction l as [|c r IH]; simpl; [reflexivity|].
  destruct (isWhiteSpace c); [exact IH | discriminate].
Qed.

Lemma blank_trim text : hasNonWhiteSpace text = false -> trim text = "".
Proof.
  unfold hasNonWhiteSpace, trim. intros H.
  assert (Hall : forallb isWhiteSpace (list_ascii_of_string text) = true).
  { apply forallb_forall. intros c Hc.
    destruct (isWhiteSpace c) eqn:E; [reflexivity|]. exfalso.
    assert (existsb (fun c => negb (isWhiteSpace c)) (list_ascii_of_string text)
            = true)
      by (apply existsb_exists; exists c; split; [exact Hc | now rewrite E]).
    congruence. }
  rewrite (trimStartL_blank _ Hall). reflexivity.
Qed.

Lemma nonblank_len text : hasNonWhiteSpace text = true -> 0 < len text.
Proof. destruct text; [discriminate|]. intros _. unfold len. simpl. lia. Qed.

Lemma normStep_range windowSize overlap :
  1 <= normStep windowSize overlap <= normWindowSize windowSize.
Proof.
  unfold normStep, normOverlap, normWindowSize.
  destruct (Z.leb_spec windowSize 0); destruct (Z.ltb_spec overlap 0);
    repeat match goal with |- context [?a >=? ?b] => destruct (Z.geb_spec a b) end;
    lia.
Qed.

(** The windows of a text that is not blank, with all that the loop
    establishes about them. *)
Lemma createWindows_shape text windowSize overlap :
  hasNonWhiteSpace text = true ->
  exists windows,
    createWindows text windowSize overlap = Some windows /\
    shaped text (normStep windowSize overlap) windows /\ windows <> [].
Proof.
  intros Hne. unfold createWindows.
  rewrite (trim_nonblank _ Hne), (nonblank_truthy _ Hne). cbn [negb orb].
  cbv zeta. fold (normStep windowSize overlap).
  pose proof (normStep_range windowSize overlap) as [H1 H2].
  pose proof (nonblank_len _ Hne) as Hlen.
  destruct (createWindows_loop_shape text (normWindowSize windowSize)
              (normStep windowSize overlap) H1 H2 (String.length text) 0 0 [])
    as (result & Hres & Hshape & Hnonempty).
  - lia.
  - unfold len. lia.
  - left. split; reflexivity.
  - exact I.
  - constructor.
  - reflexivity.
  - intros H. contradiction.
  - exists result. split; [exact Hres|]. split; [exact Hshape|].
    apply Hnonempty. right. exact Hlen.
Qed.

(** X1. [createWindows] returns the empty list exactly for the texts that
    are empty or all white space. *)
Theorem createWindows_empty_iff text windowSize overlap :
  createWindows text windowSize overlap = Some [] <->
  hasNonWhiteSpace text = false.
Proof.
  split.
  - intros H. destruct (hasNonWhiteSpace text) eqn:Hne; [|reflexivity].
    destruct (createWindows_shape text windowSize overlap Hne)
      as (ws & Hws & _ & Hnonempty).
    rewrite H in Hws. injection Hws as <-. contradiction.
  - intros H. unfold createWindows. rewrite (blank_trim _ H).
    cbn. rewrite orb_true_r. reflexivity.
Qed.

(** X2. The windows of a text that is not blank come in order: the first
    has index 0 and starts at character 0, every other one has the next
    index, starts after the start of the one before and not after its end
    (they overlap or touch), and the last one ends at the end of the text. *)
Theorem createWindows_in_order text windowSize overlap :
  hasNonWhiteSpace text = true ->
  exists windows,
    createWindows text windowSize overlap = Some windows /\
    windows <> [] /\
    w_index (hd emptyWindow windows) = 0 /\
    w_start (hd emptyWindow windows) = 0 /\
    chained windows /\
    w_end (lastWindow windows) = len text.
Proof.
  intros Hne.
  destruct (createWindows_shape text windowSize overlap Hne)
    as (ws & Hws & (Hch & _ & Hi & Hs & He) & Hnonempty).
  exists ws. repeat split; auto.
Qed.

Lemma createWindows_in_order_witness :
  hasNonWhiteSpace "abcdefg" = true /\
  exists windows,
    createWindows "abcdefg" 4 1 = Some windows /\
    windows <> [] /\
    w_index (hd emptyWindow windows) = 0 /\
    w_start (hd emptyWindow windows) = 0 /\
    chained windows /\
    w_end (lastWindow windows) = len "abcdefg".
Proof.
  split; [reflexivity | apply (createWindows_in_order "abcdefg" 4 1); reflexivity].
Defined.

(** X3. Every window of the result agrees with the text: its [text] is the
    slice [start, end) of the source, its [length] is [end - start] and the
    length of that text; and no window is tiny: each has at least
    [windowSize - overlap] characters, or the whole text when that is
    shorter. *)
Theorem createWindows_consistent text windowSize overlap :
  hasNonWhiteSpace text = true ->
  exists windows,
    createWindows text windowSize overlap = Some windows /\
    forall w, In w windows ->
      w_text w = slice text (w_start w) (w_end w) /\
      w_length w = w_end w - w_start w /\
      len (w_text w) = w_length w /\
      Z.min (normStep windowSize overlap) (len text) <= w_length w.
Proof.
  intros Hne.
  destruct (createWindows_shape text windowSize overlap Hne)
    as (ws & Hws & (_ & Hc & _) & _).
  exists ws. split; [exact Hws|]. intros w Hw.
  rewrite Forall_forall in Hc. exact (Hc w Hw).
Qed.

Lemma createWindows_consistent_witness :
  hasNonWhiteSpace "abcdefg" = true /\
  exists windows,
    createWindows "abcdefg" 4 1 = Some windows /\
    forall w, In w windows ->
      w_text w = slice "abcdefg" (w_start w) (w_end w) /\
      w_length w = w_end w - w_start w /\
      len (w_text w) = w_length w /\
      Z.min (normStep 4 1) (len "abcdefg") <= w_length w.
Proof.
  split; [reflexivity | apply (createWindows_consistent "abcdefg" 4 1); reflexivity].
Defined.

(** X4. A text that is not blank, no longer than the window and shorter
    than two steps gives one window, which holds the whole text.  (With a
    step below half the text, more windows follow, also when the first one
    holds the whole text.) *)
Theorem createWindows_short_text text windowSize overlap :
  hasNonWhiteSpace text = true ->
  len text <= normWindowSize windowSize ->
  len text < 2 * normStep windowSize overlap ->
  createWindows text windowSize overlap =
    Some [mkWindow 0 0 (len text) (len text) text].
Proof.
  intros Hne Hshort Hstep. unfold createWindows.
  rewrite (trim_nonblank _ Hne), (nonblank_truthy _ Hne). cbn [negb orb].
  cbv zeta. fold (normStep windowSize overlap).
  pose proof (normStep_range windowSize overlap) as [H1 H2].
  pose proof (nonblank_len _ Hne) as Hlen.
  destruct (String.length text) as [|n] eqn:Hn; [unfold len in Hlen; lia|].
  rewrite createWindows_loop_unfold. cbv zeta.
  destruct (Z.ltb_spec 0 (len text)); [|lia].
  rewrite (Z.min_r (0 + normWindowSize windowSize) (len text)) by lia.
  rewrite Z.sub_0_r, slice_whole. cbn [app].
  set (step := normStep windowSize overlap) in *.
  destruct (Z.ltb_spec (0 + step) (len text)) as [Hs|Hs].
  - destruct (Z.ltb_spec (len text - (0 + step)) step) as [Ht|Ht]; [|lia].
    cbn [andb]. unfold lastWindow. cbn [last w_start].
    destruct (Z.gtb_spec (Z.max 0 (len text - normWindowSize windowSize)) 0);
      [lia | reflexivity].
  - cbn [andb]. rewrite Z.add_0_l in *.
    destruct n as [|n]; simpl;
      destruct (Z.ltb_spec step (len text)); try lia; reflexivity.
Qed.

Lemma createWindows_short_text_witness :
  hasNonWhiteSpace "abc" = true /\ len "abc" <= normWindowSize 2000 /\
  len "abc" < 2 * normStep 2000 200 /\
  createWindows "abc" 2000 200 = Some [mkWindow 0 0 3 3 "abc"].
Proof.
  split; [reflexivity|]. split; [vm_compute; discriminate|].
  split; [reflexivity|].
  apply (createWindows_short_text "abc" 2000 200);
    [reflexivity | vm_compute; discriminate | reflexivity].
Defined.

(** *** getWindowStats *)

Lemma sum_lengths_bounds lo hi windows : forall acc,
  Forall (fun w => lo <= w_length w <= hi) windows ->
  acc + Z.of_nat (List.length windows) * lo
  <= fold_left (fun sum w => sum + w_length w) windows acc
  <= acc + Z.of_nat (List.length windows) * hi.
Proof.
  induction windows as [|w ws IH]; intros acc H; cbn [fold_left List.length].
  - lia.
  - inversion H as [|? ? Hw Hws]; subst. specialize (IH (acc + w_length w) Hws).
    lia.
Qed.

Lemma Math_round_between lo hi x :
  (inject_Z lo <= x)%Q -> (x <= inject_Z hi)%Q -> lo <= Math_round x <= hi.
Proof.
  intros Hlo Hhi. unfold Math_round. split.
  - rewrite <- (Qfloor_Z lo). apply Qfloor_resp_le. lra.
  - pose proof (Qfloor_le (x + (1 # 2))) as Hf.
    assert (H : (inject_Z (Qfloor (x + (1 # 2))) < inject_Z (hi + 1))%Q).
    { rewrite inject_Z_plus. change (inject_Z 1) with 1%Q. lra. }
    rewrite <- Zlt_Qlt in H. lia.
Qed.

(** X5. [getWindowStats] counts the characters of the text and the windows;
    the average it reports is 0 when there is no window (nothing is divided
    by zero), and else lies between any two bounds of the lengths of the
    windows. *)
Theorem getWindowStats_average text windows lo hi :
  Forall (fun w => lo <= w_length w <= hi) windows ->
  let '(totalChars, windowCount, avgCharsPerWindow) :=
    getWindowStats text windows in
  totalChars = len text /\
  windowCount = Z.of_nat (List.length windows) /\
  (windows = [] -> avgCharsPerWindow = 0) /\
  (windows <> [] -> lo <= avgCharsPerWindow <= hi).
Proof.
  intros H. unfold getWindowStats.
  split; [reflexivity|]. split; [reflexivity|]. split.
  - intros ->. reflexivity.
  - intros Hne.
    assert (Hn : 0 < Z.of_nat (List.length windows))
      by (destruct windows; [congruence | cbn [List.length]; lia]).
    destruct (Z.gtb_spec (Z.of_nat (List.length windows)) 0); [|lia].
    pose proof (sum_lengths_bounds lo hi windows 0 H) as Hsum.
    assert (Hq : (0 < inject_Z (Z.of_nat (List.length windows)))%Q)
      by (change 0%Q with (inject_Z 0); rewrite <- Zlt_Qlt; lia).
    apply Math_round_between.
    + apply Qle_shift_div_l; [exact Hq|]. rewrite <- inject_Z_mult, <- Zle_Qle. lia.
    + apply Qle_shift_div_r; [exact Hq|]. rewrite <- inject_Z_mult, <- Zle_Qle. lia.
Qed.

Lemma getWindowStats_average_witness :
  Forall (fun w => 3 <= w_length w <= 4)
    [mkWindow 0 0 4 4 "abcd"; mkWindow 1 3 7 4 "defg"; mkWindow 2 4 7 3 "efg"] /\
  getWindowStats "abcdefg"
    [mkWindow 0 0 4 4 "abcd"; mkWindow 1 3 7 4 "defg"; mkWindow 2 4 7 3 "efg"]
  = (7, 3, 4).
Proof.
  assert (H : Forall (fun w => 3 <= w_length w <= 4)
    [mkWindow 0 0 4 4 "abcd"; mkWindow 1 3 7 4 "defg"; mkWindow 2 4 7 3 "efg"])
    by (repeat constructor; cbn; lia).
  split; [exact H|].
  pose proof (getWindowStats_average "abcdefg" _ 3 4 H) as G.
  vm_compute. reflexivity.
Defined.

(** ** similarity.js *)

Lemma toLowerChar_idem c : toLowerChar (toLowerChar c) = toLowerChar c.
Proof.
  destruct c as [b0 b1 b2 b3 b4 b5 b6 b7].
  destruct b0, b1, b2, b3, b4, b5, b6, b7; reflexivity.
Qed.

Lemma toLowerCase_idem s : toLowerCase (toLowerCase s) = toLowerCase s.
Proof.
  induction s as [|c s IH]; simpl; [reflexivity|].
  now rewrite toLowerChar_idem, IH.
Qed.

Lemma truthyStr_toLowerCase s : truthyStr (toLowerCase s) = truthyStr s.
Proof. destruct s; reflexivity. Qed.

Lemma common_words_length (w1 w2 : list string) :
  NoDup w1 -> NoDup w2 ->
  List.length (filter (setHas w2) w1) = List.length (filter (setHas w1) w2).
Proof.
  intros H1 H2.
  assert (Hle : forall a b : list string, NoDup a ->
            (List.length (filter (setHas b) a)
             <= List.length (filter (setHas a) b))%nat).
  { intros a b Ha. apply NoDup_incl_length; [apply NoDup_filter, Ha|].
    intros x Hx. apply filter_In in Hx. destruct Hx as [Hxa Hxb].
    apply filter_In. split; [apply setHas_In, Hxb | apply setHas_In, Hxa]. }
  apply Nat.le_antisymm; apply Hle; assumption.
Qed.

Lemma splitWhiteSpace_from_nonempty l : forall cur inRun,
  splitWhiteSpace_from l cur inRun <> [].
Proof.
  induction l as [|c r IH]; intros cur inRun; simpl; [discriminate|].
  destruct (isWhiteSpace c); [destruct inRun; [apply IH | discriminate] | apply IH].
Qed.

Lemma setOf_nonempty words : words <> [] -> setOf words <> [].
Proof.
  unfold setOf. destruct words as [|w ws]; [congruence|]. intros _. simpl.
  assert (H : forall (l s : list string), s <> [] ->
            fold_left (fun s w => setAdd w s) l s <> []).
  { induction l as [|x l IH]; intros s Hs; simpl; [exact Hs|].
    apply IH. unfold setAdd. destruct (existsb _ s); [exact Hs|].
    destruct s; discriminate. }
  apply H. discriminate.
Qed.

Lemma filter_all {A} (p : A -> bool) l :
  (forall x, In x l -> p x = true) -> filter p l = l.
Proof.
  induction l as [|x l IH]; intros H; simpl; [reflexivity|].
  rewrite (H x (or_introl eq_refl)), IH; [reflexivity|].
  intros y Hy. apply H. now right.
Qed.

(** X6. [stringSimilarity] is symmetric, does not see the case of the
    letters, lies between 0 and 1, is 1 on two equal strings that are not
    empty, and is 0 as soon as one string is empty. *)
Theorem stringSimilarity_properties a b :
  stringSimilarity a b = stringSimilarity b a /\
  stringSimilarity (toLowerCase a) (toLowerCase b) = stringSimilarity a b /\
  (0 <= stringSimilarity a b <= 1)%Q /\
  (a <> "" -> stringSimilarity a a == 1)%Q /\
  stringSimilarity a "" = 0%Q /\ stringSimilarity "" b = 0%Q.
Proof.
  split; [|split; [|split; [|split; [|split]]]].
  - unfold stringSimilarity. rewrite (orb_comm (negb (truthyStr a))).
    destruct (negb (truthyStr b) || negb (truthyStr a)); [reflexivity|].
    cbv zeta.
    rewrite (common_words_length (setOf (splitWhiteSpace (toLowerCase a)))
               (setOf (splitWhiteSpace (toLowerCase b))))
      by apply setOf_NoDup.
    rewrite (Z.add_comm (Z.of_nat (List.length (setOf (splitWhiteSpace (toLowerCase a)))))).
    reflexivity.
  - unfold stringSimilarity.
    rewrite !truthyStr_toLowerCase, !toLowerCase_idem. reflexivity.
  - apply stringSimilarity_bounds.
  - intros Ha. apply truthyStr_true in Ha. unfold stringSimilarity.
    rewrite Ha. cbn [negb orb]. cbv zeta.
    set (w := setOf (splitWhiteSpace (toLowerCase a))).
    assert (Hw : w <> []).
    { apply setOf_nonempty. apply splitWhiteSpace_from_nonempty. }
    rewrite (filter_all (setHas w) w) by (intros x Hx; apply setHas_In, Hx).
    assert (Hn : 0 < Z.of_nat (List.length w))
      by (destruct w; [congruence | cbn [List.length]; lia]).
    replace (Z.of_nat (List.length w) + Z.of_nat (List.length w)
             - Z.of_nat (List.length w)) with (Z.of_nat (List.length w)) by lia.
    destruct (Z.gtb_spec (Z.of_nat (List.length w)) 0); [|lia].
    assert (Hq : (0 < inject_Z (Z.of_nat (List.length w)))%Q)
      by (change 0%Q with (inject_Z 0); rewrite <- Zlt_Qlt; lia).
    field. lra.
  - unfold stringSimilarity. cbn. rewrite orb_true_r. reflexivity.
  - reflexivity.
Qed.

(** ** extraction-state.js: the loose rule *)

Lemma doiMatch_sym a b : doiMatch a b = doiMatch b a.
Proof.
  unfold doiMatch. destruct (doi a), (doi b); try reflexivity.
  rewrite (andb_comm (truthyStr s)), String.eqb_sym. reflexivity.
Qed.

Lemma pmidMatch_sym a b : pmidMatch a b = pmidMatch b a.
Proof.
  unfold pmidMatch. destruct (pmid a), (pmid b); try reflexivity.
  rewrite (andb_comm (truthy (Some s))), String.eqb_sym. reflexivity.
Qed.

Lemma isbnMatch_sym a b : isbnMatch a b = isbnMatch b a.
Proof.
  unfold isbnMatch. destruct (isbn a), (isbn b); try reflexivity.
  rewrite (andb_comm (truthyStr s)), String.eqb_sym. reflexivity.
Qed.

Lemma sameFirstAuthor_sym a b : sameFirstAuthor a b = sameFirstAuthor b a.
Proof.
  unfold sameFirstAuthor.
  destruct (firstAuthorFamily a), (firstAuthorFamily b); try reflexivity.
  rewrite (andb_comm (truthyStr s)), String.eqb_sym. reflexivity.
Qed.

Lemma extractionsMatchByFields_criteria a b :
  extractionsMatchByFields a b =
  doiMatch a b || pmidMatch a b || isbnMatch a b
  || (hasAuthors a && hasAuthors b && sameFirstAuthor a b)
  || titlesOverlap a b || yearAndContainerMatch a b.
Proof.
  unfold extractionsMatchByFields.
  destruct (doiMatch a b); [reflexivity|].
  destruct (pmidMatch a b); [reflexivity|].
  destruct (isbnMatch a b); [reflexivity|].
  destruct (hasAuthors a && hasAuthors b && sameFirstAuthor a b); [reflexivity|].
  fold (titlesOverlap a b). destruct (titlesOverlap a b); reflexivity.
Qed.

Lemma titlesOverlap_sym a b : titlesOverlap a b = titlesOverlap b a.
Proof.
  unfold titlesOverlap.
  destruct (title a) as [t1|], (title b) as [t2|]; try reflexivity.
  cbv zeta.
  rewrite (andb_comm (truthyStr t1)),
    (Z.min_comm (len (trim (toLowerCase t1)))),
    (orb_comm (includes (trim (toLowerCase t1)) (trim (toLowerCase t2)))),
    (String.eqb_sym (substring0 (trim (toLowerCase t1)) _)).
  reflexivity.
Qed.

Lemma yearAndContainerMatch_sym a b :
  yearAndContainerMatch a b = yearAndContainerMatch b a.
Proof.
  unfold yearAndContainerMatch.
  destruct (year a) as [y1|], (year b) as [y2|],
    (container_title a) as [c1|], (container_title b) as [c2|]; try reflexivity.
  rewrite (String.eqb_sym (String_of y1)), (String.eqb_sym (toLowerCase c1)).
  destruct (truthy (Some y2)), (truthy (Some y1)), (truthyStr c1), (truthyStr c2);
    reflexivity.
Qed.

Lemma extractionsMatchByFields_sym a b :
  extractionsMatchByFields a b = extractionsMatchByFields b a.
Proof.
  rewrite !extractionsMatchByFields_criteria.
  rewrite (doiMatch_sym a b), (pmidMatch_sym a b), (isbnMatch_sym a b),
    (sameFirstAuthor_sym a b), (andb_comm (hasAuthors a)),
    (titlesOverlap_sym a b), (yearAndContainerMatch_sym a b).
  reflexivity.
Qed.

Lemma extractionsOverlap_roles a b :
  extractionsOverlap a b = true ->
  complete a = Some false /\ complete b = Some false /\
  truthyB (error a) = false /\ truthyB (error b) = false /\
  ((position a = Some "end" /\ position b = Some "start") \/
   (position a = Some "start" /\ position b = Some "end")).
Proof.
  unfold extractionsOverlap.
  destruct (truthyB (error a)) eqn:Ea; [discriminate|].
  destruct (truthyB (error b)) eqn:Eb; [discriminate|]. cbn [orb].
  unfold notIncomplete.
  destruct (complete a) as [[|]|]; try discriminate.
  destruct (complete b) as [[|]|]; try discriminate. cbn [orb].
  cbv zeta.
  destruct (positionIs a "end" && positionIs b "start") eqn:P1.
  - intros _. apply andb_true_iff in P1. destruct P1 as [Pa Pb].
    apply optStr_eqb_eq in Pa. apply optStr_eqb_eq in Pb.
    repeat split; auto.
  - destruct (positionIs a "start" && positionIs b "end") eqn:P2;
      [|discriminate].
    intros _. apply andb_true_iff in P2. destruct P2 as [Pa Pb].
    apply optStr_eqb_eq in Pa. apply optStr_eqb_eq in Pb.
    repeat split; auto.
Qed.

(** X7. The loose rule is the disjunction of its six criteria and does not
    depend on the order of the two extractions: [extractionsMatchByFields]
    is symmetric, and so is [extractionsOverlap], which holds only for two
    extractions that are both incomplete, not errors, and cut one at the end
    and one at the start. *)
Theorem extractionsOverlap_symmetric a b :
  extractionsMatchByFields a b =
    doiMatch a b || pmidMatch a b || isbnMatch a b
    || (hasAuthors a && hasAuthors b && sameFirstAuthor a b)
    || titlesOverlap a b || yearAndContainerMatch a b /\
  extractionsMatchByFields a b = extractionsMatchByFields b a /\
  extractionsOverlap a b = extractionsOverlap b a /\
  (extractionsOverlap a b = true ->
   complete a = Some false /\ complete b = Some false /\
   truthyB (error a) = false /\ truthyB (error b) = false /\
   ((position a = Some "end" /\ position b = Some "start") \/
    (position a = Some "start" /\ position b = Some "end"))).
Proof.
  split; [apply extractionsMatchByFields_criteria|].
  split; [apply extractionsMatchByFields_sym|]. split.
  - unfold extractionsOverlap.
    rewrite (orb_comm (truthyB (error a))), (orb_comm (notIncomplete a)),
      (extractionsMatchByFields_sym a b).
    destruct (truthyB (error b) || truthyB (error a)); [reflexivity|].
    destruct (notIncomplete b || notIncomplete a); [reflexivity|].
    rewrite (orb_comm (positionIs a "end" && positionIs b "start")),
      (andb_comm (positionIs a "start")), (andb_comm (positionIs a "end")).
    reflexivity.
  - apply extractionsOverlap_roles.
Qed.

(** ** extraction-state.js: the strict rule and deduplication *)

Lemma countInOrder_bounds shorter longer : forall matches longerIdx,
  matches <= countInOrder shorter longer matches longerIdx
          <= matches + len shorter.
Proof.
  induction shorter as [|c r IH]; intros matches longerIdx; cbn [countInOrder].
  - unfold len. simpl. lia.
  - cbv zeta. assert (Hl : len (String c r) = len r + 1)
      by (unfold len; cbn [String.length]; lia).
    destruct (negb _).
    + specialize (IH (matches + 1) (indexOf longer c longerIdx + 1)). lia.
    + specialize (IH matches longerIdx). lia.
Qed.

(** X8. [calculateSimilarity] lies between 0 and 1, is 1 on two equal
    strings that are not empty, and is 0 as soon as one string is empty. *)
Theorem calculateSimilarity_bounds str1 str2 :
  (0 <= calculateSimilarity str1 str2 <= 1)%Q /\
  (str1 <> "" -> calculateSimilarity str1 str1 = 1%Q) /\
  calculateSimilarity str1 "" = 0%Q /\ calculateSimilarity "" str2 = 0%Q.
Proof.
  split; [|split; [|split]].
  - unfold calculateSimilarity.
    destruct (truthyStr str1) eqn:T1; [|cbn; lra].
    destruct (truthyStr str2) eqn:T2; [|cbn; lra]. cbn [negb orb].
    destruct (String.eqb str1 str2); [lra|]. cbv zeta.
    apply truthyStr_true in T1. apply truthyStr_true in T2.
    assert (L1 : 0 < len str1) by (destruct str1; [congruence | unfold len; simpl; lia]).
    assert (L2 : 0 < len str2) by (destruct str2; [congruence | unfold len; simpl; lia]).
    set (longer := if len str1 >? len str2 then str1 else str2).
    set (shorter := if len str1 >? len str2 then str2 else str1).
    assert (Hls : 0 < len shorter <= len longer /\
                  len shorter <= len str1 /\ len shorter <= len str2)
      by (unfold longer, shorter; destruct (Z.gtb_spec (len str1) (len str2)); lia).
    destruct (Z.eqb_spec (len longer) 0) as [Hz|Hz]; [lra|].
    assert (Hq : forall k, 0 < k -> (0 < inject_Z k)%Q)
      by (intros k Hk; change 0%Q with (inject_Z 0); rewrite <- Zlt_Qlt; lia).
    destruct (includes longer shorter).
    + split.
      * apply Qle_shift_div_l; [apply Hq; lia|]. rewrite Qmult_0_l.
        change 0%Q with (inject_Z 0). rewrite <- Zle_Qle. lia.
      * apply Qle_shift_div_r; [apply Hq; lia|]. rewrite Qmult_1_l.
        rewrite <- Zle_Qle. lia.
    + pose proof (countInOrder_bounds shorter longer 0 0) as Hc. split.
      * apply Qle_shift_div_l; [apply Hq; lia|]. rewrite Qmult_0_l.
        change 0%Q with (inject_Z 0). rewrite <- Zle_Qle. lia.
      * apply Qle_shift_div_r; [apply Hq; lia|]. rewrite Qmult_1_l.
        rewrite <- Zle_Qle. lia.
  - intros H. apply truthyStr_true in H. unfold calculateSimilarity.
    rewrite H, String.eqb_refl. reflexivity.
  - unfold calculateSimilarity. cbn. rewrite orb_true_r. reflexivity.
  - reflexivity.
Qed.

Lemma idAdd_incl i ids : incl ids (idAdd i ids).
Proof.
  unfold idAdd. destruct (idHas ids i); intros x Hx; [exact Hx|].
  apply in_or_app. now left.
Qed.

Lemma idAdd_has i ids : In i (idAdd i ids).
Proof.
  unfold idAdd. destruct (idHas ids i) eqn:H; [apply idHas_In, H|].
  apply in_or_app. right. now left.
Qed.

Lemma dedupInner_incl ext1 rest : forall ids, incl ids (dedupInner ext1 rest ids).
Proof.
  induction rest as [|ext2 rest IH]; intros ids; cbn [dedupInner];
    [apply incl_refl|].
  destruct (truthyB (error ext2) || idHas ids (id ext2)); [apply IH|].
  destruct (extractionsAreDuplicates ext1 ext2); [|apply IH].
  cbv zeta. destruct (Qle_bool _ _).
  - eapply incl_tran; [apply idAdd_incl | apply IH].
  - apply idAdd_incl.
Qed.

Lemma dedupOuter_incl exts : forall ids, incl ids (dedupOuter exts ids).
Proof.
  induction exts as [|ext1 rest IH]; intros ids; cbn [dedupOuter];
    [apply incl_refl|].
  destruct (truthyB (error ext1) || idHas ids (id ext1)); [apply IH|].
  eapply incl_tran; [apply dedupInner_incl | apply IH].
Qed.

Lemma idHas_false_incl ids ids' i :
  incl ids ids' -> idHas ids' i = false -> idHas ids i = false.
Proof.
  intros Hincl H. destruct (idHas ids i) eqn:E; [|reflexivity].
  apply idHas_In in E. apply Hincl in E. apply idHas_In in E. congruence.
Qed.

(** When the inner loop has removed neither [ext1] nor [ext2], it has
    compared them and found them different. *)
Lemma dedupInner_compared ext1 rest : forall ids ext2,
  In ext2 rest ->
  idHas (dedupInner ext1 rest ids) (id ext1) = false ->
  idHas (dedupInner ext1 rest ids) (id ext2) = false ->
  truthyB (error ext2) = false ->
  extractionsAreDuplicates ext1 ext2 = false.
Proof.
  induction rest as [|x rest IH]; intros ids ext2 Hin H1 H2 He; [contradiction|].
  cbn [dedupInner] in H1, H2.
  assert (Hx : x = ext2 -> extractionsAreDuplicates ext1 ext2 = false).
  { intros ->. rewrite He in H1, H2. cbn [orb] in H1, H2.
    destruct (idHas ids (id ext2)) eqn:Hhas.
    - pose proof (dedupInner_incl ext1 rest ids) as Hincl.
      apply idHas_In in Hhas. apply Hincl in Hhas. apply idHas_In in Hhas.
      congruence.
    - destruct (extractionsAreDuplicates ext1 ext2); [|reflexivity].
      cbv zeta in H1, H2. destruct (Qle_bool _ _).
      + pose proof (dedupInner_incl ext1 rest (idAdd (id ext2) ids) _
                      (idAdd_has (id ext2) ids)) as Hc.
        apply idHas_In in Hc. congruence.
      + pose proof (idAdd_has (id ext1) ids) as Hc.
        apply idHas_In in Hc. congruence. }
  destruct Hin as [Hin|Hin]; [apply Hx, Hin|].
  destruct (truthyB (error x) || idHas ids (id x)); [apply (IH ids); assumption|].
  destruct (extractionsAreDuplicates ext1 x); [|apply (IH ids); assumption].
  cbv zeta in H1, H2. destruct (Qle_bool _ _).
  - apply (IH (idAdd (id x) ids)); assumption.
  - pose proof (idAdd_has (id ext1) ids) as Hc. apply idHas_In in Hc. congruence.
Qed.

(** The extractions that the pass keeps are pairwise different. *)
Lemma dedupOuter_pairs exts : forall ids,
  ForallOrdPairs notDuplicates
    (filter (fun e => negb (idHas (dedupOuter exts ids) (id e))) exts).
Proof.
  induction exts as [|a rest IH]; intros ids; [constructor|].
  cbn [dedupOuter filter].
  set (ids' := if truthyB (error a) || idHas ids (id a) then ids
               else dedupInner a rest ids).
  assert (Hfinal : dedupOuter rest ids' =
                   if truthyB (error a) || idHas ids (id a)
                   then dedupOuter rest ids
                   else dedupOuter rest (dedupInner a rest ids))
    by (unfold ids'; destruct (truthyB (error a) || idHas ids (id a)); reflexivity).
  rewrite <- Hfinal.
  destruct (idHas (dedupOuter rest ids') (id a)) eqn:Ha; cbn [negb]; [apply IH|].
  constructor; [|apply IH].
  apply Forall_forall. intros b Hb. apply filter_In in Hb. destruct Hb as [Hb Hkb].
  apply negb_true_iff in Hkb. intros Ea Eb.
  assert (Hids : idHas ids (id a) = false).
  { apply (idHas_false_incl ids (dedupOuter rest ids')); [|exact Ha].
    unfold ids'. destruct (truthyB (error a) || idHas ids (id a)).
    - apply dedupOuter_incl.
    - eapply incl_tran; [apply dedupInner_incl | apply dedupOuter_incl]. }
  unfold ids' in Ha, Hkb. rewrite Ea, Hids in Ha, Hkb. cbn [orb] in Ha, Hkb.
  apply (dedupInner_compared a rest ids b Hb).
  - apply (idHas_false_incl _ _ _ (dedupOuter_incl rest _) Ha).
  - apply (idHas_false_incl _ _ _ (dedupOuter_incl rest _) Hkb).
  - exact Eb.
Qed.

Lemma deduplicateExtractions_pairs st :
  ForallOrdPairs notDuplicates (extractions (fst (deduplicateExtractions st))).
Proof.
  unfold deduplicateExtractions.
  destruct (Z.ltb_spec (Z.of_nat (List.length (extractions st))) 2) as [Hshort|_].
  - cbn [fst]. destruct (extractions st) as [|a [|b rest]].
    + constructor.
    + constructor; constructor.
    + cbn [List.length] in Hshort. lia.
  - pose proof (dedupOuter_pairs (extractions st) []) as H.
    destruct (Z.eqb_spec (Z.of_nat (List.length (dedupOuter (extractions st) []))) 0)
      as [Hnone|_]; cbn [fst extractions]; [|exact H].
    destruct (dedupOuter (extractions st) []) as [|i ids];
      [|cbn [List.length] in Hnone; lia].
    rewrite filter_all in H by reflexivity. exact H.
Qed.

(** X9. After [deduplicateExtractions] no two extractions of the list that
    are not errors are duplicates: the strict rule does not match any
    extraction with one that comes after it. *)
Theorem deduplicateExtractions_leaves_no_duplicates st before a between b after :
  extractions (fst (deduplicateExtractions st)) =
    before ++ a :: between ++ b :: after ->
  truthyB (error a) = false -> truthyB (error b) = false ->
  extractionsAreDuplicates a b = false.
Proof.
  intros Heq Ea Eb.
  pose proof (deduplicateExtractions_pairs st) as H. rewrite Heq in H.
  assert (Hsuffix : forall l1 l2 : list Extraction,
            ForallOrdPairs notDuplicates (l1 ++ l2) ->
            ForallOrdPairs notDuplicates l2).
  { induction l1 as [|x l1 IH]; intros l2 Hp; [exact Hp|].
    inversion Hp; subst. apply IH. assumption. }
  apply Hsuffix in H. inversion H as [|? ? Hall _]; subst.
  rewrite Forall_forall in Hall.
  apply (Hall b); [apply in_or_app; right; now left | exact Ea | exact Eb].
Qed.

Lemma deduplicateExtractions_leaves_no_duplicates_witness :
  extractions (fst (deduplicateExtractions
                      (mkState [draftA; paperB; draftC] [] false)))
    = [] ++ paperB :: [] ++ draftC :: [] /\
  truthyB (error paperB) = false /\ truthyB (error draftC) = false /\
  extractionsAreDuplicates paperB draftC = false.
Proof.
  assert (H : extractions (fst (deduplicateExtractions
                      (mkState [draftA; paperB; draftC] [] false)))
    = [] ++ paperB :: [] ++ draftC :: []) by (vm_compute; reflexivity).
  split; [exact H|]. split; [reflexivity|]. split; [reflexivity|].
  apply (deduplicateExtractions_leaves_no_duplicates _ _ _ _ _ _ H);
    reflexivity.
Defined.

Lemma dedupInner_nothing ext1 rest : forall ids,
  Forall (notDuplicates ext1) rest -> truthyB (error ext1) = false ->
  dedupInner ext1 rest ids = ids.
Proof.
  induction rest as [|ext2 rest IH]; intros ids H E1; cbn [dedupInner];
    [reflexivity|].
  inversion H as [|? ? H2 Hrest]; subst.
  destruct (truthyB (error ext2)) eqn:E2; cbn [orb]; [apply IH; assumption|].
  destruct (idHas ids (id ext2)); [apply IH; assumption|].
  rewrite (H2 E1 E2). apply IH; assumption.
Qed.

Lemma dedupOuter_nothing exts : forall ids,
  ForallOrdPairs notDuplicates exts -> dedupOuter exts ids = ids.
Proof.
  induction exts as [|ext1 rest IH]; intros ids H; cbn [dedupOuter];
    [reflexivity|].
  inversion H as [|? ? H1 Hrest]; subst.
  destruct (truthyB (error ext1)) eqn:E1; cbn [orb]; [apply IH, Hrest|].
  destruct (idHas ids (id ext1)); [apply IH, Hrest|].
  rewrite (dedupInner_nothing ext1 rest ids H1 E1). apply IH, Hrest.
Qed.

(** X10. Deduplication is idempotent: run again on its own result, it
    removes nothing and returns 0. *)
Theorem deduplicateExtractions_idempotent st :
  deduplicateExtractions (fst (deduplicateExtractions st)) =
  (fst (deduplicateExtractions st), 0).
Proof.
  pose proof (deduplicateExtractions_pairs st) as H.
  set (st' := fst (deduplicateExtractions st)) in *.
  unfold deduplicateExtractions at 1.
  destruct (Z.of_nat (List.length (extractions st')) <? 2); [reflexivity|].
  rewrite (dedupOuter_nothing _ [] H). reflexivity.
Qed.

Lemma idAdd_NoDup i ids : NoDup ids -> NoDup (idAdd i ids).
Proof.
  intros H. unfold idAdd. destruct (idHas ids i) eqn:E; [exact H|].
  apply NoDup_app; [exact H | repeat constructor; intros [] |].
  intros x Hx [<-|[]]. apply idHas_In in Hx. congruence.
Qed.

Lemma dedupInner_NoDup ext1 rest : forall ids,
  NoDup ids -> NoDup (dedupInner ext1 rest ids).
Proof.
  induction rest as [|ext2 rest IH]; intros ids H; cbn [dedupInner]; [exact H|].
  destruct (truthyB (error ext2) || idHas ids (id ext2)); [apply IH, H|].
  destruct (extractionsAreDuplicates ext1 ext2); [|apply IH, H].
  cbv zeta. destruct (Qle_bool _ _); [apply IH|]; apply idAdd_NoDup, H.
Qed.

Lemma dedupOuter_NoDup exts : forall ids,
  NoDup ids -> NoDup (dedupOuter exts ids).
Proof.
  induction exts as [|ext1 rest IH]; intros ids H; cbn [dedupOuter]; [exact H|].
  destruct (truthyB (error ext1) || idHas ids (id ext1)); [apply IH, H|].
  apply IH, dedupInner_NoDup, H.
Qed.

Lemma filter_length_split {A} (p : A -> bool) l :
  (List.length (filter p l) + List.length (filter (fun x => negb (p x)) l)
   = List.length l)%nat.
Proof.
  induction l as [|x l IH]; cbn [filter List.length]; [reflexivity|].
  destruct (p x); cbn [negb List.length]; lia.
Qed.

Lemma NoDup_map_filter {A B} (f : A -> B) (p : A -> bool) l :
  NoDup (map f l) -> NoDup (map f (filter p l)).
Proof.
  induction l as [|x l IH]; cbn [map filter]; intros H; [constructor|].
  inversion H as [|? ? Hx Hl]; subst. destruct (p x); [|apply IH, Hl].
  cbn [map]. constructor; [|apply IH, Hl].
  intros Hin. apply Hx. apply in_map_iff in Hin. destruct Hin as (y & Hy & Hin).
  apply filter_In in Hin. rewrite <- Hy. apply in_map, Hin.
Qed.

(** The ids that the pass collects are ids of extractions of the list that
    are not errors. *)
Lemma dedupOuter_ids exts i :
  In i (dedupOuter exts []) ->
  exists e, In e exts /\ truthyB (error e) = false /\ i = id e.
Proof.
  intros H.
  destruct (dedupOuter_sound exts [] i H)
    as [[]|(before & a & rest & b & Heq & Hb & Ea & Eb & _ & [Hi|Hi])].
  - exists a. split; [rewrite Heq; apply in_or_app; right; now left|]. auto.
  - exists b. split; [rewrite Heq; apply in_or_app; right; now right|]. auto.
Qed.

Lemma removed_count exts ids :
  NoDup (map id exts) -> NoDup ids ->
  (forall i, In i ids -> exists e, In e exts /\ i = id e) ->
  List.length (filter (fun e => idHas ids (id e)) exts) = List.length ids.
Proof.
  intros Hexts Hids Hsub.
  rewrite <- (length_map id (filter (fun e => idHas ids (id e)) exts)).
  apply Nat.le_antisymm.
  - apply NoDup_incl_length; [apply NoDup_map_filter, Hexts|].
    intros x Hx. apply in_map_iff in Hx. destruct Hx as (e & <- & He).
    apply filter_In in He. apply idHas_In, He.
  - apply NoDup_incl_length; [exact Hids|].
    intros i Hi. destruct (Hsub i Hi) as (e & He & ->).
    apply in_map, filter_In. split; [exact He | apply idHas_In, Hi].
Qed.

(** X11. When the ids of the extractions are distinct,
    [deduplicateExtractions] removes the same ids from [extractions] and from
    [processingResults], keeps the other extractions in their order, returns
    the number of extractions that it has removed, and never removes an
    error extraction. *)
Theorem deduplicateExtractions_count st :
  NoDup (map id (extractions st)) ->
  exists removedIds : idSet,
    let keep := fun e => negb (idHas removedIds (id e)) in
    extractions (fst (deduplicateExtractions st))
      = filter keep (extractions st) /\
    processingResults (fst (deduplicateExtractions st))
      = filter keep (processingResults st) /\
    snd (deduplicateExtractions st) =
      Z.of_nat (List.length (extractions st))
      - Z.of_nat (List.length (extractions (fst (deduplicateExtractions st)))) /\
    (forall e, In e (extractions st) -> truthyB (error e) = true ->
       In e (extractions (fst (deduplicateExtractions st)))).
Proof.
  intros Hnd. unfold deduplicateExtractions.
  destruct (Z.of_nat (List.length (extractions st)) <? 2).
  - exists []. cbn [fst snd]. cbv zeta.
    rewrite !filter_all by reflexivity. repeat split; [lia | auto].
  - set (ids := dedupOuter (extractions st) []).
    destruct (Z.eqb_spec (Z.of_nat (List.length ids)) 0) as [Hz|Hz].
    + exists []. cbn [fst snd]. cbv zeta.
      rewrite !filter_all by reflexivity. repeat split; [lia | auto].
    + exists ids. cbn [fst snd extractions processingResults]. cbv zeta.
      split; [reflexivity|]. split; [reflexivity|]. split.
      * pose proof (filter_length_split (fun e => idHas ids (id e))
                      (extractions st)) as Hsplit.
        rewrite (removed_count (extractions st) ids Hnd) in Hsplit.
        -- lia.
        -- apply dedupOuter_NoDup. constructor.
        -- intros i Hi. destruct (dedupOuter_ids _ _ Hi) as (e & He & _ & Hid).
           exists e. auto.
      * intros e He Herr. apply filter_In. split; [exact He|].
        apply negb_true_iff. destruct (idHas ids (id e)) eqn:Hhas; [|reflexivity].
        exfalso. apply idHas_In in Hhas.
        destruct (dedupOuter_ids _ _ Hhas) as (x & Hx & Ex & Hid).
        assert (e = x) by (apply (NoDup_map_inj id (extractions st)); assumption).
        subst x. congruence.
Qed.

Lemma deduplicateExtractions_count_witness :
  NoDup (map id [draftA; paperB; draftC]) /\
  exists removedIds : idSet,
    let keep := fun e => negb (idHas removedIds (id e)) in
    let st := mkState [draftA; paperB; draftC] [draftC; draftA] false in
    extractions (fst (deduplicateExtractions st))
      = filter keep (extractions st) /\
    processingResults (fst (deduplicateExtractions st))
      = filter keep (processingResults st) /\
    snd (deduplicateExtractions st) =
      Z.of_nat (List.length (extractions st))
      - Z.of_nat (List.length (extractions (fst (deduplicateExtractions st)))) /\
    (forall e, In e (extractions st) -> truthyB (error e) = true ->
       In e (extractions (fst (deduplicateExtractions st)))).
Proof.
  assert (H : NoDup (map id [draftA; paperB; draftC])).
  { cbn. repeat constructor; cbn; intuition discriminate. }
  split; [exact H|].
  apply (deduplicateExtractions_count
           (mkState [draftA; paperB; draftC] [draftC; draftA] false) H).
Defined.

(** An id that the inner loop adds is the id of the loser of a comparison:
    of [ext2] when it does not score above [ext1], of [ext1] when [ext2]
    scores above it. *)
Lemma dedupInner_loser ext1 rest : forall ids i,
  In i (dedupInner ext1 rest ids) ->
  In i ids \/
  exists ext2, In ext2 rest /\
    ((i = id ext2 /\ (scoreExtraction ext2 <= scoreExtraction ext1)%Q) \/
     (i = id ext1 /\ (scoreExtraction ext1 < scoreExtraction ext2)%Q)).
Proof.
  induction rest as [|ext2 rest IH]; intros ids i Hi; cbn [dedupInner] in Hi.
  - now left.
  - assert (Hrec : forall ids', In i (dedupInner ext1 rest ids') ->
              In i ids' \/
              exists x, In x (ext2 :: rest) /\
                ((i = id x /\ (scoreExtraction x <= scoreExtraction ext1)%Q) \/
                 (i = id ext1 /\ (scoreExtraction ext1 < scoreExtraction x)%Q))).
    { intros ids' H. destruct (IH _ _ H) as [H'|(x & Hx & H')]; [now left|].
      right. exists x. split; [now right | exact H']. }
    destruct (truthyB (error ext2) || idHas ids (id ext2)); [apply Hrec, Hi|].
    destruct (extractionsAreDuplicates ext1 ext2); [|apply Hrec, Hi].
    cbv zeta in Hi.
    destruct (Qle_bool (scoreExtraction ext2) (scoreExtraction ext1)) eqn:Hs.
    + destruct (Hrec _ Hi) as [H|H]; [|now right].
      apply idAdd_In in H. destruct H as [H|H]; [|now left].
      right. exists ext2. split; [now left|]. left. split; [exact H|].
      apply Qle_bool_iff, Hs.
    + apply idAdd_In in Hi. destruct Hi as [H|H]; [|now left].
      right. exists ext2. split; [now left|]. right. split; [exact H|].
      apply Qnot_le_lt. intros Hle. apply Qle_bool_iff in Hle. congruence.
Qed.

Lemma dedupOuter_loser exts : forall ids i,
  In i (dedupOuter exts ids) ->
  In i ids \/
  exists before ext1 rest ext2,
    exts = before ++ ext1 :: rest /\ In ext2 rest /\
    ((i = id ext2 /\ (scoreExtraction ext2 <= scoreExtraction ext1)%Q) \/
     (i = id ext1 /\ (scoreExtraction ext1 < scoreExtraction ext2)%Q)).
Proof.
  induction exts as [|ext1 rest IH]; intros ids i Hi; cbn [dedupOuter] in Hi.
  - now left.
  - assert (Hlift : forall ids', In i (dedupOuter rest ids') ->
      In i ids' \/
      exists before a rest' b,
        ext1 :: rest = before ++ a :: rest' /\ In b rest' /\
        ((i = id b /\ (scoreExtraction b <= scoreExtraction a)%Q) \/
         (i = id a /\ (scoreExtraction a < scoreExtraction b)%Q))).
    { intros ids' H.
      destruct (IH _ _ H) as [H'|(before & a & rest' & b & Heq & H')];
        [now left|].
      right. exists (ext1 :: before), a, rest', b. rewrite Heq.
      split; [reflexivity | exact H']. }
    destruct (truthyB (error ext1) || idHas ids (id ext1)); [apply Hlift, Hi|].
    destruct (Hlift _ Hi) as [H|H]; [|now right].
    destruct (dedupInner_loser _ _ _ _ H) as [H'|(b & Hb & Hs)]; [now left|].
    right. exists [], ext1, rest, b. split; [reflexivity|]. split; assumption.
Qed.

(** X12. When the ids are distinct, an extraction that scores above every
    other extraction of the list is never removed by deduplication. *)
Theorem deduplicateExtractions_keeps_best st e :
  NoDup (map id (extractions st)) ->
  In e (extractions st) ->
  (forall e', In e' (extractions st) -> e' <> e ->
     (scoreExtraction e' < scoreExtraction e)%Q) ->
  In e (extractions (fst (deduplicateExtractions st))).
Proof.
  intros Hnd Hin Hbest. unfold deduplicateExtractions.
  destruct (Z.of_nat (List.length (extractions st)) <? 2); [exact Hin|].
  destruct (Z.of_nat (List.length (dedupOuter (extractions st) [])) =? 0);
    [exact Hin|].
  cbn [fst extractions]. apply filter_In. split; [exact Hin|].
  apply negb_true_iff.
  destruct (idHas (dedupOuter (extractions st) []) (id e)) eqn:Hhas;
    [|reflexivity].
  exfalso. apply idHas_In in Hhas.
  destruct (dedupOuter_loser _ _ _ Hhas)
    as [[]|(before & a & rest & b & Heq & Hb & Hs)].
  assert (Ha : In a (extractions st))
    by (rewrite Heq; apply in_or_app; right; now left).
  assert (Hb' : In b (extractions st))
    by (rewrite Heq; apply in_or_app; right; now right).
  assert (Hab : id a <> id b)
    by (apply (NoDup_map_split id before a rest b);
        [rewrite <- Heq; exact Hnd | exact Hb]).
  destruct Hs as [[Hid Hle]|[Hid Hlt]].
  - assert (e = b) by (apply (NoDup_map_inj id (extractions st)); assumption).
    subst e. assert (Hne : a <> b) by congruence.
    pose proof (Hbest a Ha Hne). lra.
  - assert (e = a) by (apply (NoDup_map_inj id (extractions st)); assumption).
    subst e. assert (Hne : b <> a) by congruence.
    pose proof (Hbest b Hb' Hne). lra.
Qed.

Lemma deduplicateExtractions_keeps_best_witness :
  NoDup (map id [draftA; paperB; draftC]) /\
  In paperB (extractions (fst (deduplicateExtractions
                                 (mkState [draftA; paperB; draftC] [] false)))).
Proof.
  assert (H : NoDup (map id [draftA; paperB; draftC])).
  { cbn. repeat constructor; cbn; intuition discriminate. }
  split; [exact H|].
  apply (deduplicateExtractions_keeps_best
           (mkState [draftA; paperB; draftC] [] false) paperB H).
  - right. left. reflexivity.
  - intros e' [<-|[<-|[<-|[]]]] Hne;
      [vm_compute; reflexivity | congruence | vm_compute; reflexivity].
Defined.

(** ** extraction-processor.js: merge *)

Lemma descr_markComplete e : descr (markComplete e) = descr e.
Proof. reflexivity. Qed.

Lemma descr_mergeRawText s e : descr (mergeRawText s e) = descr e.
Proof. descr_step mergeRawText. Qed.

Lemma descr_mergeTitle s e :
  descr (mergeTitle s e) =
  (id e, index e, windowIndex e, colorIndex e,
   preferLonger (title e) (title s), container_title e,
   query_bibliographic e, authors e, authors_truncated e).
Proof.
  unfold descr, mergeTitle, preferLonger.
  destruct (truthyS (title e)), (truthyS (title s)); cbn [andb negb];
    try destruct (lenS (title s) >? lenS (title e)); reflexivity.
Qed.

Lemma descr_mergeTextFields s e :
  descr (mergeTextFields s e) =
  (id e, index e, windowIndex e, colorIndex e, title e,
   preferLonger (container_title e) (container_title s),
   preferLonger (query_bibliographic e) (query_bibliographic s),
   authors e, authors_truncated e).
Proof. reflexivity. Qed.

Lemma descr_mergeSimpleFields s e : descr (mergeSimpleFields s e) = descr e.
Proof. reflexivity. Qed.

Lemma descr_mergeAuthors s e :
  descr (mergeAuthors s e) =
  (id e, index e, windowIndex e, colorIndex e, title e, container_title e,
   query_bibliographic e, longerAuthors (authors e) (authors s),
   authors_truncated e).
Proof.
  unfold descr, mergeAuthors, longerAuthors, authorsCount.
  destruct (authors s) as [sa|]; [|reflexivity]. cbv zeta.
  destruct (Z.of_nat (List.length sa) >? _); reflexivity.
Qed.

Lemma descr_mergeTruncated s e :
  descr (mergeTruncated s e) =
  (id e, index e, windowIndex e, colorIndex e, title e, container_title e,
   query_bibliographic e, authors e,
   eitherTruncated (authors_truncated e) (authors_truncated s)).
Proof.
  unfold descr, mergeTruncated, eitherTruncated.
  destruct (truthyB (authors_truncated e) || truthyB (authors_truncated s));
    reflexivity.
Qed.

Lemma tuple9_inv {A1 A2 A3 A4 A5 A6 A7 A8 A9 : Type}
    (a1 b1 : A1) (a2 b2 : A2) (a3 b3 : A3) (a4 b4 : A4) (a5 b5 : A5)
    (a6 b6 : A6) (a7 b7 : A7) (a8 b8 : A8) (a9 b9 : A9) :
  (a1, a2, a3, a4, a5, a6, a7, a8, a9) = (b1, b2, b3, b4, b5, b6, b7, b8, b9) ->
  a1 = b1 /\ a2 = b2 /\ a3 = b3 /\ a4 = b4 /\ a5 = b5 /\ a6 = b6 /\
  a7 = b7 /\ a8 = b8 /\ a9 = b9.
Proof. intros H. inversion H. repeat split. Qed.

(** The merged record, field by field. *)
Lemma descr_mergeExtractions primary secondary :
  positionIs primary "end" = true ->
  descr (mergeExtractions primary secondary) =
  (id primary, index primary, windowIndex primary, colorIndex primary,
   preferLonger (title primary) (title secondary),
   preferLonger (container_title primary) (container_title secondary),
   preferLonger (query_bibliographic primary) (query_bibliographic secondary),
   longerAuthors (authors primary) (authors secondary),
   eitherTruncated (authors_truncated primary) (authors_truncated secondary)).
Proof.
  intros Hpos. unfold mergeExtractions. rewrite Hpos. cbv zeta.
  set (e0 := markComplete primary).
  set (e1 := mergeRawText secondary e0). set (e2 := mergeTitle secondary e1).
  set (e3 := mergeTextFields secondary e2).
  set (e4 := mergeSimpleFields secondary e3).
  set (e5 := mergeAuthors secondary e4).
  pose proof (descr_markComplete primary) as H0.
  pose proof (descr_mergeRawText secondary e0) as H1.
  pose proof (descr_mergeTitle secondary e1) as H2.
  pose proof (descr_mergeTextFields secondary e2) as H3.
  pose proof (descr_mergeSimpleFields secondary e3) as H4.
  pose proof (descr_mergeAuthors secondary e4) as H5.
  rewrite descr_mergeTruncated.
  fold e0 in H0. fold e1 in H1. fold e2 in H2. fold e3 in H3. fold e4 in H4.
  fold e5 in H5.
  unfold descr in H0, H1, H2, H3, H4, H5.
  apply tuple9_inv in H0, H1, H2, H3, H4, H5.
  destruct H0 as (? & ? & ? & ? & ? & ? & ? & ? & ?).
  destruct H1 as (? & ? & ? & ? & ? & ? & ? & ? & ?).
  destruct H2 as (? & ? & ? & ? & ? & ? & ? & ? & ?).
  destruct H3 as (? & ? & ? & ? & ? & ? & ? & ? & ?).
  destruct H4 as (? & ? & ? & ? & ? & ? & ? & ? & ?).
  destruct H5 as (? & ? & ? & ? & ? & ? & ? & ? & ?).
  congruence.
Qed.

Lemma preferLonger_longerOf p s : longerOf p s (preferLonger p s).
Proof.
  unfold longerOf, preferLonger.
  destruct (truthyS p), (truthyS s); cbn [andb negb]; repeat split;
    try congruence; intros; destruct (lenS s >? lenS p); reflexivity.
Qed.

(** X14. Merging keeps the identity of the primary, the [position = "end"]
    extraction ([id], [index], [windowIndex], [colorIndex]: no new identity
    is made); of [title], [container_title] and [query_bibliographic] it
    keeps the longer text, the primary's when the two are as long; it keeps
    the longer list of authors; and [authors_truncated] is set when it was
    set on either side. *)
Theorem mergeExtractions_identity_and_longer primary secondary :
  positionIs primary "end" = true ->
  let m := mergeExtractions primary secondary in
  (id m = id primary /\ index m = index primary /\
   windowIndex m = windowIndex primary /\ colorIndex m = colorIndex primary) /\
  longerOf (title primary) (title secondary) (title m) /\
  longerOf (container_title primary) (container_title secondary)
    (container_title m) /\
  longerOf (query_bibliographic primary) (query_bibliographic secondary)
    (query_bibliographic m) /\
  (authors m = authors primary \/ authors m = authors secondary) /\
  authorsCount (authors m) =
    Z.max (authorsCount (authors primary)) (authorsCount (authors secondary)) /\
  truthyB (authors_truncated m) =
    truthyB (authors_truncated primary) || truthyB (authors_truncated secondary).
Proof.
  intros Hpos m. pose proof (descr_mergeExtractions primary secondary Hpos) as H.
  fold m in H. unfold descr in H. apply tuple9_inv in H.
  destruct H as (Hid & Hidx & Hw & Hc & Ht & Hct & Hq & Ha & Htr).
  split; [auto|]. rewrite Ht, Hct, Hq, Ha, Htr.
  split; [apply preferLonger_longerOf|]. split; [apply preferLonger_longerOf|].
  split; [apply preferLonger_longerOf|].
  unfold longerAuthors, eitherTruncated, authorsCount.
  split; [|split].
  - destruct (authors secondary) as [sa|]; [|now left].
    destruct (Z.of_nat (List.length sa) >? _); [now right | now left].
  - destruct (authors secondary) as [sa|], (authors primary) as [pa|];
      try destruct (Z.gtb_spec (Z.of_nat (List.length sa))
                      (Z.of_nat (List.length pa)));
      try destruct (Z.gtb_spec (Z.of_nat (List.length sa)) 0); lia.
  - destruct (truthyB (authors_truncated primary)) eqn:Hp,
      (truthyB (authors_truncated secondary)); cbn [orb]; auto.
Qed.

Lemma mergeExtractions_identity_and_longer_witness :
  positionIs scenarioB_end "end" = true /\
  id (mergeExtractions scenarioB_end scenarioB_start) = id scenarioB_end.
Proof.
  split; [reflexivity|].
  exact (proj1 (proj1 (mergeExtractions_identity_and_longer scenarioB_end
                         scenarioB_start eq_refl))).
Defined.

(** ** extraction-processor.js: the loop over the windows *)

Lemma processCitation_last w citation r acc :
  snd (processCitation w true citation r acc) = acc.
Proof.
  unfold processCitation. cbv zeta.
  destruct (_ && (_ >=? 0)).
  - destruct (nth_error _ _); reflexivity.
  - cbn [negb]. rewrite andb_false_r. reflexivity.
Qed.

Lemma processCitations_last w citations : forall r acc,
  snd (processCitations w true citations r acc) = acc.
Proof.
  induction citations as [|c cs IH]; intros r acc; cbn [processCitations].
  - reflexivity.
  - pose proof (processCitation_last w c r acc) as H.
    destruct (processCitation w true c r acc) as [r1 acc1]. cbn [snd] in H.
    subst acc1. apply IH.
Qed.

Lemma processWindow_last total ev r :
  pendingIncompleteEnd (processWindow (total - 1) total ev r) = [].
Proof.
  destruct (outcome ev) as [citations|message] eqn:Hout.
  - unfold processWindow. rewrite Hout, Z.eqb_refl. cbv zeta.
    destruct (cancelAfterCall ev); [reflexivity|].
    match goal with
    | |- context [processCitations ?w true ?cs ?r0 []] =>
        pose proof (processCitations_last w cs r0 []) as H;
        destruct (processCitations w true cs r0 []) as [r2 acc]
    end.
    cbn [snd] in H. subst acc. reflexivity.
  - apply (processWindow_failed _ _ _ _ _ Hout).
Qed.

Lemma flushPending_nothing r :
  pendingIncompleteEnd r = [] -> flushPending r = r.
Proof. unfold flushPending. intros ->. reflexivity. Qed.

(** X15. In a run whose loop over the windows is not cancelled, nothing is
    held back once the last window is done: an extraction cut at the end of
    the last window is handed to validation at once (case 2 asks for
    [!isLastWindow]), so the loop that follows the windows, which hands the
    extractions still pending to validation, finds none. *)
Theorem processAllWindows_nothing_left_pending st events cancelAtEnd :
  notCancelled events ->
  let r := processWindows events 0 (Z.of_nat (List.length events))
             (initialRun st) in
  pendingIncompleteEnd r = [] /\
  processAllWindows st events cancelAtEnd = r.
Proof.
  intros Hnc r.
  assert (Hp : pendingIncompleteEnd r = []).
  { unfold r. clear r. destruct events as [|e0 es]; [reflexivity|].
    destruct (exists_last (l := e0 :: es)) as (before & ev & He);
      [discriminate|].
    rewrite He in *. apply Forall_app in Hnc. destruct Hnc as [Hb Hev].
    inversion Hev as [|? ? Hc _]; subst.
    rewrite (processWindows_app _ before [ev] 0 _ Hb).
    cbn [processWindows]. rewrite Hc, length_app. cbn [List.length].
    replace (0 + Z.of_nat (List.length before))
      with (Z.of_nat (List.length before + 1) - 1) by lia.
    apply processWindow_last. }
  split; [exact Hp|].
  unfold processAllWindows. fold r.
  destruct (negb cancelAtEnd); [apply flushPending_nothing, Hp | reflexivity].
Qed.

Lemma processAllWindows_nothing_left_pending_witness :
  notCancelled scenarioE /\
  processAllWindows createExtractionState scenarioE false =
  processWindows scenarioE 0 (Z.of_nat (List.length scenarioE))
    (initialRun createExtractionState).
Proof.
  assert (H : notCancelled scenarioE) by (repeat constructor).
  split; [exact H|].
  exact (proj2 (processAllWindows_nothing_left_pending createExtractionState
                  scenarioE false H)).
Defined.

(** The loop of case 3 removes the last pending extraction that the complete
    one supersedes, and no other. *)
Lemma dropSuperseded_spec processed : forall revPending,
  (Forall (notSuperseded processed) revPending /\
   dropSuperseded revPending processed = revPending) \/
  (exists a p b,
     revPending = a ++ p :: b /\ Forall (notSuperseded processed) a /\
     completeSupersedes p processed = true /\
     dropSuperseded revPending processed = a ++ b).
Proof.
  induction revPending as [|q rest IH]; simpl.
  - left. split; [constructor | reflexivity].
  - destruct (completeSupersedes q processed) eqn:Hq.
    + right. exists [], q, rest. repeat split; [constructor | exact Hq].
    + destruct IH as [[Hall Heq] | (a & p & b & Hr & Ha & Hp & Heq)].
      * left. split; [constructor; assumption | now rewrite Heq].
      * right. exists (q :: a), p, b. rewrite Heq, Hr.
        repeat split; [constructor; assumption | exact Hp].
Qed.

Lemma dropLastSuperseded_spec processed pending :
  let pending' := rev (dropSuperseded (rev pending) processed) in
  (Forall (notSuperseded processed) pending /\ pending' = pending) \/
  (exists before p after,
     pending = before ++ p :: after /\
     completeSupersedes p processed = true /\
     Forall (notSuperseded processed) after /\
     pending' = before ++ after).
Proof.
  cbv zeta.
  destruct (dropSuperseded_spec processed (rev pending))
    as [[Hall Heq] | (a & p & b & Hr & Ha & Hp & Heq)].
  - left. rewrite Heq, rev_involutive. split; [|reflexivity].
    apply Forall_rev in Hall. now rewrite rev_involutive in Hall.
  - right. exists (rev b), p, (rev a).
    apply (f_equal (@rev _)) in Hr. rewrite rev_involutive in Hr.
    rewrite Heq, Hr, !rev_app_distr. cbn [rev]. rewrite <- app_assoc.
    repeat split; [exact Hp | now apply Forall_rev].
Qed.

(** X16. A complete citation is handed to validation at once, under the next
    free index, and nothing of it is held for the next window.  Of the
    extractions held from the window before, it removes at most one: the
    last one that it supersedes; that one is dropped without being
    validated, and the others stay as they are, in order. *)
Theorem processCitation_complete_supersedes w isLast citation r acc :
  notIncomplete citation = true ->
  let processed := processExtraction citation (extractionIndex r) w in
  let r' := fst (processCitation w isLast citation r acc) in
  snd (processCitation w isLast citation r acc) = acc /\
  dispatched r' = dispatched r ++ [processed] /\
  extractionIndex r' = extractionIndex r + 1 /\
  state r' = state r /\
  ((Forall (notSuperseded processed) (pendingIncompleteEnd r) /\
    pendingIncompleteEnd r' = pendingIncompleteEnd r) \/
   (exists before p after,
      pendingIncompleteEnd r = before ++ p :: after /\
      completeSupersedes p processed = true /\
      Forall (notSuperseded processed) after /\
      pendingIncompleteEnd r' = before ++ after)).
Proof.
  intros Hc processed r'. unfold r', processCitation. cbv zeta. fold processed.
  assert (Hp : notIncomplete processed = true) by exact Hc.
  rewrite Hp. cbn [negb andb fst snd].
  repeat split.
  exact (dropLastSuperseded_spec processed (pendingIncompleteEnd r)).
Qed.

Lemma processCitation_complete_supersedes_witness :
  notIncomplete fullCitation = true /\
  dispatched (fst (processCitation 3 false fullCitation
                     (set_pending [cutAtEnd] (initialRun createExtractionState))
                     [])) =
  [processExtraction fullCitation 0 3].
Proof.
  split; [reflexivity|].
  exact (proj1 (proj2 (processCitation_complete_supersedes 3 false fullCitation
           (set_pending [cutAtEnd] (initialRun createExtractionState)) []
           eq_refl))).
Defined.

(** *** Identities *)

Lemma append_inj_l p : forall s t, String.append p s = String.append p t -> s = t.
Proof.
  induction p as [|c p IH]; intros s t H; cbn in H; [exact H|].
  injection H as H. now apply IH.
Qed.

Lemma to_int_proper z : Z.to_int z <> Decimal.Pos Decimal.Nil /\
                        Z.to_int z <> Decimal.Neg Decimal.Nil.
Proof.
  destruct z as [|p|p]; cbn; split; try discriminate;
    intros [= H]; now apply (DecimalPos.Unsigned.to_uint_nonnil p).
Qed.

(** The decimal notation of an integer determines it. *)
Lemma String_of_Num_inj a b : String_of (Num a) = String_of (Num b) -> a = b.
Proof.
  unfold String_of. intros H.
  apply (f_equal NilZero.int_of_string) in H.
  destruct (to_int_proper a) as [A1 A2], (to_int_proper b) as [B1 B2].
  rewrite !NilZero.isi in H by assumption.
  injection H as H. now apply DecimalZ.to_int_inj.
Qed.

Lemma extractionId_inj a b : extractionId a = extractionId b -> a = b.
Proof.
  unfold extractionId. intros H. apply append_inj_l in H.
  now apply String_of_Num_inj.
Qed.

Lemma occ_app k l1 l2 : occ k (l1 ++ l2) = (occ k l1 + occ k l2)%nat.
Proof. unfold occ. now rewrite filter_app, length_app. Qed.

Lemma occ_one k e : occ k [e] = if indexIs k e then 1%nat else 0%nat.
Proof. unfold occ. cbn. now destruct (indexIs k e). Qed.

Lemma occ_cons k e l : occ k (e :: l) = (occ k [e] + occ k l)%nat.
Proof. exact (occ_app k [e] l). Qed.

Lemma occ_same k e m : index m = index e -> occ k [m] = occ k [e].
Proof. intros H. rewrite !occ_one. unfold indexIs. now rewrite H. Qed.

Lemma occ_In k e l : In e l -> index e = Some k -> (1 <= occ k l)%nat.
Proof.
  induction l as [|x l IH]; intros Hin Hk; [destruct Hin|].
  rewrite occ_cons, occ_one. destruct Hin as [->|Hin].
  - unfold indexIs. rewrite Hk, Z.eqb_refl. lia.
  - specialize (IH Hin Hk). lia.
Qed.

Lemma occ_fresh bound l k :
  (forall e, In e l -> numbered bound e) -> bound <= k -> occ k l = 0%nat.
Proof.
  induction l as [|x l IH]; intros Hall Hk; [reflexivity|].
  rewrite occ_cons, occ_one, IH; [|intros e He; apply Hall; now right|exact Hk].
  destruct (Hall x (or_introl eq_refl)) as (j & Hj & Hx & _).
  unfold indexIs. rewrite Hx. destruct (Z.eqb_spec j k); [lia | reflexivity].
Qed.

Lemma numbered_mono bound bound' e :
  bound <= bound' -> numbered bound e -> numbered bound' e.
Proof. intros H (k & Hk & Hi & Hd). exists k. repeat split; try assumption; lia. Qed.

Lemma numbered_same bound e m :
  index m = index e -> id m = id e -> numbered bound e -> numbered bound m.
Proof. intros Hi Hd (k & Hk & Hi' & Hd'). exists k. rewrite Hi, Hd. auto. Qed.

Lemma numbered_next e bound :
  0 <= bound -> index e = Some bound -> id e = Some (extractionId bound) ->
  numbered (bound + 1) e.
Proof. intros Hb Hi Hd. exists bound. repeat split; try assumption; lia. Qed.

(** Records that are well numbered have pairwise distinct indices and
    pairwise distinct identifiers. *)
Lemma wellNumbered_NoDup bound l :
  wellNumbered bound l -> NoDup (map index l) /\ NoDup (map id l).
Proof.
  induction l as [|e l IH]; intros [Hall Hocc]; cbn [map];
    [split; constructor|].
  destruct IH as [IH1 IH2].
  { split; [intros x Hx; apply Hall; now right|].
    intros k. specialize (Hocc k). rewrite occ_cons in Hocc. lia. }
  destruct (Hall e (or_introl eq_refl)) as (k & Hk & Hi & Hd).
  assert (Hfree : occ k l = 0%nat).
  { specialize (Hocc k). rewrite occ_cons, occ_one in Hocc.
    unfold indexIs in Hocc. rewrite Hi, Z.eqb_refl in Hocc. lia. }
  split; constructor; try assumption.
  - intros Hin. apply in_map_iff in Hin. destruct Hin as (x & Hx & Hxl).
    pose proof (occ_In k x l Hxl) as H. rewrite Hx, Hi in H.
    specialize (H eq_refl). lia.
  - intros Hin. apply in_map_iff in Hin. destruct Hin as (x & Hx & Hxl).
    destruct (Hall x (or_intror Hxl)) as (j & Hj & Hxi & Hxd).
    assert (Hjk : extractionId j = extractionId k) by congruence.
    apply extractionId_inj in Hjk. subst j. pose proof (occ_In k x l Hxl Hxi). lia.
Qed.

Lemma splice1_found {A} (l : list A) k e :
  nth_error l (Z.to_nat k) = Some e ->
  exists l1 l2, l = l1 ++ e :: l2 /\ splice1 l k = l1 ++ l2.
Proof.
  unfold splice1. generalize (Z.to_nat k) as n. clear k.
  induction l as [|x l IH]; intros [|n] H; cbn in H; try discriminate.
  - injection H as ->. exists [], l. split; reflexivity.
  - destruct (IH n H) as (l1 & l2 & Hl & Hs).
    exists (x :: l1), l2. cbn [firstn skipn app] in *. rewrite Hs.
    split; [now rewrite Hl at 1 | reflexivity].
Qed.

Ltac in_parts H :=
  rewrite ?in_app_iff in H; cbn [In] in H; rewrite ?in_app_iff in H.

Ltac from_parts Hall :=
  apply Hall; rewrite ?in_app_iff; cbn [In]; rewrite ?in_app_iff; tauto.

Ltac count_parts Hocc k :=
  specialize (Hocc k); rewrite ?occ_app in *;
  repeat match goal with
  | H : context [occ k (?e :: ?l)] |- _ =>
      lazymatch l with [] => fail | _ => rewrite (occ_cons k e l) in H end
  | |- context [occ k (?e :: ?l)] =>
      lazymatch l with [] => fail | _ => rewrite (occ_cons k e l) end
  end;
  rewrite ?occ_app in *.

(** One citation of a window leaves the records well numbered. *)
Lemma processCitation_numbered w isLast citation r acc :
  0 <= extractionIndex r ->
  wellNumbered (extractionIndex r) (allRecords r acc) ->
  let res := processCitation w isLast citation r acc in
  0 <= extractionIndex (fst res) /\
  wellNumbered (extractionIndex (fst res)) (allRecords (fst res) (snd res)).
Proof.
  intros Hb [Hall Hocc]. cbv zeta. unfold processCitation. cbv zeta.
  set (processed := processExtraction citation (extractionIndex r) w).
  set (numberedNow :=
         set_index (Some (extractionIndex r))
           (set_id (Some (extractionId (extractionIndex r))) processed)).
  assert (Hnew : numbered (extractionIndex r + 1) numberedNow)
    by (apply numbered_next; [exact Hb | reflexivity | reflexivity]).
  assert (Hnewocc : forall k l, (forall e, In e l -> numbered (extractionIndex r) e) ->
            (occ k [numberedNow] + occ k l <= 1 + occ k l)%nat /\
            (occ k [numberedNow] = 1%nat -> occ k l = 0%nat)).
  { intros k l Hl. rewrite occ_one. unfold indexIs. cbn [numberedNow index set_index].
    destruct (Z.eqb_spec (extractionIndex r) k) as [<-|Hne].
    - rewrite (occ_fresh (extractionIndex r) l (extractionIndex r) Hl) by lia. lia.
    - split; [lia | discriminate]. }
  match goal with
  | |- context [if _ && (_ >=? 0) then _ else ?e] => set (rest := e)
  end.
  assert (Hrest : 0 <= extractionIndex (fst rest) /\
            wellNumbered (extractionIndex (fst rest))
              (allRecords (fst rest) (snd rest))).
  { unfold rest.
    destruct (negb (notIncomplete processed) && positionIs processed "end"
              && negb isLast).
    - (* held for the next window *)
      cbn [fst snd set_extractionIndex extractionIndex]. split; [lia|].
      unfold allRecords in *.
      cbn [dispatched pendingIncompleteEnd state set_extractionIndex].
      fold numberedNow. split.
      + intros e He. in_parts He.
        destruct He as [He|[He|[He|[He|[<-|[]]]]]];
          try exact Hnew;
          (apply (numbered_mono (extractionIndex r)); [lia|]; from_parts Hall).
      + intros k. destruct (Hnewocc k _ Hall) as [H1 H2].
        count_parts Hocc k. rewrite ?occ_app in *. lia.
    - (* validated at once, after the superseded one is dropped *)
      set (r1 := if notIncomplete processed then _ else r).
      assert (H1 : state r1 = state r /\ dispatched r1 = dispatched r /\
                   extractionIndex r1 = extractionIndex r /\
                   ((pendingIncompleteEnd r1 = pendingIncompleteEnd r) \/
                    exists before p after,
                      pendingIncompleteEnd r = before ++ p :: after /\
                      pendingIncompleteEnd r1 = before ++ after)).
      { unfold r1. destruct (notIncomplete processed);
          [|repeat split; now left].
        cbn [state dispatched extractionIndex pendingIncompleteEnd set_pending].
        repeat split.
        destruct (dropLastSuperseded_spec processed (pendingIncompleteEnd r))
          as [[_ H]|(before & p & after & Hp & _ & _ & H)];
          [now left | right; exists before, p, after; now split]. }
      destruct H1 as (Hs & Hd & Hi & Hp).
      cbn [fst snd set_extractionIndex extractionIndex startValidation].
      rewrite Hi. split; [lia|].
      unfold allRecords in *.
      cbn [dispatched pendingIncompleteEnd state set_extractionIndex
           startValidation].
      rewrite Hs, Hd, ?Hi. fold numberedNow.
      destruct Hp as [Hp|(before & p & after & Hp & Hp1)].
      + rewrite Hp. split.
        * intros e He. in_parts He.
          destruct He as [[He|[<-|[]]]|[He|[He|He]]];
            try exact Hnew;
            (apply (numbered_mono (extractionIndex r)); [lia|]; from_parts Hall).
        * intros k. destruct (Hnewocc k _ Hall) as [H1 H2].
          count_parts Hocc k. lia.
      + rewrite Hp1. rewrite Hp in Hall, Hocc. split.
        * intros e He. in_parts He.
          destruct He as [[He|[<-|[]]]|[[He|He]|[He|He]]];
            try exact Hnew;
            (apply (numbered_mono (extractionIndex r)); [lia|]; from_parts Hall).
        * intros k. destruct (Hnewocc k _ Hall) as [H1 H2].
          count_parts Hocc k. lia. }
  destruct (negb (notIncomplete processed) && positionIs processed "start")
    eqn:Hstart; cbn [andb]; [|exact Hrest].
  cbv iota.
  destruct (findMatchingPendingEnd (pendingIncompleteEnd r) processed >=? 0)
    eqn:Hm; [|exact Hrest].
  apply Z.geb_le in Hm.
  destruct (findMatchingPendingEnd_found _ _ Hm) as (endE & Hn & Ho).
  rewrite Hn.
  destruct (splice1_found _ _ _ Hn) as (l1 & l2 & Hp & Hsp).
  assert (Hend : positionIs endE "end" = true).
  { apply andb_prop in Hstart. destruct Hstart as [_ Hs].
    unfold positionIs in *. apply optStr_eqb_eq in Hs. apply optStr_eqb_eq.
    destruct (extractionsOverlap_roles _ _ Ho)
      as (_ & _ & _ & _ & [[H _]|[_ H]]); [exact H|].
    rewrite Hs in H. discriminate. }
  pose proof (descr_mergeExtractions endE processed Hend) as Hd.
  unfold descr in Hd. apply tuple9_inv in Hd.
  destruct Hd as (Hid & Hidx & _).
  set (merged := mergeExtractions endE processed) in *.
  cbn [fst snd startValidation set_pending extractionIndex]. split; [exact Hb|].
  unfold allRecords in *.
  cbn [dispatched pendingIncompleteEnd state startValidation set_pending].
  rewrite Hsp. rewrite Hp in Hall, Hocc. split.
  - intros e He. in_parts He.
    destruct He as [[He|[<-|[]]]|[[He|He]|[He|He]]];
      try (from_parts Hall).
    apply (numbered_same _ endE); [exact Hidx | exact Hid | from_parts Hall].
  - intros k. pose proof (occ_same k endE merged Hidx) as Hsame.
    count_parts Hocc k. lia.
Qed.

Lemma processCitations_numbered w isLast citations : forall r acc,
  0 <= extractionIndex r ->
  wellNumbered (extractionIndex r) (allRecords r acc) ->
  let res := processCitations w isLast citations r acc in
  0 <= extractionIndex (fst res) /\
  wellNumbered (extractionIndex (fst res)) (allRecords (fst res) (snd res)).
Proof.
  induction citations as [|c cs IH]; intros r acc Hb Hw; cbn [processCitations].
  - split; assumption.
  - pose proof (processCitation_numbered w isLast c r acc Hb Hw) as H.
    cbv zeta in H. destruct (processCitation w isLast c r acc) as [r1 acc1].
    cbn [fst snd] in H. destruct H as [Hb1 Hw1]. apply IH; assumption.
Qed.

(** One window leaves the records well numbered. *)
Lemma processWindow_numbered i total ev r :
  0 <= extractionIndex r ->
  wellNumbered (extractionIndex r) (allRecords r []) ->
  let r' := processWindow i total ev r in
  0 <= extractionIndex r' /\
  wellNumbered (extractionIndex r') (allRecords r' []).
Proof.
  intros Hb Hw. cbv zeta.
  destruct (outcome ev) as [citations|message] eqn:Hout.
  - unfold processWindow. rewrite Hout. cbv zeta.
    set (r1 := mkRun (state r) (extractionIndex r) (pendingIncompleteEnd r)
                 (dispatched r) (windowsStarted r ++ [i]) (errorsReported r)).
    assert (H : 0 <= extractionIndex
                       (fst (if cancelAfterCall ev then (r1, [])
                             else processCitations (i + 1) (i =? total - 1)
                                    citations r1 [])) /\
                wellNumbered
                  (extractionIndex
                     (fst (if cancelAfterCall ev then (r1, [])
                           else processCitations (i + 1) (i =? total - 1)
                                  citations r1 [])))
                  (allRecords
                     (fst (if cancelAfterCall ev then (r1, [])
                           else processCitations (i + 1) (i =? total - 1)
                                  citations r1 []))
                     (snd (if cancelAfterCall ev then (r1, [])
                           else processCitations (i + 1) (i =? total - 1)
                                  citations r1 [])))).
    { destruct (cancelAfterCall ev); [split; assumption|].
      apply processCitations_numbered; assumption. }
    destruct (if cancelAfterCall ev then (r1, [])
              else processCitations (i + 1) (i =? total - 1) citations r1 [])
      as [r2 acc]. cbn [fst snd] in H. destruct H as [Hb2 [Hall Hocc]].
    destruct (flushPending_spec r2) as (D & H1 & H2 & _ & _ & _).
    cbn [set_pending extractionIndex]. rewrite H2. split; [exact Hb2|].
    unfold allRecords in *.
    cbn [set_pending dispatched pendingIncompleteEnd state]. rewrite D, H1.
    split.
    + intros e He. in_parts He. from_parts Hall.
    + intros k. count_parts Hocc k. cbn [occ filter List.length] in *. lia.
  - destruct (processWindow_failed i total ev r message Hout)
      as (D & P & X & I & _ & _).
    destruct Hw as [Hall Hocc]. rewrite I. split; [lia|].
    unfold allRecords in *. rewrite D, P, X.
    set (err := createErrorExtraction (extractionIndex r) (i + 1) message).
    assert (Hnew : numbered (extractionIndex r + 1) err)
      by (apply numbered_next; [exact Hb | reflexivity | reflexivity]).
    split.
    + intros e He. in_parts He.
      destruct He as [[He|He]|[[]|[[He|[<-|[]]]|[]]]];
        try exact Hnew;
        (apply (numbered_mono (extractionIndex r)); [lia|]; from_parts Hall).
    + intros k.
      assert (Herr : (occ k [err] <= 1)%nat /\
                     (occ k [err] = 1%nat ->
                      occ k (dispatched r ++ pendingIncompleteEnd r ++
                             extractions (state r) ++ []) = 0%nat)).
      { rewrite occ_one. unfold indexIs. cbn [err index createErrorExtraction].
        change (index err) with (Some (extractionIndex r)).
        destruct (Z.eq_dec (extractionIndex r) k) as [<-|Hne].
        - rewrite Z.eqb_refl.
          rewrite (occ_fresh (extractionIndex r) _ (extractionIndex r) Hall)
            by lia. lia.
        - apply Z.eqb_neq in Hne. rewrite Hne. split; [lia | discriminate]. }
      destruct Herr as [E1 E2].
      count_parts Hocc k. cbn [occ filter List.length] in *. lia.
Qed.

Lemma processWindows_numbered total events : forall i r,
  0 <= extractionIndex r ->
  wellNumbered (extractionIndex r) (allRecords r []) ->
  let r' := processWindows events i total r in
  0 <= extractionIndex r' /\
  wellNumbered (extractionIndex r') (allRecords r' []).
Proof.
  induction events as [|ev events IH]; intros i r Hb Hw; cbn [processWindows].
  - split; assumption.
  - destruct (cancelAtTop ev); [split; assumption|].
    destruct (processWindow_numbered i total ev r Hb Hw) as [Hb1 Hw1].
    apply IH; assumption.
Qed.

(** X17. The records a run makes are numbered apart.  Every citation handed
    to validation and every error record carries an [index] of its own,
    below the final [extractionIndex], and the [id] [extraction-<index>];
    no two of them share an index or an id.  A merged record does not break
    this: it keeps the number of the one held from the window before, which
    leaves the pending list as the merged one is handed over. *)
Theorem processAllWindows_distinct_identities st events cancelAtEnd :
  extractions st = [] ->
  let r := processAllWindows st events cancelAtEnd in
  let made := dispatched r ++ extractions (state r) in
  (forall e, In e made -> numbered (extractionIndex r) e) /\
  NoDup (map index made) /\ NoDup (map id made).
Proof.
  intros Hst r made.
  assert (H0 : wellNumbered 0 (allRecords (initialRun st) [])).
  { unfold allRecords. cbn. rewrite Hst. split; [intros e []|].
    intros k. cbn. lia. }
  destruct (processWindows_numbered (Z.of_nat (List.length events)) events 0
              (initialRun st) (Z.le_refl 0) H0) as [Hb [Hall Hocc]].
  set (r0 := processWindows events 0 (Z.of_nat (List.length events))
               (initialRun st)) in *.
  assert (Hw : wellNumbered (extractionIndex r) made).
  { unfold made, r, processAllWindows. fold r0. unfold allRecords in *.
    destruct (negb cancelAtEnd).
    - destruct (flushPending_spec r0) as (D & H1 & H2 & _).
      rewrite D, H1, H2. split.
      + intros e He. in_parts He. from_parts Hall.
      + intros k. count_parts Hocc k. lia.
    - split.
      + intros e He. in_parts He. from_parts Hall.
      + intros k. count_parts Hocc k. lia. }
  split; [exact (proj1 Hw)|]. exact (wellNumbered_NoDup _ _ Hw).
Qed.

Lemma processAllWindows_distinct_identities_witness :
  extractions createExtractionState = [] /\
  NoDup (map id
    (dispatched (processAllWindows createExtractionState scenarioE false) ++
     extractions (state (processAllWindows createExtractionState scenarioE
                           false)))).
Proof.
  split; [reflexivity|].
  exact (proj2 (proj2 (processAllWindows_distinct_identities
                         createExtractionState scenarioE false eq_refl))).
Defined.

(** *** What becomes of an extraction that is held *)

Lemma handedOver_more p later more :
  handedOver p later -> handedOver p (later ++ more).
Proof.
  intros (m & Hin & H). exists m. split; [apply in_or_app; now left | exact H].
Qed.

Lemma supersededIn_more w done c p :
  supersededIn w done p -> supersededIn w (done ++ [c]) p.
Proof.
  intros (x & k & Hin & H). exists x, k.
  split; [apply in_or_app; now left | exact H].
Qed.

Lemma processCitation_accounts w isLast citation r0 r acc done p :
  accountedFor w done r0 r p ->
  accountedFor w (done ++ [citation]) r0
    (fst (processCitation w isLast citation r acc)) p.
Proof.
  intros (later & Hd0 & [Hin|[Hh|Hs]]).
  2:{ destruct (processCitation_continues w isLast citation r acc)
        as (_ & _ & _ & more & Hm).
      exists (later ++ more). rewrite Hm, Hd0, app_assoc.
      split; [reflexivity | right; left; now apply handedOver_more]. }
  2:{ destruct (processCitation_continues w isLast citation r acc)
        as (_ & _ & _ & more & Hm).
      exists (later ++ more). rewrite Hm, Hd0, app_assoc.
      split; [reflexivity | right; right; now apply supersededIn_more]. }
  unfold processCitation. cbv zeta.
  set (processed := processExtraction citation (extractionIndex r) w).
  match goal with
  | |- context [if _ && (_ >=? 0) then _ else ?e] => set (rest := e)
  end.
  assert (Hrest : accountedFor w (done ++ [citation]) r0 (fst rest) p).
  { unfold rest.
    destruct (negb (notIncomplete processed) && positionIs processed "end"
              && negb isLast).
    - exists later. split; [exact Hd0 | left; exact Hin].
    - cbn [fst]. eexists. split.
      { cbn [dispatched set_extractionIndex startValidation].
        assert (Hd1 : forall r1 : Run, dispatched r1 = dispatched r ->
                  dispatched r1 ++ [set_index (Some (extractionIndex r1))
                    (set_id (Some (extractionId (extractionIndex r1))) processed)]
                  = dispatched r0 ++ later ++
                    [set_index (Some (extractionIndex r1))
                       (set_id (Some (extractionId (extractionIndex r1)))
                          processed)]).
        { intros r1 ->. now rewrite Hd0, app_assoc. }
        apply Hd1. destruct (notIncomplete processed); reflexivity. }
      cbn [pendingIncompleteEnd set_extractionIndex startValidation].
      destruct (notIncomplete processed) eqn:Hc; [|left; exact Hin].
      cbn [pendingIncompleteEnd set_pending].
      destruct (dropLastSuperseded_spec processed (pendingIncompleteEnd r))
        as [[_ H]|(before & q & after & Hp & Hq & _ & H)].
      + left. rewrite H. exact Hin.
      + rewrite Hp in Hin. apply in_app_or in Hin.
        destruct Hin as [Hin|[<-|Hin]].
        * left. rewrite H. apply in_or_app. now left.
        * right; right. exists citation, (extractionIndex r).
          split; [apply in_or_app; right; now left|].
          split; [exact Hc | exact Hq].
        * left. rewrite H. apply in_or_app. now right. }
  destruct (negb (notIncomplete processed) && positionIs processed "start")
    eqn:Hstart; cbn [andb]; [|exact Hrest].
  cbv iota.
  destruct (findMatchingPendingEnd (pendingIncompleteEnd r) processed >=? 0)
    eqn:Hm; [|exact Hrest].
  apply Z.geb_le in Hm.
  destruct (findMatchingPendingEnd_found _ _ Hm) as (endE & Hn & Ho).
  rewrite Hn.
  destruct (splice1_found _ _ _ Hn) as (l1 & l2 & Hp & Hsp).
  assert (Hend : positionIs endE "end" = true).
  { apply andb_prop in Hstart. destruct Hstart as [_ Hs].
    unfold positionIs in *. apply optStr_eqb_eq in Hs. apply optStr_eqb_eq.
    destruct (extractionsOverlap_roles _ _ Ho)
      as (_ & _ & _ & _ & [[H _]|[_ H]]); [exact H|].
    rewrite Hs in H. discriminate. }
  pose proof (descr_mergeExtractions endE processed Hend) as Hd.
  unfold descr in Hd. apply tuple9_inv in Hd.
  destruct Hd as (Hid & Hidx & _).
  cbn [fst]. exists (later ++ [mergeExtractions endE processed]).
  cbn [startValidation set_pending pendingIncompleteEnd dispatched].
  rewrite Hsp. split; [now rewrite Hd0, app_assoc|].
  rewrite Hp in Hin. apply in_app_or in Hin. destruct Hin as [Hin|[<-|Hin]].
  - left. apply in_or_app. now left.
  - right; left. exists (mergeExtractions endE processed).
    split; [apply in_or_app; right; now left | split; assumption].
  - left. apply in_or_app. now right.
Qed.

Lemma processCitations_accounts w isLast r0 p citations : forall done r acc,
  accountedFor w done r0 r p ->
  accountedFor w (done ++ citations) r0
    (fst (processCitations w isLast citations r acc)) p.
Proof.
  induction citations as [|c cs IH]; intros done r acc H; cbn [processCitations].
  - now rewrite app_nil_r.
  - pose proof (processCitation_accounts w isLast c r0 r acc done p H) as H1.
    destruct (processCitation w isLast c r acc) as [r1 acc1]. cbn [fst] in H1.
    replace (done ++ c :: cs) with ((done ++ [c]) ++ cs)
      by (now rewrite <- app_assoc).
    now apply IH.
Qed.

(** X18. An extraction held from the window before is not lost in the
    window that follows.  By the end of that window it has been handed to
    validation, as it was or merged with its continuation, under the [id]
    and [index] it was given when it was held; the one exception is that a
    complete citation of the window supersedes it, and then it is dropped.
    This holds whatever the window answers, also when its extraction call
    fails and when the run is cancelled during the call. *)
Theorem processWindow_held_not_lost i total ev r p :
  In p (pendingIncompleteEnd r) ->
  let r' := processWindow i total ev r in
  (exists later,
     dispatched r' = dispatched r ++ later /\ handedOver p later) \/
  (exists citations,
     outcome ev = Extracted citations /\ cancelAfterCall ev = false /\
     supersededIn (i + 1) citations p).
Proof.
  intros Hin. cbv zeta.
  destruct (outcome ev) as [citations|message] eqn:Hout.
  - unfold processWindow. rewrite Hout. cbv zeta.
    set (r1 := mkRun (state r) (extractionIndex r) (pendingIncompleteEnd r)
                 (dispatched r) (windowsStarted r ++ [i]) (errorsReported r)).
    assert (H0 : accountedFor (i + 1) [] r1 r1 p).
    { exists []. split; [now rewrite app_nil_r | left; exact Hin]. }
    destruct (cancelAfterCall ev) eqn:Hc.
    + left. destruct (flushPending_spec r1) as (D & _).
      exists (pendingIncompleteEnd r).
      cbn [set_pending dispatched]. rewrite D. split; [reflexivity|].
      exists p. repeat split. exact Hin.
    + pose proof (processCitations_accounts (i + 1) (i =? total - 1) r1 p
                    citations [] r1 [] H0) as H.
      destruct (processCitations (i + 1) (i =? total - 1) citations r1 [])
        as [r2 acc]. cbn [fst app] in H.
      destruct H as (later & Hd & H).
      destruct (flushPending_spec r2) as (D & _).
      cbn [set_pending dispatched]. rewrite D, Hd.
      destruct H as [H|[H|H]].
      * left. exists (later ++ pendingIncompleteEnd r2).
        split; [now rewrite app_assoc|].
        exists p. split; [apply in_or_app; now right | split; reflexivity].
      * left. exists (later ++ pendingIncompleteEnd r2).
        split; [now rewrite app_assoc | now apply handedOver_more].
      * right. exists citations. repeat split. exact H.
  - left. destruct (processWindow_failed i total ev r message Hout) as (D & _).
    exists (pendingIncompleteEnd r). split; [exact D|].
    exists p. repeat split. exact Hin.
Qed.

Lemma processWindow_held_not_lost_witness :
  In cutAtEnd
    (pendingIncompleteEnd
       (set_pending [cutAtEnd] (initialRun createExtractionState))) /\
  ((exists later,
      dispatched (processWindow 2 5 (mkWindowEvent false (Failed "timeout") false)
                    (set_pending [cutAtEnd] (initialRun createExtractionState)))
      = dispatched (set_pending [cutAtEnd] (initialRun createExtractionState))
        ++ later /\
      handedOver cutAtEnd later) \/
   (exists citations,
      outcome (mkWindowEvent false (Failed "timeout") false)
      = Extracted citations /\
      cancelAfterCall (mkWindowEvent false (Failed "timeout") false) = false /\
      supersededIn (2 + 1) citations cutAtEnd)).
Proof.
  assert (H : In cutAtEnd
    (pendingIncompleteEnd
       (set_pending [cutAtEnd] (initialRun createExtractionState))))
    by (left; reflexivity).
  split; [exact H|].
  exact (processWindow_held_not_lost 2 5
           (mkWindowEvent false (Failed "timeout") false)
           (set_pending [cutAtEnd] (initialRun createExtractionState))
           cutAtEnd H).
Defined.

(** ** validation.js *)

Lemma sumQ_weights_pos l :
  l <> [] -> (0 < sumQ (map FIELD_WEIGHTS l))%Q.
Proof.
  assert (H0 : forall l, (0 <= sumQ (map FIELD_WEIGHTS l))%Q).
  { induction l0 as [|f l0 IH]; unfold sumQ in *; cbn [map fold_right]; [lra|].
    pose proof (FIELD_WEIGHTS_pos f). lra. }
  destruct l as [|f l]; [congruence|]. intros _.
  pose proof (FIELD_WEIGHTS_pos f). pose proof (H0 l).
  unfold sumQ in *. cbn [map fold_right]. lra.
Qed.

Lemma termScore_bounds e v f : (0 <= termScore e v f <= termWeight e v f)%Q.
Proof.
  unfold termScore, termWeight. destruct (compared f e v); [|lra].
  pose proof (fieldScore_bounds f e v). pose proof (FIELD_WEIGHTS_pos f). nra.
Qed.

Lemma sumQ_zero (l : list Field) : (sumQ (map (fun _ => 0) l) == 0)%Q.
Proof.
  induction l as [|f l IH]; unfold sumQ in *; cbn [map fold_right];
    [reflexivity|]. rewrite IH. lra.
Qed.

Lemma weightedScores_bounds e v :
  (0 <= weightedScores e v <= comparedWeights e v)%Q.
Proof.
  rewrite weightedScores_terms, comparedWeights_terms. split.
  - rewrite <- (sumQ_zero allFields). apply sumQ_le.
    intros g. apply termScore_bounds.
  - apply sumQ_le. intros g. apply termScore_bounds.
Qed.

Lemma overall_bounds e v :
  (0 <= overall (scoreOf (accumulateScores e v)) <= 1)%Q.
Proof.
  destruct (overall_weighted e v) as (_ & _ & Hw & H0).
  destruct (comparedFields e v) as [|f fs] eqn:Hc.
  - rewrite (H0 eq_refl). lra.
  - rewrite Hw by discriminate.
    pose proof (weightedScores_bounds e v) as [W0 W1].
    assert (Hpos : (0 < comparedWeights e v)%Q).
    { unfold comparedWeights. rewrite Hc. apply sumQ_weights_pos. discriminate. }
    split.
    + apply Qle_shift_div_l; [exact Hpos | lra].
    + apply Qle_shift_div_r; [exact Hpos | lra].
Qed.

(** X19. The overall score is a number between 0 and 1, whatever the two
    records hold, and so is the score of every field; a field is scored at
    most once, so at most six fields are compared; and the percentage shown
    in the validation message is a whole number between 0 and 100. *)
Theorem computeMatchScore_range extracted validated :
  let m := computeMatchScore extracted validated in
  (0 <= overall m <= 1)%Q /\
  (forall f s, In (f, s) (fields m) -> (0 <= s <= 1)%Q) /\
  NoDup (map fst (fields m)) /\
  0 <= fieldsCompared m <= 6 /\
  0 <= Math_round (overall m * 100) <= 100.
Proof.
  cbv zeta. unfold computeMatchScore. cbv zeta.
  generalize (normalizeExtracted extracted) as e. intros e.
  pose proof (overall_bounds e validated) as Ho.
  destruct (overall_weighted e validated) as (Hf & Hn & _ & _).
  cbv zeta in Hf, Hn.
  split; [exact Ho|]. split; [|split; [|split]].
  - intros f s Hin. rewrite Hf in Hin. apply in_map_iff in Hin.
    destruct Hin as (g & [= <- <-] & _). apply fieldScore_bounds.
  - rewrite Hf, map_map. cbn [fst]. rewrite map_id.
    apply NoDup_filter, allFields_NoDup.
  - rewrite Hn. split; [lia|].
    pose proof (filter_length_le (fun f => compared f e validated) allFields) as H.
    unfold comparedFields. cbn [allFields List.length] in H.
    apply Nat2Z.inj_le in H. exact H.
  - apply Math_round_between; unfold inject_Z; lra.
Qed.








(** *** Numbers as decimal text *)

Lemma parseDigits_acc d : forall acc,
  parseDigits (list_ascii_of_string (NilEmpty.string_of_uint d))
    (Some (Zpos acc))
  = Some (Zpos (Pos.of_uint_acc d acc)).
Proof.
  induction d; intros acc;
    cbn [NilEmpty.string_of_uint list_ascii_of_string parseDigits
         Pos.of_uint_acc];
    [reflexivity|..];
    match goal with
    | |- context [digit ?c] =>
        let v := eval vm_compute in (digit c) in change (digit c) with v
    end; cbv iota; rewrite <- IHd; do 2 f_equal; lia.
Qed.

Lemma parseDigits_uint d :
  parseDigits (list_ascii_of_string (NilEmpty.string_of_uint d)) (Some 0)
  = Some (Z.of_N (Pos.of_uint d)).
Proof.
  induction d;
    cbn [NilEmpty.string_of_uint list_ascii_of_string parseDigits Pos.of_uint];
    [reflexivity|..];
    match goal with
    | |- context [digit ?c] =>
        let v := eval vm_compute in (digit c) in change (digit c) with v
    end; cbv iota;
    first [ exact IHd
          | match goal with
            | |- parseDigits _ (Some (10 * 0 + ?k)) = _ =>
                change (10 * 0 + k) with k
            end; rewrite parseDigits_acc; reflexivity ].
Qed.

(** The decimal text of a positive number: it starts with a digit. *)
Lemma string_of_uint_head d :
  d <> Decimal.Nil ->
  exists c r,
    list_ascii_of_string (NilEmpty.string_of_uint d) = c :: r /\
    isDigit c = true /\ isWhiteSpace c = false /\
    Ascii.eqb c "-" = false /\ Ascii.eqb c "+" = false.
Proof.
  destruct d; [congruence|..]; intros _;
    cbn [NilEmpty.string_of_uint list_ascii_of_string];
    eexists; eexists; repeat split; reflexivity.
Qed.

Lemma parseDigits_start c r :
  isDigit c = true ->
  parseDigits (c :: r) None = parseDigits (c :: r) (Some 0).
Proof.
  unfold isDigit. cbn [parseDigits]. destruct (digit c); [reflexivity|discriminate].
Qed.

Lemma parseIntStr_positive p :
  parseIntStr (NilEmpty.string_of_uint (Pos.to_uint p)) = Some (Zpos p).
Proof.
  unfold parseIntStr.
  destruct (string_of_uint_head (Pos.to_uint p)
              (DecimalPos.Unsigned.to_uint_nonnil p))
    as (c & r & Hl & Hd & Hw & Hm & Hp).
  pose proof (parseDigits_uint (Pos.to_uint p)) as H.
  rewrite DecimalPos.Unsigned.of_to in H.
  rewrite Hl in *. cbn [trimStartL]. rewrite Hw, Hm, Hp.
  rewrite (parseDigits_start c r Hd). exact H.
Qed.

Lemma string_of_uint_nonnil d :
  d <> Decimal.Nil -> NilZero.string_of_uint d = NilEmpty.string_of_uint d.
Proof. destruct d; [congruence | reflexivity..]. Qed.

Lemma parseIntStr_String_of n : parseIntStr (String_of (Num n)) = Some n.
Proof.
  unfold String_of. destruct n as [|p|p]; [reflexivity|..];
    cbn [Z.to_int NilZero.string_of_int];
    rewrite (string_of_uint_nonnil _ (DecimalPos.Unsigned.to_uint_nonnil p)).
  - apply parseIntStr_positive.
  - pose proof (parseIntStr_positive p) as H. unfold parseIntStr in *.
    destruct (string_of_uint_head (Pos.to_uint p)
                (DecimalPos.Unsigned.to_uint_nonnil p))
      as (c & r & Hl & Hd & Hw & Hm & Hp).
    cbn [list_ascii_of_string]. rewrite Hl in *.
    cbn [trimStartL] in *. rewrite Hw, Hm, Hp in H.
    change (isWhiteSpace "-") with false. cbv iota.
    change (Ascii.eqb "-" "-") with true. cbv iota.
    rewrite (parseDigits_start c r Hd) in H.
    rewrite (parseDigits_start c r Hd), H. reflexivity.
Qed.

(** X23. A safe integer (of absolute value at most 2^53 - 1, the integers
    that a Number holds exactly and that [String] prints digit by digit)
    written as decimal text and read back by [parseInt] is the same integer,
    negative numbers and zero included: [parseInt(String(n), 10) = n].  So a
    citation whose [year] is such a number has, in the common format, that
    number as its year, and no year when the number is 0. *)
Theorem parseInt_String_round_trip n citation :
  Z.abs n <= 9007199254740991 ->
  year citation = Some (Num n) ->
  parseInt (Num n) = Some n /\
  n_year (normalizeExtracted citation) = (if n =? 0 then None else Some n).
Proof.
  intros _ Hy. unfold parseInt. rewrite parseIntStr_String_of.
  split; [reflexivity|].
  unfold normalizeExtracted. cbn [n_year]. rewrite Hy. cbn [truthy].
  destruct (n =? 0); cbn [negb]; [reflexivity|].
  unfold parseInt. apply parseIntStr_String_of.
Qed.

Lemma parseInt_String_round_trip_witness :
  Z.abs 2020 <= 9007199254740991 /\
  year citedWithYear = Some (Num 2020) /\
  n_year (normalizeExtracted citedWithYear) = Some 2020.
Proof.
  assert (H : Z.abs 2020 <= 9007199254740991) by (cbn; lia).
  split; [exact H|]. split; [reflexivity|].
  exact (proj2 (parseInt_String_round_trip 2020 citedWithYear H eq_refl)).
Defined.

(** ** rate-limiter.js *)

Section LimiterAccounts.

Variable clock : nat -> Z.

Lemma balanced_book sched settled l l' :
  sameBook l l' -> timers l' = timers l ->
  balanced sched settled l -> balanced sched settled l'.
Proof.
  intros (_ & _ & A & Q & Ad & E) T (P & N & Tm).
  unfold balanced. rewrite A, Q, Ad, E, T. auto.
Qed.

Lemma _canProceed_timers l : timers (snd (_canProceed clock l)) = timers l.
Proof. reflexivity. Qed.

Lemma _getDelayMs_timers l : timers (snd (_getDelayMs clock l)) = timers l.
Proof.
  unfold _getDelayMs. cbv zeta.
  match goal with |- context [if ?c then _ else _] => destruct c end;
    [|reflexivity].
  destruct (requestTimestamps (_cleanTimestamps clock l)); reflexivity.
Qed.

Lemma _processQueue_loop_balanced sched settled fuel : forall l,
  balanced sched settled l ->
  balanced sched settled (_processQueue_loop clock fuel l).
Proof.
  induction fuel as [|fuel IH]; intros l Hl; cbn [_processQueue_loop]; [exact Hl|].
  destruct (queue l) as [|task rest] eqn:Hq; [exact Hl|].
  destruct (_canProceed_spec clock l) as [Hb _].
  pose proof (_canProceed_timers l) as Ht.
  destruct (_canProceed clock l) as [ok l1]. cbn [fst snd] in *.
  pose proof (balanced_book _ _ _ _ Hb Ht Hl) as Hl1.
  destruct ok; [|exact Hl1]. apply IH.
  destruct Hb as (_ & _ & _ & Q & _). rewrite Hq in Q.
  destruct Hl1 as (P & N & Tm). rewrite Q in P.
  unfold balanced, _executeTask. cbn.
  rewrite map_app, length_app. cbn [map a_task List.length].
  rewrite <- app_assoc. cbn [app]. split; [exact P|]. split; [lia | exact Tm].
Qed.

Lemma schedule_balanced sched settled task l :
  balanced sched settled l ->
  balanced (sched ++ [task]) settled (schedule clock task l).
Proof.
  intros Hl. unfold schedule.
  destruct (_canProceed_spec clock l) as [Hb _].
  pose proof (_canProceed_timers l) as Ht.
  destruct (_canProceed clock l) as [ok l1]. cbn [fst snd] in *.
  pose proof (balanced_book _ _ _ _ Hb Ht Hl) as (P & N & Tm).
  destruct ok.
  - unfold balanced, _executeTask. cbn.
    rewrite map_app, length_app. cbn [map a_task List.length].
    rewrite <- app_assoc. cbn [app]. split; [|split; [lia | exact Tm]].
    eapply Permutation.Permutation_trans;
      [apply Permutation.Permutation_app_tail, P|].
    rewrite <- app_assoc. apply Permutation.Permutation_app_head.
    apply Permutation.Permutation_sym, Permutation.Permutation_cons_append.
  - set (l2 := mkRateLimiter (maxConcurrent l1) (requestsPerMinute l1)
                 (activeRequests l1) (requestTimestamps l1) (queue l1 ++ [task])
                 (tick l1) (admitted l1) (enqueued l1 ++ [task]) (timers l1)).
    assert (Hl2 : balanced (sched ++ [task]) settled l2 /\
                  (List.length (timers l2) < List.length (enqueued l2))%nat).
    { unfold balanced, l2. cbn. rewrite app_assoc, length_app.
      cbn [List.length]. repeat split; try lia; try assumption.
      apply Permutation.Permutation_app_tail, P. }
    destruct Hl2 as [Hl2 Hlt].
    pose proof (balanced_book _ _ _ _ (_getDelayMs_book clock l2)
                  (_getDelayMs_timers l2) Hl2) as Hl3.
    pose proof (_getDelayMs_book clock l2) as (_ & _ & _ & _ & _ & E3).
    pose proof (_getDelayMs_timers l2) as T3.
    destruct (_getDelayMs clock l2) as [delay l3]. cbn [snd] in *.
    destruct (delay >? 0); [|exact Hl3].
    destruct Hl3 as (P3 & N3 & Tm3). unfold balanced. cbn.
    rewrite length_app. cbn [List.length]. rewrite T3, E3.
    repeat split; try assumption. lia.
Qed.

Lemma settle_balanced sched settled l :
  balanced sched settled l -> balanced sched (settled + 1) (settle clock l).
Proof.
  intros (P & N & Tm). apply _processQueue_loop_balanced.
  unfold balanced. cbn. repeat split; try assumption. lia.
Qed.

Lemma run_balanced events : forall sched settled l,
  balanced sched settled l ->
  balanced (sched ++ scheduledTasks events) (settled + settledCount events)
    (run clock events l).
Proof.
  unfold settledCount.
  induction events as [|e events IH]; intros sched settled l Hl;
    cbn [run fold_left scheduledTasks flat_map filter].
  - rewrite app_nil_r. cbn. now rewrite Z.add_0_r.
  - destruct e; cbn [step].
    + specialize (IH _ _ _ (schedule_balanced _ _ t _ Hl)).
      rewrite <- app_assoc in IH. exact IH.
    + specialize (IH _ _ _ (settle_balanced _ _ _ Hl)).
      cbn [List.length]. rewrite Nat2Z.inj_succ.
      replace (settled + Z.succ (Z.of_nat (List.length (filter
                 (fun e => match e with Settle => true | _ => false end)
                 events))))
        with (settled + 1 + Z.of_nat (List.length (filter
                 (fun e => match e with Settle => true | _ => false end)
                 events))) by lia.
      exact IH.
    + apply IH. apply _processQueue_loop_balanced, Hl.
Qed.

(** *** Bounds *)

Lemma within_below n l : below n l = true -> within (n + 1) l.
Proof.
  destruct l as [m|]; cbn; [|trivial]. intros H. apply Z.ltb_lt in H. lia.
Qed.

Lemma within_less n n' l : n' <= n -> within n l -> within n' l.
Proof. destruct l; cbn; [lia | trivial]. Qed.

Lemma _cleanTimestamps_bounded l :
  bounded l -> bounded (_cleanTimestamps clock l).
Proof.
  intros [A T]. unfold bounded, _cleanTimestamps. cbn. split; [exact A|].
  eapply within_less; [|exact T].
  apply Nat2Z.inj_le, filter_length_le.
Qed.

Lemma _canProceed_bounded l :
  bounded l ->
  bounded (snd (_canProceed clock l)) /\
  fst (_canProceed clock l) = canStart (snd (_canProceed clock l)).
Proof.
  intros H. split; [apply _cleanTimestamps_bounded, H | reflexivity].
Qed.

Lemma _getDelayMs_bounded l :
  bounded l -> bounded (snd (_getDelayMs clock l)).
Proof.
  intros H. apply _cleanTimestamps_bounded in H.
  unfold _getDelayMs. cbv zeta.
  generalize dependent (_cleanTimestamps clock l). intros l1 H.
  match goal with |- context [if ?c then _ else _] => destruct c end;
    [|exact H].
  destruct (requestTimestamps l1) eqn:E;
    unfold bounded in *; cbn; exact H.
Qed.

Lemma _executeTask_bounded task fromQueue l :
  bounded l -> canStart l = true -> bounded (_executeTask clock task fromQueue l).
Proof.
  intros _ H. apply andb_true_iff in H. destruct H as [Hc Hr].
  unfold bounded, _executeTask. cbn. split; [now apply within_below|].
  rewrite length_app. cbn [List.length]. rewrite Nat2Z.inj_add.
  now apply within_below.
Qed.

Lemma _processQueue_loop_bounded fuel : forall l,
  bounded l -> bounded (_processQueue_loop clock fuel l).
Proof.
  induction fuel as [|fuel IH]; intros l Hl; cbn [_processQueue_loop]; [exact Hl|].
  destruct (queue l) as [|task rest] eqn:Hq; [exact Hl|].
  destruct (_canProceed_bounded l Hl) as [Hb Hok].
  destruct (_canProceed clock l) as [ok l1]. cbn [fst snd] in *.
  destruct ok; [|exact Hb]. apply IH.
  apply _executeTask_bounded; [exact Hb | symmetry; exact Hok].
Qed.

Lemma schedule_bounded task l : bounded l -> bounded (schedule clock task l).
Proof.
  intros Hl. unfold schedule.
  destruct (_canProceed_bounded l Hl) as [Hb Hok].
  destruct (_canProceed clock l) as [ok l1]. cbn [fst snd] in *.
  destruct ok; [apply _executeTask_bounded; [exact Hb | now symmetry]|].
  match goal with
  | |- context [_getDelayMs clock ?x] =>
      pose proof (_getDelayMs_bounded x Hb) as H;
      destruct (_getDelayMs clock x) as [delay l3]
  end.
  cbn [snd] in H. destruct (delay >? 0); exact H.
Qed.

Lemma settle_bounded l : bounded l -> bounded (settle clock l).
Proof.
  intros [A T]. apply _processQueue_loop_bounded. split; [|exact T].
  cbn. eapply within_less; [|exact A]. lia.
Qed.

Lemma run_bounded events : forall l, bounded l -> bounded (run clock events l).
Proof.
  induction events as [|e events IH]; intros l Hl; cbn [run fold_left];
    [exact Hl|].
  apply IH. destruct e; cbn [step].
  - now apply schedule_bounded.
  - now apply settle_bounded.
  - now apply _processQueue_loop_bounded.
Qed.

(** *** [_processQueue] goes as far as the limits allow *)

Lemma _processQueue_loop_exhausts fuel : forall l,
  (List.length (queue l) < fuel)%nat ->
  queue (_processQueue_loop clock fuel l) = [] \/
  canStart (_processQueue_loop clock fuel l) = false.
Proof.
  induction fuel as [|fuel IH]; intros l Hlen; [lia|].
  cbn [_processQueue_loop].
  destruct (queue l) as [|task rest] eqn:Hq; [left; exact Hq|].
  assert (Hok : fst (_canProceed clock l) = canStart (snd (_canProceed clock l)))
    by reflexivity.
  destruct (_canProceed clock l) as [ok l1]. cbn [fst snd] in *.
  destruct ok; [|right; now symmetry].
  apply IH. cbn in *. lia.
Qed.

End LimiterAccounts.

(** X24. No task is lost and none is started twice.  Whatever the clock, the
    callers, the tasks and the timers do, the tasks scheduled so far are,
    up to order, the tasks started so far together with the tasks that wait
    in the queue.  The number of requests in flight that the limiter keeps
    is the number of tasks started less the number of tasks settled.  And a
    timer is armed only when a task is queued, at most one per queued
    task. *)
Theorem limiter_conserves_tasks clock maxConcurrent_ requestsPerMinute_ events :
  let l := run clock events (newRateLimiter maxConcurrent_ requestsPerMinute_) in
  Permutation.Permutation (scheduledTasks events)
    (map a_task (admitted l) ++ queue l) /\
  activeRequests l =
    Z.of_nat (List.length (admitted l)) - settledCount events /\
  (List.length (timers l) <= List.length (enqueued l))%nat.
Proof.
  cbv zeta.
  apply (run_balanced clock events [] 0
           (newRateLimiter maxConcurrent_ requestsPerMinute_)).
  unfold balanced. cbn. repeat split; [constructor | lia].
Qed.

(** X25. The limits hold at every moment: after any sequence of events the
    number of requests in flight is at most maxConcurrent, and the number of
    timestamps kept for the last minute is at most requestsPerMinute (a
    limit that is absent or 0 is no limit; a negative one admits nothing).
    With the account of the requests in flight, the tasks started and not
    yet settled are never more than maxConcurrent. *)
Theorem limiter_never_exceeds clock maxConcurrent_ requestsPerMinute_ events :
  let l := run clock events (newRateLimiter maxConcurrent_ requestsPerMinute_) in
  within (activeRequests l) (limitOf maxConcurrent_) /\
  within (Z.of_nat (List.length (requestTimestamps l)))
    (limitOf requestsPerMinute_) /\
  within (Z.of_nat (List.length (admitted l)) - settledCount events)
    (limitOf maxConcurrent_).
Proof.
  cbv zeta.
  set (l0 := newRateLimiter maxConcurrent_ requestsPerMinute_).
  assert (H0 : bounded l0).
  { unfold bounded, l0, newRateLimiter. cbn.
    split; [destruct (limitOf maxConcurrent_) | destruct (limitOf requestsPerMinute_)];
      cbn; trivial; lia. }
  pose proof (run_bounded clock events l0 H0) as [A T].
  destruct (run_orderly clock l0 events l0) as (M & R & _).
  { unfold orderly, startedFromQueue, l0. cbn. repeat split. constructor. }
  assert (Hb : balanced [] 0 l0)
    by (unfold balanced, l0; cbn; repeat split; [constructor | lia]).
  destruct (run_balanced clock events [] 0 l0 Hb) as (_ & N & _).
  rewrite Z.add_0_l in N.
  rewrite M, R in *. unfold l0 in A, T at 2. cbn [maxConcurrent requestsPerMinute newRateLimiter] in A, T.
  split; [exact A|]. split; [exact T|]. rewrite <- N. exact A.
Qed.

(** X26. [_processQueue] starts waiting tasks for as long as the limits
    allow: when it is done, the queue is empty, or one of the two tests of
    [_canProceed] fails on the limiter as it then stands.  So it is after a
    task settles and after a timer fires. *)
Theorem processQueue_exhausts clock l :
  (queue (_processQueue clock l) = [] \/
   canStart (_processQueue clock l) = false) /\
  (queue (settle clock l) = [] \/ canStart (settle clock l) = false) /\
  (queue (step clock l TimerFires) = [] \/
   canStart (step clock l TimerFires) = false).
Proof.
  split; [|split].
  - apply _processQueue_loop_exhausts. lia.
  - apply _processQueue_loop_exhausts. cbn. lia.
  - apply _processQueue_loop_exhausts. lia.
Qed.

(** ** extraction-state.js: line numbers *)

Lemma substring_firstn s : forall k,
  list_ascii_of_string (substring 0 k s) = firstn k (list_ascii_of_string s).
Proof.
  induction s as [|c s IH]; intros [|k]; cbn; try reflexivity.
  now rewrite IH.
Qed.

Lemma list_ascii_length s :
  List.length (list_ascii_of_string s) = String.length s.
Proof. induction s as [|c s IH]; cbn; [reflexivity | now rewrite IH]. Qed.

Lemma slice_prefix text n :
  0 < n ->
  list_ascii_of_string (slice text 0 n) =
  firstn (Z.to_nat n) (list_ascii_of_string text).
Proof.
  intros Hn. unfold slice, relIndex. cbv zeta.
  pose proof (len_nonneg text) as Hl.
  destruct (0 <? 0) eqn:H0; [apply Z.ltb_lt in H0; lia|].
  destruct (n <? 0) eqn:H1; [apply Z.ltb_lt in H1; lia|].
  rewrite (Z.min_l 0 (len text)) by lia. cbn [Z.to_nat].
  rewrite substring_firstn, Z.sub_0_r, Z.max_l by lia.
  destruct (Z.le_gt_cases n (len text)) as [Hle|Hgt].
  - now rewrite Z.min_l by lia.
  - rewrite Z.min_r by lia. unfold len in *.
    rewrite Nat2Z.id.
    rewrite !firstn_all2; try reflexivity;
      rewrite list_ascii_length; lia.
Qed.

(** One character more adds at most one line ending, and takes none away:
    a CR LF pair cut after the CR counts once, as it does when whole. *)
Lemma countLineEndings_step : forall k l n,
  (List.length l <= k)%nat ->
  countLineEndings (firstn n l) <= countLineEndings (firstn (S n) l)
  <= countLineEndings (firstn n l) + 1.
Proof.
  induction k as [|k IH]; intros l n Hk.
  - destruct l; [|cbn in Hk; lia]. rewrite !firstn_nil. cbn. lia.
  - destruct l as [|c r]; [rewrite !firstn_nil; cbn; lia|].
    cbn [List.length] in Hk.
    destruct n as [|m].
    + rewrite firstn_cons, !firstn_O. cbn [countLineEndings].
      destruct (Ascii.eqb c CR); [lia|]. destruct (Ascii.eqb c LF); lia.
    + rewrite !firstn_cons.
      pose proof (IH r m ltac:(lia)) as Hr.
      destruct r as [|c2 r'].
      * rewrite !firstn_nil. lia.
      * cbn [List.length] in Hk.
        destruct m as [|m'].
        -- rewrite firstn_cons, !firstn_O in *. cbn [countLineEndings] in *.
           destruct (Ascii.eqb c CR); [|destruct (Ascii.eqb c LF); lia].
           destruct (Ascii.eqb c2 LF); [lia|].
           destruct (Ascii.eqb c2 CR); lia.
        -- rewrite !firstn_cons in *.
           set (t1 := firstn m' r') in *. set (t2 := firstn (S m') r') in *.
           pose proof (IH r' m' ltac:(lia)) as H'. fold t1 t2 in H'.
           cbn [countLineEndings] in *.
           destruct (Ascii.eqb c CR); [|destruct (Ascii.eqb c LF); lia].
           destruct (Ascii.eqb c2 LF); [lia|]. lia.
Qed.

Lemma countLineEndings_prefix l : forall k n,
  countLineEndings (firstn n l) <= countLineEndings (firstn (n + k) l)
  <= countLineEndings (firstn n l) + Z.of_nat k.
Proof.
  induction k as [|k IH]; intros n.
  - rewrite Nat.add_0_r. lia.
  - pose proof (IH n) as H1.
    pose proof (countLineEndings_step (List.length l) l (n + k) (le_n _)) as H2.
    replace (n + S k)%nat with (S (n + k)) by lia. lia.
Qed.

Lemma countLineEndings_nonneg l : 0 <= countLineEndings l.
Proof.
  pose proof (countLineEndings_prefix l (List.length l) 0) as H.
  cbn [Nat.add] in H. rewrite firstn_O, firstn_all in H.
  cbn [countLineEndings] in H. lia.
Qed.

(** X27. Line numbers start at 1 and never go back: a later position of the
    text is on the same line or on a later one, and it is at most as many
    lines further as it is characters further.  So the first line of an
    extraction is never after its last line. *)
Theorem charPosToLine_monotone text charPos charPos' :
  charPos <= charPos' ->
  1 <= charPosToLine text charPos <= charPosToLine text charPos' /\
  charPosToLine text charPos' <=
    charPosToLine text charPos + (Z.max 0 charPos' - Z.max 0 charPos).
Proof.
  intros Hle. unfold charPosToLine.
  destruct (truthyStr text); cbn [negb orb]; [|lia].
  destruct (Z.leb_spec charPos' 0) as [H'|H'].
  - destruct (Z.leb_spec charPos 0); lia.
  - cbv zeta. rewrite (slice_prefix text charPos' H').
    destruct (Z.leb_spec charPos 0) as [H|H].
    + generalize (list_ascii_of_string text) as l. intros l.
      pose proof (countLineEndings_prefix l (Z.to_nat charPos') 0%nat) as Hp.
      cbn [Nat.add] in Hp. rewrite firstn_O in Hp.
      cbn [countLineEndings] in Hp. lia.
    + rewrite (slice_prefix text charPos H).
      generalize (list_ascii_of_string text) as l. intros l.
      pose proof (countLineEndings_prefix l (Z.to_nat (charPos' - charPos))
                    (Z.to_nat charPos)) as Hp.
      replace (Z.to_nat charPos + Z.to_nat (charPos' - charPos))%nat
        with (Z.to_nat charPos') in Hp by lia.
      pose proof (countLineEndings_nonneg (firstn (Z.to_nat charPos) l)) as Hn.
      rewrite Z2Nat.id in Hp by lia.
      generalize dependent (countLineEndings (firstn (Z.to_nat charPos) l)).
      generalize (countLineEndings (firstn (Z.to_nat charPos') l)).
      intros. lia.
Qed.

Lemma charPosToLine_monotone_witness :
  3 <= 9 /\
  charPosToLine (String "a" (String CR (String LF "b"))) 3
  <= charPosToLine (String "a" (String CR (String LF "b"))) 9.
Proof.
  assert (H : 3 <= 9) by lia.
  split; [exact H|].
  exact (proj2 (proj1 (charPosToLine_monotone
                         (String "a" (String CR (String LF "b"))) 3 9 H))).
Defined.

(* ================================================================== *)
(** * The scores as the machine computes them *)
(* ================================================================== *)

(** ** The order of the doubles *)

Ltac compare_cases :=
  repeat match goal with
  | H : context [Z.compare ?a ?b] |- _ =>
      destruct (Z.compare_spec a b); try discriminate
  | |- context [Z.compare ?a ?b] =>
      destruct (Z.compare_spec a b); try discriminate
  | H : context [Pos.compare_cont Eq ?a ?b] |- _ =>
      change (Pos.compare_cont Eq a b) with (Pos.compare a b) in H;
      destruct (Pos.compare_spec a b); try discriminate
  | |- context [Pos.compare_cont Eq ?a ?b] =>
      change (Pos.compare_cont Eq a b) with (Pos.compare a b);
      destruct (Pos.compare_spec a b); try discriminate
  end.

Lemma double_ltb_leb_trans x y z :
  Double.ltb x y = true -> Double.leb y z = true -> Double.ltb x z = true.
Proof.
  unfold Double.ltb, Double.leb, SpecFloat.SFltb, SpecFloat.SFleb,
    SpecFloat.SFcompare.
  destruct x as [sx|sx| |sx mx ex], y as [sy|sy| |sy my ey],
           z as [sz|sz| |sz mz ez];
    try discriminate; try (destruct sx); try (destruct sy); try (destruct sz);
    try discriminate; try reflexivity; intros H1 H2;
    cbn [CompOpp] in *; compare_cases; subst; try reflexivity;
    try discriminate; try lia.
Qed.

Lemma double_ltb_asym x y : Double.ltb x y = true -> Double.leb y x = false.
Proof.
  unfold Double.ltb, Double.leb, SpecFloat.SFltb, SpecFloat.SFleb,
    SpecFloat.SFcompare.
  destruct x as [sx|sx| |sx mx ex], y as [sy|sy| |sy my ey];
    try discriminate; try (destruct sx); try (destruct sy);
    try discriminate; try reflexivity; intros H1;
    cbn [CompOpp] in *; compare_cases; subst; try reflexivity;
    try discriminate; try lia.
Qed.

Lemma double_ltb_leb x y : Double.ltb x y = true -> Double.leb x y = true.
Proof.
  unfold Double.ltb, Double.leb, SpecFloat.SFltb, SpecFloat.SFleb.
  destruct (SpecFloat.SFcompare x y) as [[| |]|]; congruence.
Qed.

(** ** Match score *)

Lemma accumulateScoresD_loop e v :
  Double.accumulateScores e v =
  accumulateOverD allFields e v
    (Double.mkScoreAcc [] (Double.ofZ 0) (Double.ofZ 0)).
Proof. reflexivity. Qed.

Lemma accumulateOverD_spec e v fs : forall a,
  let r := accumulateOverD fs e v a in
  let cs := filter (fun f => compared f e v) fs in
  Double.fieldScores r =
    Double.fieldScores a ++ map (fun f => (f, fieldScoreD f e v)) cs /\
  Double.totalWeight r =
    fold_left (fun t f => Double.add t (Double.FIELD_WEIGHTS f)) cs
      (Double.totalWeight a) /\
  Double.weightedSum r =
    fold_left
      (fun s f => Double.add s (Double.mul (fieldScoreD f e v)
                                  (Double.FIELD_WEIGHTS f)))
      cs (Double.weightedSum a).
Proof.
  induction fs as [|f fs IH]; intros a; cbn [accumulateOverD fold_left filter].
  - cbn. rewrite app_nil_r. repeat split.
  - specialize (IH (Double.compareField f (compared f e v) (fieldScoreD f e v) a)).
    cbv zeta in IH. unfold accumulateOverD in IH. destruct IH as (IH1 & IH2 & IH3).
    cbv zeta. unfold accumulateOverD.
    rewrite IH1, IH2, IH3. unfold Double.compareField.
    destruct (compared f e v);
      cbn [Double.fieldScores Double.totalWeight Double.weightedSum map
           fold_left].
    + rewrite <- app_assoc. repeat split.
    + repeat split.
Qed.

(** The sum of the weights of fields that are compared is above 0, whichever
    they are: there are sixty-three cases. *)
Lemma sumWeightsD_pos (p : Field -> bool) :
  filter p allFields <> [] ->
  Double.ltb (Double.ofZ 0) (sumWeightsD (filter p allFields)) = true.
Proof.
  unfold allFields. cbn [filter].
  destruct (p Ftitle), (p Fauthors), (p Fyear), (p Fjournal), (p Fvolume),
    (p Fpages); intros H; try (exfalso; apply H; reflexivity);
    vm_compute; reflexivity.
Qed.

Lemma getValidationStatusD_verdict m lookupMethod :
  let status := fst (Double.getValidationStatus m lookupMethod) in
  (Double.leb Double.THRESHOLDS_valid (Double.overall m) = true ->
   status = valid) /\
  (Double.leb Double.THRESHOLDS_valid (Double.overall m) = false ->
   Double.leb Double.THRESHOLDS_suspicious (Double.overall m) = true ->
   status = suspicious) /\
  (Double.leb Double.THRESHOLDS_suspicious (Double.overall m) = false ->
   status = mismatch).
Proof.
  cbv zeta. unfold Double.getValidationStatus.
  destruct (Double.leb Double.THRESHOLDS_valid (Double.overall m)) eqn:Hv;
    destruct (Double.leb Double.THRESHOLDS_suspicious (Double.overall m)) eqn:Hs;
    cbn [fst]; repeat split; intros; try reflexivity; try discriminate.
  exfalso.
  assert (H07 : Double.ltb Double.THRESHOLDS_suspicious Double.THRESHOLDS_valid
                = true) by (vm_compute; reflexivity).
  pose proof (double_ltb_leb _ _ (double_ltb_leb_trans _ _ _ H07 Hv)).
  congruence.
Qed.

(** C4. In [computeMatchScore] a field is scored exactly when both records
    have a non-empty value for it.  The overall score is the weighted sum of
    the scores of the fields compared divided by the sum of the weights of
    those fields alone, and 0 when no field is compared; sums, products and
    quotient are those of the machine, in double precision, the fields
    taken in the order title, authors, year, journal, volume, pages.  The
    verdict is valid when the overall score is at least 0.90, suspicious
    when it is at least 0.70 and not at least 0.90, and mismatch else. *)
Theorem computeMatchScore_weighted extracted validated :
  let e := normalizeExtracted extracted in
  let m := Double.computeMatchScore extracted validated in
  let cs := comparedFields e validated in
  (forall f s, In (f, s) (Double.fields m) <->
     compared f e validated = true /\ s = fieldScoreD f e validated) /\
  Double.fieldsCompared m = Z.of_nat (List.length cs) /\
  (cs <> [] ->
   Double.overall m =
     Double.div (weightedSumD e validated cs) (sumWeightsD cs)) /\
  (cs = [] -> Double.overall m = Double.ofZ 0) /\
  (forall lookupMethod,
     let status := fst (Double.getValidationStatus m lookupMethod) in
     (Double.leb Double.THRESHOLDS_valid (Double.overall m) = true ->
      status = valid) /\
     (Double.leb Double.THRESHOLDS_valid (Double.overall m) = false ->
      Double.leb Double.THRESHOLDS_suspicious (Double.overall m) = true ->
      status = suspicious) /\
     (Double.leb Double.THRESHOLDS_suspicious (Double.overall m) = false ->
      status = mismatch)).
Proof.
  cbv zeta. unfold Double.computeMatchScore. cbv zeta.
  generalize (normalizeExtracted extracted) as e. intros e.
  rewrite accumulateScoresD_loop.
  destruct (accumulateOverD_spec e validated allFields
              (Double.mkScoreAcc [] (Double.ofZ 0) (Double.ofZ 0)))
    as (H1 & H2 & H3).
  cbv zeta in H1, H2, H3.
  cbn [Double.fieldScores Double.totalWeight Double.weightedSum app]
    in H1, H2, H3.
  fold (comparedFields e validated) in H1, H2, H3.
  fold (sumWeightsD (comparedFields e validated)) in H2.
  fold (weightedSumD e validated (comparedFields e validated)) in H3.
  unfold Double.scoreOf.
  cbn [Double.fields Double.fieldsCompared Double.overall].
  split; [|split; [|split; [|split]]].
  - intros f s. rewrite H1, in_map_iff. unfold comparedFields. split.
    + intros (g & [= <- <-] & Hin). apply filter_In in Hin. now split.
    + intros [Hc ->]. exists f. split; [reflexivity|].
      apply filter_In. split; [destruct f; simpl; tauto | exact Hc].
  - rewrite H1, length_map. reflexivity.
  - intros Hne. rewrite H2, H3.
    unfold comparedFields in *. rewrite (sumWeightsD_pos _ Hne). reflexivity.
  - intros Hnil. rewrite H2, Hnil. reflexivity.
  - intros lookupMethod.
    exact (getValidationStatusD_verdict
             (Double.scoreOf
                (accumulateOverD allFields e validated
                   (Double.mkScoreAcc [] (Double.ofZ 0) (Double.ofZ 0))))
             lookupMethod).
Qed.

(** Two authors on both sides, and nothing else: the first authors agree,
    the last authors share two words of three, so the authors score
    0.7 + 0.3 * (2/3), which is 0.8999999999999999 in double precision, and
    so does the citation: suspicious, though the same sum of rational
    numbers is 0.9. *)
Lemma computeMatchScore_weighted_witness :
  let m := Double.computeMatchScore twoAuthors twoAuthorsOnRecord in
  comparedFields (normalizeExtracted twoAuthors) twoAuthorsOnRecord
    = [Fauthors] /\
  Double.overall m = SpecFloat.S754_finite false 8106479329266892 (-53) /\
  Double.THRESHOLDS_valid = SpecFloat.S754_finite false 8106479329266893 (-53) /\
  fst (Double.getValidationStatus m "DOI verified via CrossRef") = suspicious.
Proof.
  cbv zeta.
  destruct (computeMatchScore_weighted twoAuthors twoAuthorsOnRecord)
    as (_ & _ & Hw & _ & Hv).
  split; [vm_compute; reflexivity|]. split.
  - rewrite Hw; [vm_compute; reflexivity | vm_compute; discriminate].
  - split; [vm_compute; reflexivity|].
    apply Hv; vm_compute; reflexivity.
Defined.

(** ** The best of the search results *)

Lemma findBestMatchD_loop_spec citation : forall rest done b,
  firstBestD citation done b ->
  exists b',
    Double.findBestMatch_loop citation rest (Some (b, scoreAgainstD citation b))
      = Some (b', scoreAgainstD citation b') /\
    firstBestD citation (done ++ rest) b'.
Proof.
  induction rest as [|r rest IH]; intros done b Hb;
    cbn [Double.findBestMatch_loop].
  - exists b. rewrite app_nil_r. split; [reflexivity | exact Hb].
  - cbv zeta. fold (scoreAgainstD citation r).
    replace (done ++ r :: rest) with ((done ++ [r]) ++ rest)
      by (now rewrite <- app_assoc).
    destruct Hb as (before & after & Hd & Hlt & Hle).
    destruct (Double.ltb (Double.overall (scoreAgainstD citation b))
                (Double.overall (scoreAgainstD citation r))) eqn:Hq.
    + apply IH.
      exists done, []. split; [reflexivity|]. split; [|constructor].
      assert (Hbeaten : forall x,
                Double.ltb (Double.overall (scoreAgainstD citation b))
                  (Double.overall (scoreAgainstD citation x)) = false ->
                Double.leb (Double.overall (scoreAgainstD citation r))
                  (Double.overall (scoreAgainstD citation x)) = false).
      { intros x Hx.
        destruct (Double.leb (Double.overall (scoreAgainstD citation r))
                    (Double.overall (scoreAgainstD citation x))) eqn:E;
          [|reflexivity].
        pose proof (double_ltb_leb_trans _ _ _ Hq E). congruence. }
      rewrite Hd. apply Forall_app. split; [|constructor].
      * eapply Forall_impl; [|exact Hlt]. cbv beta. intros x Hx.
        apply Hbeaten.
        destruct (Double.ltb (Double.overall (scoreAgainstD citation b))
                    (Double.overall (scoreAgainstD citation x))) eqn:E;
          [|reflexivity].
        apply double_ltb_leb in E. congruence.
      * apply double_ltb_asym, Hq.
      * eapply Forall_impl; [|exact Hle]. cbv beta. intros x Hx.
        apply Hbeaten, Hx.
    + apply IH.
      exists before, (after ++ [r]). rewrite Hd, <- app_assoc.
      split; [reflexivity|]. split; [exact Hlt|].
      apply Forall_app. split; [exact Hle|]. constructor; [exact Hq|constructor].
Qed.

(** X20. [findBestMatch] returns [null] only for an empty list of results.
    Else it returns one of the results together with its score against the
    citation, such that no result after it in the list has a higher overall
    score and no result before it has an overall score as high: of the
    results that score highest it is the first.  The scores are doubles and
    are compared as the machine compares them. *)
Theorem findBestMatch_first_best citation results :
  match Double.findBestMatch citation results with
  | None => results = []
  | Some (result, score) =>
      score = scoreAgainstD citation result /\
      firstBestD citation results result
  end.
Proof.
  unfold Double.findBestMatch. destruct results as [|r rest]; [reflexivity|].
  cbn [Double.findBestMatch_loop]. cbv zeta. fold (scoreAgainstD citation r).
  destruct (findBestMatchD_loop_spec citation rest [r] r) as (b & Hb & Hbest).
  { exists [], []. repeat split; constructor. }
  rewrite Hb. split; [reflexivity | exact Hbest].
Qed.

(** ** Deduplication of a pair *)

(** X13. Of two extractions with different ids that are not errors and that
    the strict rule matches, deduplication removes one and returns 1: it
    keeps the first when its score is at least the score of the second, and
    the second else.  The scores are doubles: two scores that are equal as
    rational numbers may differ as the machine computes them, and then the
    higher double wins. *)
Theorem deduplicateExtractions_pair e1 e2 results cancel :
  id e1 <> id e2 ->
  truthyB (error e1) = false -> truthyB (error e2) = false ->
  extractionsAreDuplicates e1 e2 = true ->
  let out := Double.deduplicateExtractions (mkState [e1; e2] results cancel) in
  snd out = 1 /\
  extractions (fst out) =
    if Double.leb (Double.scoreExtraction e2) (Double.scoreExtraction e1)
    then [e1] else [e2].
Proof.
  intros Hid E1 E2 Hdup.
  assert (H12 : optStr_eqb (id e1) (id e2) = false).
  { destruct (optStr_eqb (id e1) (id e2)) eqn:E; [|reflexivity].
    apply optStr_eqb_eq in E. contradiction. }
  assert (H21 : optStr_eqb (id e2) (id e1) = false).
  { destruct (optStr_eqb (id e2) (id e1)) eqn:E; [|reflexivity].
    apply optStr_eqb_eq in E. congruence. }
  assert (H11 : forall i, optStr_eqb i i = true)
    by (intros i; apply optStr_eqb_eq; reflexivity).
  assert (Hids : Double.dedupOuter [e1; e2] [] =
                 if Double.leb (Double.scoreExtraction e2)
                      (Double.scoreExtraction e1)
                 then [id e2] else [id e1]).
  { cbn -[Double.scoreExtraction extractionsAreDuplicates optStr_eqb Double.leb].
    rewrite E1, E2, Hdup.
    cbn -[Double.scoreExtraction extractionsAreDuplicates optStr_eqb Double.leb].
    destruct (Double.leb (Double.scoreExtraction e2) (Double.scoreExtraction e1));
      cbn -[Double.scoreExtraction extractionsAreDuplicates optStr_eqb
            Double.leb];
      rewrite ?E2, ?H11, ?H21;
      cbn -[Double.scoreExtraction extractionsAreDuplicates optStr_eqb
            Double.leb];
      reflexivity. }
  unfold Double.deduplicateExtractions. cbn [extractions]. rewrite Hids.
  destruct (Double.leb (Double.scoreExtraction e2) (Double.scoreExtraction e1))
    eqn:Hs;
    cbn -[Double.scoreExtraction optStr_eqb]; rewrite ?H11, ?H12, ?H21;
    cbn -[Double.scoreExtraction]; split; reflexivity.
Qed.

(** The extraction of window 82 scores 28.200000000000003 and the one of
    window 22 scores 28.2: the first of the two is removed. *)
Lemma deduplicateExtractions_pair_witness :
  id fromWindow22 <> id fromWindow82 /\
  extractionsAreDuplicates fromWindow22 fromWindow82 = true /\
  Double.ltb (Double.scoreExtraction fromWindow22)
    (Double.scoreExtraction fromWindow82) = true /\
  extractions (fst (Double.deduplicateExtractions
                      (mkState [fromWindow22; fromWindow82] [] false)))
    = [fromWindow82].
Proof.
  assert (Hid : id fromWindow22 <> id fromWindow82) by discriminate.
  split; [exact Hid|]. split; [reflexivity|].
  split; [vm_compute; reflexivity|].
  exact (proj2 (deduplicateExtractions_pair fromWindow22 fromWindow82 [] false
                  Hid eq_refl eq_refl eq_refl)).
Defined.

(* ================================================================== *)
(** * Deduplication and the DOIs *)
(* ================================================================== *)

Lemma ordered_pair_notDuplicates l1 a l2 b l3 :
  ForallOrdPairs notDuplicates (l1 ++ a :: l2 ++ b :: l3) -> notDuplicates a b.
Proof.
  induction l1 as [|x l1 IH]; intros H.
  - inversion H as [|? ? Hall _]; subst. rewrite Forall_forall in Hall.
    apply Hall. apply in_or_app. right. now left.
  - inversion H; subst. apply IH. assumption.
Qed.

(** Of two extractions that are not errors, one before the other in the
    list, that the strict rule matches, one at least is not kept. *)
Lemma dedup_pair_not_both_kept st before a between b after :
  extractions st = before ++ a :: between ++ b :: after ->
  truthyB (error a) = false -> truthyB (error b) = false ->
  extractionsAreDuplicates a b = true ->
  ~ In a (extractions (fst (deduplicateExtractions st))) \/
  ~ In b (extractions (fst (deduplicateExtractions st))).
Proof.
  intros Heq Ea Eb Hdup.
  pose proof (deduplicateExtractions_pairs st) as Hpairs.
  unfold deduplicateExtractions in *.
  destruct (Z.of_nat (List.length (extractions st)) <? 2).
  { cbn [fst] in *. rewrite Heq in Hpairs.
    pose proof (ordered_pair_notDuplicates _ _ _ _ _ Hpairs Ea Eb). congruence. }
  destruct (Z.of_nat (List.length (dedupOuter (extractions st) [])) =? 0).
  { cbn [fst] in *. rewrite Heq in Hpairs.
    pose proof (ordered_pair_notDuplicates _ _ _ _ _ Hpairs Ea Eb). congruence. }
  cbn [fst extractions] in *.
  set (keep := fun e => negb (idHas (dedupOuter (extractions st) []) (id e))) in *.
  destruct (keep a) eqn:Ka;
    [|left; intros Hin; apply filter_In in Hin; destruct Hin; congruence].
  destruct (keep b) eqn:Kb;
    [|right; intros Hin; apply filter_In in Hin; destruct Hin; congruence].
  exfalso. rewrite Heq in Hpairs.
  rewrite filter_app in Hpairs. cbn [filter] in Hpairs. rewrite Ka in Hpairs.
  rewrite filter_app in Hpairs. cbn [filter] in Hpairs. rewrite Kb in Hpairs.
  pose proof (ordered_pair_notDuplicates _ _ _ _ _ Hpairs Ea Eb). congruence.
Qed.

(** C1, as the code has it.  Let the extractions have ids that differ from
    one another (removal is by id).  Deduplication removes an extraction
    only as a member of a pair of extractions, neither an error, that the
    strict rule matches; and of two extractions, neither an error, of which
    the strict rule matches the earlier with the later, it removes one at
    least.  When the two carry DOIs that differ, the strict rule matches
    them exactly when their PMIDs are equal, or their ISBNs are equal once
    hyphens and white space are stripped, or the rule on title, first
    author and year holds: DOIs that differ never make two extractions
    duplicates, but they do not protect them either. *)
Theorem dedup_removes_only_strict_duplicates st :
  NoDup (map id (extractions st)) ->
  let kept := extractions (fst (deduplicateExtractions st)) in
  (forall e, In e (extractions st) -> ~ In e kept ->
     exists e',
       In e' (extractions st) /\ e' <> e /\
       truthyB (error e) = false /\ truthyB (error e') = false /\
       (extractionsAreDuplicates e e' = true \/
        extractionsAreDuplicates e' e = true)) /\
  (forall before a between b after,
     extractions st = before ++ a :: between ++ b :: after ->
     truthyB (error a) = false -> truthyB (error b) = false ->
     extractionsAreDuplicates a b = true ->
     ~ In a kept \/ ~ In b kept) /\
  (forall e1 e2, distinctDOIs e1 e2 ->
     (extractionsAreDuplicates e1 e2 = true <->
      pmidMatch e1 e2 = true \/ isbnMatch e1 e2 = true \/
      titleRule calculateSimilarity e1 e2)).
Proof.
  intros Hnd kept. split; [|split].
  - intros e Hin Hout.
    assert (Hrem : In (id e) (dedupOuter (extractions st) [])).
    { unfold kept, deduplicateExtractions in Hout.
      destruct (Z.of_nat (List.length (extractions st)) <? 2);
        [exfalso; apply Hout; exact Hin|].
      destruct (Z.of_nat (List.length (dedupOuter (extractions st) [])) =? 0);
        [exfalso; apply Hout; exact Hin|].
      simpl in Hout. apply idHas_In.
      destruct (idHas (dedupOuter (extractions st) []) (id e)) eqn:Hhas;
        [reflexivity|].
      exfalso. apply Hout. apply filter_In. split; [exact Hin|].
      now rewrite Hhas. }
    destruct (dedupOuter_sound _ _ _ Hrem)
      as [[]|(before & a & rest & b & Heq & Hb & Hae & Hbe & Hdup & Hid)].
    assert (Ha : In a (extractions st))
      by (rewrite Heq; apply in_or_app; right; now left).
    assert (Hb' : In b (extractions st))
      by (rewrite Heq; apply in_or_app; right; now right).
    assert (Hab : id a <> id b)
      by (apply (NoDup_map_split id before a rest b);
          [rewrite <- Heq; exact Hnd | exact Hb]).
    destruct Hid as [Hid|Hid].
    + assert (e = a) by (apply (NoDup_map_inj id (extractions st)); assumption).
      subst e. exists b. split; [exact Hb'|]. split; [congruence|].
      split; [exact Hae|]. split; [exact Hbe|]. left. exact Hdup.
    + assert (e = b) by (apply (NoDup_map_inj id (extractions st)); assumption).
      subst e. exists a. split; [exact Ha|]. split; [congruence|].
      split; [exact Hbe|]. split; [exact Hae|]. right. exact Hdup.
  - intros before a between b after. apply dedup_pair_not_both_kept.
  - intros e1 e2 Hd. apply distinctDOIs_doiMatch in Hd.
    unfold extractionsAreDuplicates. rewrite Hd.
    rewrite <- titleAuthorYearMatch_iff.
    destruct (pmidMatch e1 e2); [tauto|]. destruct (isbnMatch e1 e2); [tauto|].
    split; [tauto|]. intros [H|[H|H]]; [discriminate | discriminate | exact H].
Qed.

Lemma dedup_removes_only_strict_duplicates_witness :
  NoDup (map id [paperA; paperB]) /\
  distinctDOIs paperA paperB /\
  extractionsAreDuplicates paperA paperB = true /\
  (~ In paperA
       (extractions (fst (deduplicateExtractions
                            (mkState [paperA; paperB] [paperA; paperB] false))))
   \/
   ~ In paperB
       (extractions (fst (deduplicateExtractions
                            (mkState [paperA; paperB] [paperA; paperB] false))))).
Proof.
  assert (Hnd : NoDup (map id [paperA; paperB])).
  { simpl. constructor.
    - intros [H|[]]. discriminate H.
    - constructor; [intros [] | constructor]. }
  split; [exact Hnd|]. split.
  { exists "10.1000/a", "10.1000/b".
    repeat split; try reflexivity; try discriminate. }
  split; [reflexivity|].
  exact (proj1 (proj2 (dedup_removes_only_strict_duplicates
                         (mkState [paperA; paperB] [paperA; paperB] false) Hnd))
           [] paperA [] paperB [] eq_refl eq_refl eq_refl eq_refl).
Defined.

(* ================================================================== *)
(** * A window that fails *)
(* ================================================================== *)

(** A record made from a citation of a window carries the number of that
    window, and a merged record the number of the window of the extraction
    that it continues. *)
Lemma processCitation_windows ok w isLast citation r acc :
  ok (Some w) ->
  windowsAre ok r acc ->
  windowsAre ok (fst (processCitation w isLast citation r acc))
    (snd (processCitation w isLast citation r acc)).
Proof.
  intros Hw Hall. unfold processCitation. cbv zeta.
  set (processed := processExtraction citation (extractionIndex r) w).
  set (numberedNow :=
         set_index (Some (extractionIndex r))
           (set_id (Some (extractionId (extractionIndex r))) processed)).
  assert (Hnew : ok (windowIndex numberedNow)) by exact Hw.
  match goal with
  | |- context [if _ && (_ >=? 0) then _ else ?e] => set (rest := e)
  end.
  assert (Hrest : windowsAre ok (fst rest) (snd rest)).
  { unfold rest.
    destruct (negb (notIncomplete processed) && positionIs processed "end"
              && negb isLast).
    - cbn [fst snd]. unfold windowsAre in *.
      cbn [dispatched pendingIncompleteEnd set_extractionIndex].
      fold numberedNow. intros c Hc. in_parts Hc.
      destruct Hc as [Hc|[Hc|[Hc|[<-|[]]]]];
        try exact Hnew; from_parts Hall.
    - set (r1 := if notIncomplete processed then _ else r).
      assert (H1 : dispatched r1 = dispatched r /\
                   extractionIndex r1 = extractionIndex r /\
                   incl (pendingIncompleteEnd r1) (pendingIncompleteEnd r)).
      { unfold r1. destruct (notIncomplete processed);
          [|repeat split; apply incl_refl].
        cbn [dispatched extractionIndex pendingIncompleteEnd set_pending].
        repeat split.
        destruct (dropLastSuperseded_spec processed (pendingIncompleteEnd r))
          as [[_ H]|(before & p & after & Hp & _ & _ & H)];
          rewrite H; [apply incl_refl|].
        rewrite Hp. intros x Hx. apply in_app_or in Hx.
        apply in_or_app. destruct Hx; [now left | right; now right]. }
      destruct H1 as (Hd & Hi & Hp).
      cbn [fst snd]. unfold windowsAre in *.
      cbn [dispatched pendingIncompleteEnd set_extractionIndex startValidation].
      rewrite Hd, Hi. fold numberedNow. intros c Hc. in_parts Hc.
      destruct Hc as [[Hc|[<-|[]]]|[Hc|Hc]];
        try exact Hnew; try (from_parts Hall).
      apply Hp in Hc. from_parts Hall. }
  destruct (negb (notIncomplete processed) && positionIs processed "start")
    eqn:Hstart; cbn [andb]; [|exact Hrest].
  cbv iota.
  destruct (findMatchingPendingEnd (pendingIncompleteEnd r) processed >=? 0)
    eqn:Hm; [|exact Hrest].
  apply Z.geb_le in Hm.
  destruct (findMatchingPendingEnd_found _ _ Hm) as (endE & Hn & Ho).
  rewrite Hn.
  destruct (splice1_found _ _ _ Hn) as (l1 & l2 & Hp & Hsp).
  assert (Hend : positionIs endE "end" = true).
  { apply andb_prop in Hstart. destruct Hstart as [_ Hs].
    unfold positionIs in *. apply optStr_eqb_eq in Hs. apply optStr_eqb_eq.
    destruct (extractionsOverlap_roles _ _ Ho)
      as (_ & _ & _ & _ & [[H _]|[_ H]]); [exact H|].
    rewrite Hs in H. discriminate. }
  pose proof (descr_mergeExtractions endE processed Hend) as Hd.
  unfold descr in Hd. apply tuple9_inv in Hd.
  destruct Hd as (_ & _ & Hwi & _).
  cbn [fst snd]. unfold windowsAre in *.
  cbn [dispatched pendingIncompleteEnd startValidation set_pending].
  rewrite Hsp. rewrite Hp in Hall. intros c Hc. in_parts Hc.
  destruct Hc as [[Hc|[<-|[]]]|[[Hc|Hc]|Hc]]; try (from_parts Hall).
  rewrite Hwi. from_parts Hall.
Qed.

Lemma processCitations_windows ok w isLast citations : forall r acc,
  ok (Some w) ->
  windowsAre ok r acc ->
  windowsAre ok (fst (processCitations w isLast citations r acc))
    (snd (processCitations w isLast citations r acc)).
Proof.
  induction citations as [|c cs IH]; intros r acc Hw Hall;
    cbn [processCitations]; [exact Hall|].
  pose proof (processCitation_windows ok w isLast c r acc Hw Hall) as H.
  destruct (processCitation w isLast c r acc) as [r1 acc1].
  cbn [fst snd] in H. apply IH; assumption.
Qed.

Lemma processWindow_windows ok i total ev r :
  failsOr ok i ev ->
  windowsAre ok r [] -> windowsAre ok (processWindow i total ev r) [].
Proof.
  intros Hev Hall.
  destruct (outcome ev) as [citations|message] eqn:Hout.
  - destruct Hev as [[message Hm]|Hw]; [congruence|].
    unfold processWindow. rewrite Hout. cbv zeta.
    set (r1 := mkRun (state r) (extractionIndex r) (pendingIncompleteEnd r)
                 (dispatched r) (windowsStarted r ++ [i]) (errorsReported r)).
    assert (H : windowsAre ok
                  (fst (if cancelAfterCall ev then (r1, [])
                        else processCitations (i + 1) (i =? total - 1)
                               citations r1 []))
                  (snd (if cancelAfterCall ev then (r1, [])
                        else processCitations (i + 1) (i =? total - 1)
                               citations r1 []))).
    { destruct (cancelAfterCall ev); [exact Hall|].
      apply processCitations_windows; [exact Hw | exact Hall]. }
    destruct (if cancelAfterCall ev then (r1, [])
              else processCitations (i + 1) (i =? total - 1) citations r1 [])
      as [r2 acc]. cbn [fst snd] in H.
    destruct (flushPending_spec r2) as (D & _).
    unfold windowsAre in *. cbn [set_pending dispatched pendingIncompleteEnd].
    rewrite D. intros c Hc. in_parts Hc. from_parts H.
  - destruct (processWindow_failed i total ev r message Hout) as (D & P & _).
    unfold windowsAre in *. rewrite D, P. intros c Hc. in_parts Hc.
    from_parts Hall.
Qed.

Lemma processWindows_windows ok total events : forall i r,
  (forall n ev, nth_error events n = Some ev -> failsOr ok (i + Z.of_nat n) ev) ->
  windowsAre ok r [] -> windowsAre ok (processWindows events i total r) [].
Proof.
  induction events as [|ev events IH]; intros i r Hev Hall;
    cbn [processWindows]; [exact Hall|].
  destruct (cancelAtTop ev); [exact Hall|].
  apply IH.
  - intros n e Hn. specialize (Hev (S n) e Hn).
    replace (i + 1 + Z.of_nat n) with (i + Z.of_nat (S n)) by lia. exact Hev.
  - apply processWindow_windows; [|exact Hall].
    specialize (Hev 0%nat ev eq_refl). rewrite Z.add_0_r in Hev. exact Hev.
Qed.

(** C8. In a run that is not cancelled, let the extraction call of a window
    fail. Then every extraction pending from the window before is handed to
    validation as it stands and nothing stays pending; the error is reported
    once, and the loop adds one extraction to the state, the error-marked
    extraction of the failed window, the only one that it adds for that
    window; no record handed to validation in the run carries the number of
    the failed window, so that, whatever the validation tasks add to the
    state and whenever, the error-marked extraction is the one record of
    that window; the loop goes on with the next window, [onWindowStart] is
    called for every window of the run, and what had been handed to
    validation stays so to the end. *)
Theorem window_failure_does_not_abort before ev after message cancelAtEnd :
  notCancelled (before ++ ev :: after) ->
  outcome ev = Failed message ->
  let events := before ++ ev :: after in
  let total := Z.of_nat (List.length events) in
  let k := Z.of_nat (List.length before) in
  let atFailure :=
    processWindows before 0 total (initialRun createExtractionState) in
  let failed := processWindow k total ev atFailure in
  let final := processAllWindows createExtractionState events cancelAtEnd in
  let errorExtraction :=
    createErrorExtraction (extractionIndex atFailure) (k + 1) message in
  (dispatched failed = dispatched atFailure ++ pendingIncompleteEnd atFailure /\
   pendingIncompleteEnd failed = []) /\
  (errorsReported failed = errorsReported atFailure ++ [(k + 1, message)] /\
   In errorExtraction (extractions (state failed)) /\
   In errorExtraction (extractions (state final)) /\
   filter (isErrorOf (k + 1)) (extractions (state final)) = [errorExtraction] /\
   Forall (fun c => windowIndex c <> Some (k + 1)) (dispatched final)) /\
  (processWindows events 0 total (initialRun createExtractionState) =
     processWindows after (k + 1) total failed /\
   windowsStarted final =
     map Z.of_nat (List.seq 0 (List.length events)) /\
   exists later, dispatched final = dispatched failed ++ later).
Proof.
  intros Hnc Hout events total k atFailure failed final errorExtraction.
  assert (Hb : notCancelled before)
    by (apply Forall_app in Hnc; apply Hnc).
  assert (Ha : notCancelled after).
  { apply Forall_app in Hnc. destruct Hnc as [_ H].
    inversion H; assumption. }
  assert (Hev : cancelAtTop ev = false).
  { apply Forall_app in Hnc. destruct Hnc as [_ H].
    inversion H; assumption. }
  destruct (processWindow_failed k total ev atFailure message Hout)
    as (D & P & X & _ & _ & R).
  fold failed in D, P, X, R. fold errorExtraction in X.
  assert (Hrun : processWindows events 0 total (initialRun createExtractionState)
                 = processWindows after (k + 1) total failed).
  { unfold events. rewrite (processWindows_app total before _ 0 _ Hb).
    cbn [processWindows]. rewrite Hev. reflexivity. }
  destruct (processWindows_log total before 0 (initialRun createExtractionState) Hb)
    as (_ & _ & a1 & X1 & F1).
  fold atFailure in X1. cbn [initialRun state createExtractionState extractions app] in X1.
  destruct (processWindows_log total after (k + 1) failed Ha)
    as (_ & (l2 & D2) & a2 & X2 & F2).
  destruct (processWindows_log total events 0 (initialRun createExtractionState) Hnc)
    as (W & _ & _).
  assert (Hfinal : continues
            (processWindows events 0 total (initialRun createExtractionState))
            final).
  { unfold final, processAllWindows. fold events. fold total.
    destruct (negb cancelAtEnd);
      [apply flushPending_continues | apply continues_refl]. }
  destruct Hfinal as (S3 & W3 & _ & l3 & D3).
  assert (Hfilter : filter (isErrorOf (k + 1)) (extractions (state final))
                    = [errorExtraction]).
  { rewrite S3, Hrun, X2, X, X1. rewrite !filter_app.
    rewrite (filter_none _ a1), (filter_none _ a2).
    - cbn [filter app]. unfold errorExtraction.
      destruct (createErrorExtraction_marked (extractionIndex atFailure) (k + 1) message)
        as (_ & _ & _ & ->). reflexivity.
    - eapply Forall_impl; [|exact F2]. intros e.
      apply errorWithin_other. lia.
    - eapply Forall_impl; [|exact F1]. intros e.
      apply errorWithin_other. unfold k. lia. }
  assert (Hwin : Forall (fun c => windowIndex c <> Some (k + 1))
                   (dispatched final)).
  { assert (H : windowsAre (fun o => o <> Some (k + 1))
                  (processWindows events 0 total
                     (initialRun createExtractionState)) []).
    { apply processWindows_windows; [|intros c []].
      intros n e Hn. unfold events in Hn.
      destruct (Nat.eq_dec n (List.length before)) as [->|Hne].
      - rewrite nth_error_app2, Nat.sub_diag in Hn by lia.
        cbn in Hn. injection Hn as <-. left. exists message. exact Hout.
      - right. intros [= H]. unfold k in H. lia. }
    apply Forall_forall. intros c Hc. apply H.
    unfold final, processAllWindows in Hc. fold events in Hc. fold total in Hc.
    destruct (negb cancelAtEnd).
    - destruct (flushPending_spec
                  (processWindows events 0 total
                     (initialRun createExtractionState))) as (Dz & _).
      rewrite Dz in Hc. rewrite app_nil_r. exact Hc.
    - apply in_or_app. now left. }
  split; [split; assumption|].
  split; [split; [exact R|split; [|split; [|split; [exact Hfilter|exact Hwin]]]]
         |split; [exact Hrun|split]].
  - rewrite X. apply in_or_app. right. now left.
  - assert (Hin : In errorExtraction
                    (filter (isErrorOf (k + 1)) (extractions (state final))))
      by (rewrite Hfilter; now left).
    apply filter_In in Hin. apply Hin.
  - rewrite W3, W. cbn [initialRun windowsStarted app].
    apply map_ext. intros n. lia.
  - exists (l2 ++ l3). rewrite D3, Hrun, D2, app_assoc. reflexivity.
Qed.

(** Scenario E: the call of window 3 of 5 throws.  The citation of window 2
    cut at its end is handed to validation as it stands, the error of
    window 3 is reported and recorded, once, and the five windows are all
    started. *)
Lemma window_failure_does_not_abort_witness :
  let final := processAllWindows createExtractionState scenarioE false in
  notCancelled scenarioE /\
  outcome (mkWindowEvent false (Failed "HTTP 500") false) = Failed "HTTP 500" /\
  errorsReported final = [(3, "HTTP 500")] /\
  windowsStarted final = [0; 1; 2; 3; 4] /\
  map raw_text (dispatched final) =
    [None; raw_text cutAtEnd; None] /\
  map complete (dispatched final) = [None; Some false; None] /\
  filter (isErrorOf 3) (extractions (state final)) =
    [createErrorExtraction 2 3 "HTTP 500"].
Proof.
  cbv zeta.
  assert (Hnc : notCancelled scenarioE) by (repeat constructor).
  split; [exact Hnc|]. split; [reflexivity|].
  split; [vm_compute; reflexivity|]. split; [vm_compute; reflexivity|].
  split; [vm_compute; reflexivity|]. split; [vm_compute; reflexivity|].
  pose proof (window_failure_does_not_abort
                [ mkWindowEvent false (Extracted [cited]) false;
                  mkWindowEvent false (Extracted [cutAtEnd]) false ]
                (mkWindowEvent false (Failed "HTTP 500") false)
                [ mkWindowEvent false (Extracted [citedWithYear]) false;
                  mkWindowEvent false (Extracted []) false ]
                "HTTP 500" false Hnc eq_refl) as H.
  cbv zeta in H. destruct H as (_ & (_ & _ & _ & H & _) & _). exact H.
Defined.
